(** * The job queue of parallel-string-sorting (src/tools/jobqueue.hpp)

    A shallow embedding of the [jobqueue] namespace: the lock-free queue of
    jobs, the worker loop [executeThreadWork], the two launch functions
    [loop] and [numaLoop], and the two job-queue groups.

    The worker threads of an OpenMP team are modelled as a pool of workers,
    each with a program counter into [executeThreadWork]; one step of one
    worker is one access to the shared state (the concurrent queue, the
    atomic idle counter).  An execution is a schedule: the list of the
    workers that step, in order.  Accesses are sequentially consistent (the
    operators of [std::atomic] the worker loop uses are; [m_numthrs] is a
    plain field every worker of a team sets to the same value);
    [tbb::concurrent_queue] is a FIFO list with atomic push and try_pop. *)

From Stdlib Require Import ZArith Lia Bool.
From stdpp Require Import base list strings.

Set Warnings "-register-all".
Local Open Scope Z_scope.

(** ** Machine integers *)

(** [unsigned] is 32 bits wide: arithmetic on it wraps around. *)
Definition to_unsigned (z : Z) : Z := z mod 2 ^ 32.

(** ** Jobs *)

(** [JobT]: the engine sees of a job only its address, the calls its
    [run(cookie)] makes back into the engine (here: [enqueue] of further jobs,
    each on the queue the cookie leads to, named by its index) and the
    boolean it returns ([true]: the engine deletes the job).  An index that
    names no queue of the system stands for a queue outside of it: what is
    enqueued there is of no concern to the system. *)
Inductive job : Type :=
  Job (job_ptr : nat) (job_spawns : list (nat * job)) (job_destroy : bool).

Definition job_ptr (j : job) : nat := let 'Job p _ _ := j in p.
Definition job_spawns (j : job) : list (nat * job) := let 'Job _ c _ := j in c.
Definition job_destroy (j : job) : bool := let 'Job _ _ b := j in b.

(** ** JobQueueT *)

Record JobQueueT : Type := mkJobQueueT {
  m_queue : list job;      (* tbb::concurrent_queue<job_type*> *)
  m_numthrs : Z;           (* unsigned *)
  m_idle_count : Z;        (* std::atomic<unsigned int> *)
  m_id : Z                 (* unsigned, set by the group *)
}.

(** The constructor: an empty queue, no threads, nobody idle.  ([m_id] is
    left uninitialised by the source; 0 stands for that.) *)
Definition JobQueueT_new : JobQueueT :=
  {| m_queue := []; m_numthrs := 0; m_idle_count := 0; m_id := 0 |}.

Definition has_idle (Q : JobQueueT) : bool := negb (m_idle_count Q =? 0).

Definition enqueue (j : job) (Q : JobQueueT) : JobQueueT :=
  {| m_queue := m_queue Q ++ [j]; m_numthrs := m_numthrs Q;
     m_idle_count := m_idle_count Q; m_id := m_id Q |}.

Definition set_id (id : Z) (Q : JobQueueT) : JobQueueT :=
  {| m_queue := m_queue Q; m_numthrs := m_numthrs Q;
     m_idle_count := m_idle_count Q; m_id := to_unsigned id |}.

Definition set_queue (l : list job) (Q : JobQueueT) : JobQueueT :=
  {| m_queue := l; m_numthrs := m_numthrs Q;
     m_idle_count := m_idle_count Q; m_id := m_id Q |}.

Definition set_numthrs (n : Z) (Q : JobQueueT) : JobQueueT :=
  {| m_queue := m_queue Q; m_numthrs := to_unsigned n;
     m_idle_count := m_idle_count Q; m_id := m_id Q |}.

Definition set_idle_count (n : Z) (Q : JobQueueT) : JobQueueT :=
  {| m_queue := m_queue Q; m_numthrs := m_numthrs Q;
     m_idle_count := to_unsigned n; m_id := m_id Q |}.

(** [m_queue.try_pop(job)] *)
Definition try_pop (Q : JobQueueT) : option (job * JobQueueT) :=
  match m_queue Q with
  | [] => None
  | j :: rest => Some (j, set_queue rest Q)
  end.

(** ** Workers *)

(** The places of [executeThreadWork] a worker can be at. *)
Inductive pc : Type :=
| PStart                                  (* m_numthrs = omp_get_num_threads() *)
| PDrainPop                               (* while (m_queue.try_pop(job)) *)
| PRun (j : job) (todo : list (nat * job))  (* inside job->run(m_cookie) *)
| PIncIdle                                (* ++m_idle_count *)
| PRetryPop                               (* while (!m_queue.try_pop(job)) *)
| PCheckTerm                              (* if (m_idle_count == m_numthrs) *)
| PAssist                                 (* while (m_group->assist(m_id)) { } *)
| PDecIdle (j : job)                      (* --m_idle_count *)
| PDone.                                  (* return *)

(** What a worker did, for the record (newest first). *)
Inductive obs : Type :=
| OSetThreads (n : Z)
| OPop (j : job)
| OPopFail
| OIdleInc
| OIdleDec
| OCheck (idle numthrs : Z)
| OAssist (b : bool)
| OEnqueue (target : nat) (j : job)
| ORun (j : job) (b : bool)
| ODelete (j : job)
| OReturn.

Record worker : Type := mkWorker {
  w_queue : nat;           (* the JobQueueT whose executeThreadWork it runs *)
  w_node : option Z;       (* numa_run_on_node / numa_set_preferred, if any *)
  w_team : nat;            (* omp_get_num_threads() in its parallel region *)
  w_pc : pc;
  w_trace : list obs
}.

Definition at_pc (p : pc) (o : list obs) (w : worker) : worker :=
  {| w_queue := w_queue w; w_node := w_node w; w_team := w_team w;
     w_pc := p; w_trace := o ++ w_trace w |}.

(** ** The whole system *)

Record system : Type := mkSystem {
  queues : list JobQueueT;        (* every JobQueueT, by index *)
  workers : list worker;          (* every worker thread *)
  runs : list (job * bool);       (* every finished call of run, newest first *)
  deleted : list job              (* every delete, newest first *)
}.

Definition with_queues (qs : list JobQueueT) (s : system) : system :=
  {| queues := qs; workers := workers s; runs := runs s; deleted := deleted s |}.

Definition with_workers (ws : list worker) (s : system) : system :=
  {| queues := queues s; workers := ws; runs := runs s; deleted := deleted s |}.

Definition upd_queue (q : nat) (f : JobQueueT -> JobQueueT) (s : system) : system :=
  with_queues (alter f q (queues s)) s.

Definition upd_worker (i : nat) (w : worker) (s : system) : system :=
  with_workers (<[i:=w]> (workers s)) s.

(** [if (job->run(m_cookie)) delete job;] at the moment run returns. *)
Definition finish_run (j : job) (s : system) : system :=
  {| queues := queues s; workers := workers s;
     runs := (j, job_destroy j) :: runs s;
     deleted := if job_destroy j then j :: deleted s else deleted s |}.

(** ** Job queue groups *)

(** The template parameter [JobQueueGroupType]: all the queue asks of its
    group is [assist(m_id)]. *)
Class JobQueueGroupType : Type := { assist : Z -> system -> bool * system }.

Module DefaultJobQueueGroup.
(** [static inline bool assist(unsigned) { return false; }] *)
Definition assist (qid : Z) (s : system) : bool * system := (false, s).
End DefaultJobQueueGroup.

Module NumaJobQueueGroup.
(** [add_jobqueue]: the queue gets the next id and is appended.  ([m_queues]
    holds the queues themselves where the source holds pointers: the queues
    registered are taken to be different objects.) *)
Definition add_jobqueue (jq : JobQueueT) (m_queues : list JobQueueT) : list JobQueueT :=
  m_queues ++ [set_id (Z.of_nat (length m_queues)) jq].

(** The body of the for loop of [assist], [iters] times:
    [if (++id >= m_queues.size()) id = 0;] *)
Fixpoint assist_loop (iters : nat) (size id : Z) : Z :=
  match iters with
  | O => id
  | S n =>
      let id' := to_unsigned (id + 1) in
      assist_loop n size (if size <=? id' then 0 else id')
  end.

(** [assist]: the loop runs for i = 1 .. size-1 and only moves [id];
    then [return false].  ([m_queues] is the list of the queues of the
    system, in the order of their registration.) *)
Definition assist (qid : Z) (s : system) : bool * system :=
  let size := Z.of_nat (length (queues s)) in
  let id := assist_loop (Z.to_nat (size - 1)) size (to_unsigned qid) in
  (false, s).
End NumaJobQueueGroup.

(** The two groups of the source.  (Plain definitions: which group a queue
    has is always written out.) *)
Definition DefaultGroup : JobQueueGroupType :=
  {| assist := DefaultJobQueueGroup.assist |}.
Definition NumaGroup : JobQueueGroupType :=
  {| assist := NumaJobQueueGroup.assist |}.

(** ** executeThreadWork, one step at a time *)

Section WorkerLoop.
Context {G : JobQueueGroupType}.

(** Worker [i] takes its next step.  A worker that has returned (or an
    index that names no worker) leaves the system as it is. *)
Definition executeThreadWork_step (i : nat) (s : system) : system :=
  match workers s !! i with
  | None => s
  | Some w =>
    match queues s !! w_queue w with
    | None => s
    | Some Q =>
      match w_pc w with
      | PStart =>
          let n := Z.of_nat (w_team w) in
          upd_worker i (at_pc PDrainPop [OSetThreads n] w)
            (upd_queue (w_queue w) (set_numthrs n) s)
      | PDrainPop =>
          match try_pop Q with
          | Some (j, Q') =>
              upd_worker i (at_pc (PRun j (job_spawns j)) [OPop j] w)
                (upd_queue (w_queue w) (fun _ => Q') s)
          | None => upd_worker i (at_pc PIncIdle [OPopFail] w) s
          end
      | PRun j ((t, c) :: todo) =>
          upd_worker i (at_pc (PRun j todo) [OEnqueue t c] w)
            (upd_queue t (enqueue c) s)
      | PRun j [] =>
          upd_worker i
            (at_pc PDrainPop
               (if job_destroy j then [ODelete j; ORun j true] else [ORun j false]) w)
            (finish_run j s)
      | PIncIdle =>
          upd_worker i (at_pc PRetryPop [OIdleInc] w)
            (upd_queue (w_queue w) (set_idle_count (m_idle_count Q + 1)) s)
      | PRetryPop =>
          match try_pop Q with
          | Some (j, Q') =>
              upd_worker i (at_pc (PDecIdle j) [OPop j] w)
                (upd_queue (w_queue w) (fun _ => Q') s)
          | None => upd_worker i (at_pc PCheckTerm [OPopFail] w) s
          end
      | PCheckTerm =>
          let o := [OCheck (m_idle_count Q) (m_numthrs Q)] in
          if m_idle_count Q =? m_numthrs Q
          then upd_worker i (at_pc PAssist o w) s
          else upd_worker i (at_pc PRetryPop o w) s
      | PAssist =>
          let '(b, s') := assist (m_id Q) s in
          if b then upd_worker i (at_pc PAssist [OAssist true] w) s'
          else upd_worker i (at_pc PDone [OReturn; OAssist false] w) s'
      | PDecIdle j =>
          upd_worker i (at_pc (PRun j (job_spawns j)) [OIdleDec] w)
            (upd_queue (w_queue w) (set_idle_count (m_idle_count Q - 1)) s)
      | PDone => s
      end
    end
  end.

(** An execution: the workers named by the schedule step one after the
    other. *)
Definition run_schedule (sched : list nat) (s : system) : system :=
  foldl (fun s i => executeThreadWork_step i s) s sched.

(** [try_run]: pop one job and run it to its end, or say whether the queue
    is finished. *)
Definition try_run (q : nat) (s : system) : option (bool * system) :=
  match queues s !! q with
  | None => None
  | Some Q =>
    match try_pop Q with
    | None => Some (negb (m_idle_count Q =? m_numthrs Q), s)
    | Some (j, Q') =>
        let s1 := upd_queue q (fun _ => Q') s in
        let s2 := foldl (fun s tc => upd_queue (fst tc) (enqueue (snd tc)) s)
                        s1 (job_spawns j) in
        Some (true, finish_run j s2)
    end
  end.
End WorkerLoop.

(** ** The environment: OpenMP, libnuma, the global options *)

Record environment : Type := mkEnvironment {
  omp_get_max_threads : Z;
  (* the size of the team that runs a parallel region: [None] without a
     num_threads clause, [Some n] for num_threads(n) *)
  omp_team_size : option Z -> nat;
  numa_num_configured_nodes : Z;
  gopt_memory_type : string
}.

(** ** loop and numaLoop *)

(** [#pragma omp parallel]: a team of [n] threads enters the region, each at
    the start of [executeThreadWork] on queue [q]. *)
Definition omp_parallel (q : nat) (node : option Z) (n : nat) (s : system) : system :=
  with_workers
    (workers s ++ replicate n
       {| w_queue := q; w_node := node; w_team := n; w_pc := PStart; w_trace := [] |})
    s.

(** [loop] up to the parallel region: [m_idle_count = 0], then the team; its
    threads are tied to node 0 for gopt_memory_type == "mmap_node0". *)
Definition loop_begin (env : environment) (q : nat) (s : system) : system :=
  omp_parallel q
    (if String.eqb (gopt_memory_type env) "mmap_node0" then Some 0 else None)
    (omp_team_size env None)
    (upd_queue q (set_idle_count 0) s).

(** [numaLoop] up to the parallel region: a team of
    num_threads(numberOfThreads), tied to [numaNode]. *)
Definition numaLoop_begin (env : environment) (q : nat) (numaNode numberOfThreads : Z)
    (s : system) : system :=
  omp_parallel q (Some numaNode) (omp_team_size env (Some numberOfThreads)) s.

Definition is_done (p : pc) : bool :=
  match p with PDone => true | _ => false end.

(** The end of the parallel region of queue [q]: every thread of its team
    has returned from [executeThreadWork]. *)
Definition team_done (q : nat) (s : system) : bool :=
  forallb (fun w => negb (w_queue w =? q)%nat || is_done (w_pc w)) (workers s).

(** How a launch stands after a schedule. *)
Inductive launch_result : Type :=
| Returned (s : system)           (* the region ended, the assertion held *)
| AssertionFailed (s : system)    (* the region ended, the queue was not empty *)
| Running (s : system).           (* some worker of the team has not returned *)

(** The end of [loop] and [numaLoop]: [assert(m_queue.unsafe_size() == 0)]. *)
Definition launch_end (q : nat) (s : system) : launch_result :=
  if team_done q s then
    match queues s !! q with
    | Some Q =>
        if (length (m_queue Q) =? 0)%nat then Returned s else AssertionFailed s
    | None => Running s
    end
  else Running s.

Section Launch.
Context {G : JobQueueGroupType}.

Definition loop (env : environment) (q : nat) (sched : list nat) (s : system)
  : launch_result :=
  launch_end q (run_schedule sched (loop_begin env q s)).

Definition numaLoop (env : environment) (q : nat) (numaNode numberOfThreads : Z)
    (sched : list nat) (s : system) : launch_result :=
  launch_end q (run_schedule sched (numaLoop_begin env q numaNode numberOfThreads s)).
End Launch.

(** ** NumaJobQueueGroup: the distribution of the threads *)

Definition realNumaNodes (env : environment) : Z :=
  if numa_num_configured_nodes env <? 1 then 1 else numa_num_configured_nodes env.

(** [calcThreadNum(k, numJobQueues)]; the int division is C's (truncating),
    and dividing by zero has no result. *)
Definition calcThreadNum (env : environment) (k numJobQueues : Z) : option Z :=
  if numJobQueues =? 0 then None else
  let numThreadsPerNode := Z.quot (omp_get_max_threads env) numJobQueues in
  let remainThreads := Z.rem (omp_get_max_threads env) numJobQueues in
  let nodeThreads := numThreadsPerNode in
  let nodeThreads := if k <? remainThreads then nodeThreads + 1 else nodeThreads in
  Some (to_unsigned nodeThreads).

(** One iteration of the parallel for of [numaLaunch]: the arguments of
    [m_queues[k]->numaLoop(numaNode, nodeThreads)]. *)
Definition numaLaunch_call (env : environment) (numJobQueues : Z) (k : nat)
  : nat * Z * Z :=
  let numThreadsPerNode := Z.quot (omp_get_max_threads env) numJobQueues in
  let remainThreads := Z.rem (omp_get_max_threads env) numJobQueues in
  let nodeThreads := numThreadsPerNode in
  let numaNode := Z.rem (Z.of_nat k) (realNumaNodes env) in
  let nodeThreads := if Z.of_nat k <? remainThreads then nodeThreads + 1 else nodeThreads in
  let nodeThreads := if nodeThreads =? 0 then 1 else nodeThreads in
  (k, numaNode, nodeThreads).

(** The calls of all iterations k = 0 .. numJobQueues-1. *)
Definition numaLaunch_calls (env : environment) (numJobQueues : Z)
  : list (nat * Z * Z) :=
  map (numaLaunch_call env numJobQueues) (seq 0 (Z.to_nat numJobQueues)).

(** [runThreads]: the threads of the outer parallel for. *)
Definition runThreads (env : environment) (numJobQueues : Z) : Z :=
  Z.min (omp_get_max_threads env) numJobQueues.

(** [numaLaunch] up to the inner parallel regions: every registered queue
    gets its team.  (The iterations are handed out dynamically to
    [runThreads] outer threads; a team whose iteration has not begun is a team
    none of whose workers has stepped.  With fewer outer threads than queues
    an iteration begins only when an earlier [numaLoop] has returned: the
    schedules of the model include those of the source, and more.)  Without a
    registered queue the division by [numJobQueues] has no result. *)
Definition numaLaunch_begin (env : environment) (s : system) : option system :=
  let numJobQueues := Z.of_nat (length (queues s)) in
  if numJobQueues =? 0 then None
  else Some (foldl (fun s c => numaLoop_begin env c.1.1 c.1.2 c.2 s) s
               (numaLaunch_calls env numJobQueues)).

(** ** What the theorems speak about *)

(** A group whose [assist] leaves the system as it was. *)
Class InertGroup (G : JobQueueGroupType) : Prop :=
  assist_inert : forall qid s, (assist qid s).2 = s.

(** A group whose [assist] says false and leaves the system as it was: the
    two groups of the source. *)
Class NoAssistGroup (G : JobQueueGroupType) : Prop :=
  assist_none : forall qid s, assist qid s = (false, s).

(** The jobs whose run returned [true], out of a log of runs. *)
Fixpoint destroyed (rs : list (job * bool)) : list job :=
  match rs with
  | [] => []
  | (j, b) :: rest => if b then j :: destroyed rest else destroyed rest
  end.

(** A worker counts as idle from its [++m_idle_count] up to its
    [--m_idle_count]; one that has returned never took its increment back. *)
Definition is_idle (p : pc) : bool :=
  match p with
  | PRetryPop | PCheckTerm | PAssist | PDecIdle _ | PDone => true
  | _ => false
  end.

(** A worker whose last try_pop failed in the retry loop and that has not
    gone back to popping. *)
Definition post_pop (p : pc) : bool :=
  match p with
  | PCheckTerm | PAssist | PDone => true
  | _ => false
  end.

Fixpoint count_if (P : worker -> bool) (ws : list worker) : nat :=
  match ws with
  | [] => O
  | w :: rest => ((if P w then 1 else 0) + count_if P rest)%nat
  end.

Definition on_queue (q : nat) (w : worker) : bool := (w_queue w =? q)%nat.

(** The workers of queue [q], and those of them that are idle. *)
Definition count_team (q : nat) (ws : list worker) : nat := count_if (on_queue q) ws.
Definition count_idle (q : nat) (ws : list worker) : nat :=
  count_if (fun w => on_queue q w && is_idle (w_pc w)) ws.

(** The state in which a launch sets its workers off: every worker is at the
    start of [executeThreadWork], has done nothing, and its team is the
    workers of its queue. *)
Definition launched (s : system) : Prop :=
  forall i w, workers s !! i = Some w ->
    w_pc w = PStart /\ w_trace w = [] /\ w_team w = count_team (w_queue w) (workers s).

(** The one way out of the worker loop, read backwards from the return: the
    last [assist] said false, before it [k] calls said true, before them the
    check found the idle counter equal to [n], before it try_pop failed. *)
Definition exit_path (n : Z) (tr : list obs) : Prop :=
  exists k pre,
    tr = OReturn :: OAssist false :: repeat (OAssist true) k
           ++ OCheck n n :: OPopFail :: pre.

(** Job [j], run by a worker of queue [home], enqueues on queue [q] only if
    [home] is [q]; and so for the jobs it enqueues, where they will run. *)
Fixpoint confined (q home : nat) (j : job) : bool :=
  match j with
  | Job _ spawns _ =>
      forallb (fun tc : nat * job =>
                 let '(t, c) := tc in
                 (negb (t =? q)%nat || (home =? q)%nat) && confined q t c)
              spawns
  end.

(** Every job of the system is confined with respect to queue [q]. *)
Definition isolated (q : nat) (s : system) : Prop :=
  (forall q' Q' j, queues s !! q' = Some Q' -> j ∈ m_queue Q' -> confined q q' j = true).

(** The counter of queue [q] is the number of its idle workers. *)
Definition idle_inv (q : nat) (s : system) : Prop :=
  forall Q, queues s !! q = Some Q ->
    m_idle_count Q = Z.of_nat (count_idle q (workers s)).

(** [m_numthrs] as the workers of a team write it. *)
Definition team_N (w : worker) : Z := to_unsigned (Z.of_nat (w_team w)).

(** What the record of a worker looks like at the places after the failed
    try_pop of the retry loop. *)
Definition trace_ok (w : worker) : Prop :=
  match w_pc w with
  | PCheckTerm => exists pre, w_trace w = OPopFail :: pre
  | PAssist =>
      exists k pre,
        w_trace w = repeat (OAssist true) k
                      ++ OCheck (team_N w) (team_N w) :: OPopFail :: pre
  | PDone => exit_path (team_N w) (w_trace w)
  | _ => True
  end.

(** The workers of one queue agree on the size of their team. *)
Definition uniform_teams (s : system) : Prop :=
  forall i k w w', workers s !! i = Some w -> workers s !! k = Some w' ->
    w_queue w = w_queue w' -> w_team w = w_team w'.

(** Once a worker is past its first statement, [m_numthrs] of its queue is
    the size of its team. *)
Definition numthrs_inv (s : system) : Prop :=
  forall i w Q, workers s !! i = Some w -> queues s !! w_queue w = Some Q ->
    w_pc w <> PStart -> m_numthrs Q = team_N w.

Definition trace_inv (s : system) : Prop :=
  forall i w, workers s !! i = Some w -> trace_ok w.

Definition exit_inv (s : system) : Prop :=
  uniform_teams s /\ numthrs_inv s /\ trace_inv s.

(** Every worker of queue [q] is past its last try_pop. *)
Definition team_finishing (q : nat) (s : system) : Prop :=
  forall i w, workers s !! i = Some w -> w_queue w = q -> post_pop (w_pc w) = true.

(** Once the whole team is past its last try_pop, the queue is empty. *)
Definition drain_inv (q : nat) (s : system) : Prop :=
  team_finishing q s -> forall Q, queues s !! q = Some Q -> m_queue Q = [].

Definition queues_confined (q : nat) (qs : list JobQueueT) : Prop :=
  forall q' Q' j, qs !! q' = Some Q' -> j ∈ m_queue Q' -> confined q q' j = true.

Definition worker_confined (q : nat) (w : worker) : Prop :=
  match w_pc w with
  | PRun _ todo =>
      forall t c, (t, c) ∈ todo -> (t = q -> w_queue w = q) /\ confined q t c = true
  | PDecIdle j => confined q (w_queue w) j = true
  | _ => True
  end.

(** No job, pending or in the hands of a worker, will enqueue on [q] from
    another queue. *)
Definition jobs_confined (q : nat) (s : system) : Prop :=
  queues_confined q (queues s) /\
  (forall i w, workers s !! i = Some w -> worker_confined q w).

(** ** Launches, and what is said of them *)

(** The sum of [calcThreadNum(k, numJobQueues)] over k = 0 .. numJobQueues-1. *)
Definition calcThreadNum_total (env : environment) (numJobQueues : Z) : option Z :=
  foldr (fun k acc =>
           match calcThreadNum env (Z.of_nat k) numJobQueues, acc with
           | Some c, Some a => Some (c + a)
           | _, _ => None
           end)
        (Some 0) (seq 0 (Z.to_nat numJobQueues)).

(** [s1] is the state in which [loop], [numaLoop] or [numaLaunch] sets its
    workers off, called in a state [s0] without workers. *)
Definition launch_state (env : environment) (s0 s1 : system) : Prop :=
  workers s0 = [] /\
  ((exists q, s1 = loop_begin env q s0) \/
   (exists q numaNode numberOfThreads,
       s1 = numaLoop_begin env q numaNode numberOfThreads s0) \/
   numaLaunch_begin env s0 = Some s1).


(** ** numaLaunch as a whole *)

Section LaunchAll.
Context {G : JobQueueGroupType}.

(** [numaLaunch]: every queue of the group is launched by [numaLoop]; the
    result of each, for the schedule [sched] of the workers.  (The assertion
    of every queue is looked at in the state at the end of [sched]; the source
    looks at it when the parallel region of that queue ends: a job enqueued on
    the queue after that makes the assertion fail here and not there.) *)
Definition numaLaunch (env : environment) (sched : list nat) (s : system)
  : option (list launch_result) :=
  match numaLaunch_begin env s with
  | None => None
  | Some s1 =>
      let s2 := run_schedule sched s1 in
      Some (map (fun c : nat * Z * Z => launch_end c.1.1 s2)
              (numaLaunch_calls env (Z.of_nat (length (queues s)))))
  end.
End LaunchAll.

(** ** A team on an empty queue *)

(** Every worker of a team of [n] takes a turn, [rounds] times. *)
Definition turns (n rounds : nat) : list nat := concat (replicate rounds (seq 0 n)).

(** A team of [n] workers on queue [q] in the middle of a round: the first
    [k] have taken their turn and are as [w'], the others still as [w]. *)
Definition team_state (qs : list JobQueueT) (q : nat) (Q : JobQueueT) (k n : nat)
    (w' w : worker) (r : list (job * bool)) (d : list job) : system :=
  {| queues := <[q:=Q]> qs;
     workers := replicate k w' ++ replicate (n - k) w;
     runs := r; deleted := d |}.

(** A worker of the team of [numaLoop(numaNode, _)] on queue [q]. *)
Definition numa_worker (q : nat) (numaNode : Z) (n : nat) (p : pc) (tr : list obs)
  : worker :=
  {| w_queue := q; w_node := Some numaNode; w_team := n; w_pc := p; w_trace := tr |}.

(** The record of a worker that found its queue empty from the start. *)
Definition idle_trace (n : nat) : list obs :=
  [OReturn; OAssist false; OCheck (Z.of_nat n) (Z.of_nat n); OPopFail; OIdleInc;
   OPopFail; OSetThreads (Z.of_nat n)].

(** ** Concrete systems *)

(** A runtime that gives a team of [n] threads for num_threads(n), n >= 1,
    and the default team of [T] threads without the clause; a request for
    zero threads (or fewer) is treated as no request. *)
Definition runtime (T nodes : Z) : environment :=
  {| omp_get_max_threads := T;
     omp_team_size := fun r =>
       match r with
       | Some n => if n <=? 0 then Z.to_nat T else Z.to_nat n
       | None => Z.to_nat T
       end;
     numa_num_configured_nodes := nodes;
     gopt_memory_type := "default" |}.

Definition leaf (p : nat) : job := Job p [] true.

Definition system_of (qs : list JobQueueT) : system :=
  {| queues := qs; workers := []; runs := []; deleted := [] |}.

(** One queue with one job that enqueues nine more on the same queue. *)
Definition fan_out : system :=
  system_of
    [enqueue (Job 0 (map (fun p => (0%nat, leaf p)) (seq 1 9)) true) JobQueueT_new].

(** One empty queue. *)
Definition idle_system : system := system_of [JobQueueT_new].

(** A group of two queues: the first is empty, the job of the second
    enqueues a job on the first. *)
Definition two_queues : system :=
  system_of
    (NumaJobQueueGroup.add_jobqueue (enqueue (Job 1 [(0%nat, leaf 2)] true) JobQueueT_new)
       (NumaJobQueueGroup.add_jobqueue JobQueueT_new [])).

(** Worker 0 (of queue 0) finds its queue empty twice; worker 1 (of queue 1)
    pops its job, which enqueues on queue 0; worker 0 finds all of its team
    idle, asks the group and returns; worker 1 works on to its end. *)
Definition late_enqueue : list nat :=
  [0; 0; 0; 0;  1; 1; 1;  0; 0;  1; 1; 1; 1; 1; 1]%nat.

(** Three queues on two nodes: the third queue shares node 0 with the first. *)
Definition three_queues : system :=
  system_of
    (NumaJobQueueGroup.add_jobqueue JobQueueT_new
       (NumaJobQueueGroup.add_jobqueue JobQueueT_new
          (NumaJobQueueGroup.add_jobqueue JobQueueT_new []))).

(** * More of the code *)

(** ** Registering queues *)

(** A group filled by [add_jobqueue], queue after queue, from empty; the
    queues are different objects. *)
Definition group_of (jqs : list JobQueueT) : list JobQueueT :=
  foldl (fun m_queues jq => NumaJobQueueGroup.add_jobqueue jq m_queues) [] jqs.

(** The values the variable [id] of [NumaJobQueueGroup::assist] takes, one
    for each of [iters] iterations of its loop. *)
Fixpoint assist_ids (iters : nat) (size id : Z) : list Z :=
  match iters with
  | O => []
  | S n =>
      let id' := to_unsigned (id + 1) in
      let id'' := if size <=? id' then 0 else id' in
      id'' :: assist_ids n size id''
  end.

(** ** The threads numaLaunch asks for *)

(** The sum of the [nodeThreads] of all calls of [numaLoop]. *)
Definition numaLaunch_total (env : environment) (numJobQueues : Z) : Z :=
  foldr (fun c acc => c.2 + acc) 0 (numaLaunch_calls env numJobQueues).

(** ** Every job once *)

(** A job and all the jobs it leads to. *)
Fixpoint flatten (j : job) : list job :=
  match j with
  | Job _ spawns _ =>
      j :: flat_map (fun tc : nat * job => let '(_, c) := tc in flatten c) spawns
  end.

(** Every enqueue of the job, and of the jobs it leads to, names one of the
    [nq] queues of the system. *)
Fixpoint reachable (nq : nat) (j : job) : bool :=
  match j with
  | Job _ spawns _ =>
      forallb (fun tc : nat * job => let '(t, c) := tc in (t <? nq)%nat && reachable nq c)
              spawns
  end.

(** The jobs a run will still enqueue, with all they lead to. *)
Definition flatten_spawns (todo : list (nat * job)) : list job :=
  flat_map (fun tc : nat * job => flatten tc.2) todo.

(** The jobs a queue holds, with all they lead to. *)
Definition queued (Q : JobQueueT) : list job := flat_map flatten (m_queue Q).

(** The jobs in the hands of a worker: the job it runs, the jobs that run
    will still enqueue, and what these lead to. *)
Definition held (w : worker) : list job :=
  match w_pc w with
  | PRun j todo => j :: flatten_spawns todo
  | PDecIdle j => flatten j
  | _ => []
  end.

(** All jobs that have not finished their run: pending, in the hands of a
    worker, or still to be enqueued. *)
Definition outstanding (s : system) : list job :=
  flat_map queued (queues s) ++ flat_map held (workers s).

(** Every enqueue to come names a queue of the system. *)
Definition worker_reachable (nq : nat) (w : worker) : Prop :=
  match w_pc w with
  | PRun _ todo =>
      forall t c, (t, c) ∈ todo -> (t < nq)%nat /\ reachable nq c = true
  | PDecIdle j => reachable nq j = true
  | _ => True
  end.

Definition jobs_reachable (s : system) : Prop :=
  (forall q Q j, queues s !! q = Some Q -> j ∈ m_queue Q ->
     reachable (length (queues s)) j = true) /\
  (forall i w, workers s !! i = Some w -> worker_reachable (length (queues s)) w).

(** No job has been lost or run twice: the jobs that were run, with those
    outstanding, are the jobs of [all]. *)
Definition conserved (all : list job) (s : system) : Prop :=
  map fst (runs s) ++ outstanding s ≡ₚ all.

(** ** A queue launched again *)

(** The counter of queue [q] is [c0] above the number of its idle workers. *)
Definition idle_offset (c0 : Z) (q : nat) (s : system) : Prop :=
  forall Q, queues s !! q = Some Q ->
    m_idle_count Q = c0 + Z.of_nat (count_idle q (workers s)).

(** No worker of queue [q] has left the retry loop. *)
Definition team_spinning (q : nat) (s : system) : Prop :=
  forall i w, workers s !! i = Some w -> w_queue w = q ->
    w_pc w <> PAssist /\ w_pc w <> PDone.

(** The teams of queue [q] are no larger than [c0]. *)
Definition team_within (c0 : Z) (q : nat) (s : system) : Prop :=
  forall i w, workers s !! i = Some w -> w_queue w = q -> team_N w <= c0.

(** The queues as a first [numaLoop] with a team of two leaves them. *)
Definition used_queues : list JobQueueT :=
  queues (run_schedule (G:=NumaGroup) (turns 2 6)
            (numaLoop_begin (runtime 2 1) 0 0 2 idle_system)).

(** ** One thread *)

(** The steps one worker alone takes for the jobs [l] and all they lead to:
    for each job its pop, its enqueues and the return of its run. *)
Definition drain_steps (l : list job) : nat :=
  list_sum (map (fun j => (2 + length (job_spawns j))%nat) (flat_map flatten l)).

(** One queue with a team of one: the worker is at [p], the queue holds [l],
    [m_numthrs] is [nt] and [m_idle_count] is [c]. *)
Definition solo_at (p : pc) (l : list job) (nt c : Z) (s : system) : Prop :=
  exists Q w,
    queues s = [Q] /\ workers s = [w] /\
    w_queue w = 0%nat /\ w_team w = 1%nat /\ w_pc w = p /\
    m_queue Q = l /\ m_numthrs Q = nt /\ m_idle_count Q = c.

(** ** A team with nothing to run *)

(** Queue [q], the queue of every worker, holds no job, and no worker has a
    job in hand. *)
Definition nothing_to_run (q : nat) (s : system) : Prop :=
  (forall Q, queues s !! q = Some Q -> m_queue Q = []) /\
  (forall i w, workers s !! i = Some w ->
     w_queue w = q /\
     match w_pc w with PRun _ _ | PDecIdle _ => False | _ => True end).

(** ** Every fair schedule ends *)

(** The steps a pending job can still cause: its pop, the [--m_idle_count]
    if it is popped in the retry loop, its enqueues, the return of its run,
    the failed try_pop and the [++m_idle_count] that may follow; and so for
    every job it leads to. *)
Fixpoint jobcost (j : job) : nat :=
  match j with
  | Job _ spawns _ =>
      (5 + length spawns
       + list_sum (map (fun tc : nat * job => let '(_, c) := tc in jobcost c) spawns))%nat
  end.

Definition todo_cost (todo : list (nat * job)) : nat :=
  list_sum (map (fun tc : nat * job => jobcost tc.2) todo).

(** The steps a worker at [p] can still take, the turns of the retry loop
    that change nothing apart. *)
Definition pc_cost (p : pc) : nat :=
  match p with
  | PStart => 5
  | PDrainPop => 4
  | PRun _ todo => 5 + length todo + todo_cost todo
  | PIncIdle => 3
  | PRetryPop => 2
  | PCheckTerm => 2
  | PAssist => 1
  | PDecIdle j => 1 + jobcost j
  | PDone => 0
  end.

Definition queue_cost (Q : JobQueueT) : nat := list_sum (map jobcost (m_queue Q)).

Definition potential (s : system) : nat :=
  list_sum (map queue_cost (queues s))
  + list_sum (map (fun w => pc_cost (w_pc w)) (workers s)).

(** Some worker of queue [q] is about to try the queue again in the retry
    loop. *)
Definition retrying_on (q : nat) (s : system) : bool :=
  existsb (fun w => on_queue q w && match w_pc w with PRetryPop => true | _ => false end)
          (workers s).

Definition progress_measure (q : nat) (s : system) : nat :=
  2 * potential s + (if retrying_on q s then 1 else 0).

(** A stretch of a schedule in which every worker of queue [q] steps at
    least once; the other workers may step or not. *)
Definition covers_team (q : nat) (ws : list worker) (seg : list nat) : Prop :=
  forall i w, ws !! i = Some w -> w_queue w = q -> i ∈ seg.

(** A stretch in which each of the [n] workers steps at least once; a fair
    schedule is a sequence of such stretches. *)
Definition covers (n : nat) (seg : list nat) : Prop :=
  forall i, (i < n)%nat -> i ∈ seg.

(** The places of the retry loop from which a step may change nothing else. *)
Definition quiet_pc (p : pc) : bool :=
  match p with
  | PRetryPop | PCheckTerm | PDone => true
  | _ => false
  end.

(** What the proof of termination keeps: every worker has its queue, the
    counters count the idle workers, [m_numthrs] and the teams agree. *)
Definition fair_inv (s : system) : Prop :=
  Z.of_nat (length (workers s)) < 2 ^ 32 /\
  exit_inv s /\
  (forall i w, workers s !! i = Some w ->
     (exists Q, queues s !! w_queue w = Some Q) /\
     idle_inv (w_queue w) s /\
     w_team w = count_team (w_queue w) (workers s)).

(** ** Jobs that stay on their queue *)

(** Job [j], run on queue [q], enqueues on [q] only; and so for the jobs it
    enqueues. *)
Fixpoint stays (q : nat) (j : job) : bool :=
  match j with
  | Job _ spawns _ =>
      forallb (fun tc : nat * job => let '(t, c) := tc in (t =? q)%nat && stays q c) spawns
  end.

(** A group of two queues, each with a job that enqueues two more on its own
    queue; and the group as [numaLaunch] sets it off with two threads. *)
Definition two_busy_queues : system :=
  system_of
    (NumaJobQueueGroup.add_jobqueue
       (enqueue (Job 4 [(1%nat, leaf 5); (1%nat, leaf 6)] true) JobQueueT_new)
       (NumaJobQueueGroup.add_jobqueue
          (enqueue (Job 1 [(0%nat, leaf 2); (0%nat, leaf 3)] true) JobQueueT_new) [])).

Definition two_busy_launched : system :=
  foldl (fun s c => numaLoop_begin (runtime 2 2) c.1.1 c.1.2 c.2 s) two_busy_queues
    (numaLaunch_calls (runtime 2 2) 2).

(** * Contest registration (src/tools/contest.h) *)

Module Contest.

(** The class an object is an instance of at a moment of its life: while
    the constructor of a base class runs, the object is of that base class. *)
Inductive class_of : Type :=
| IsContestant
| IsContestant_UCArray
| IsContestant_UCArray_Parallel.

Record Contestant : Type := mkContestant {
  m_funcname : string;
  m_description : string;
  m_func : option string;     (* func_type, by the name of the function;
                                 None until Contestant_UCArray sets it *)
  dynamic_type : class_of
}.

(** The objects made by [new], by address, and [m_list] of the Contest
    singleton: a vector of addresses. *)
Record store : Type := mkStore {
  objects : list Contestant;
  m_list : list nat
}.

Definition with_object (this : nat) (f : Contestant -> Contestant) (st : store) : store :=
  {| objects := alter f this (objects st); m_list := m_list st |}.

(** [m_list.push_back(c)] *)
Definition register_contestant (c : nat) (st : store) : store :=
  {| objects := objects st; m_list := m_list st ++ [c] |}.

(** [new]: room for one more object, nothing set. *)
Definition allocate (st : store) : nat * store :=
  (length (objects st),
   {| objects := objects st ++ [mkContestant "" "" None IsContestant];
      m_list := m_list st |}).

(** [Contestant::Contestant]: the two names, then
    [getContestSingleton()->register_contestant(this)]. *)
Definition Contestant_ctor (this : nat) (funcname description : string) (st : store)
  : store :=
  register_contestant this
    (with_object this
       (fun o => {| m_funcname := funcname; m_description := description;
                    m_func := m_func o; dynamic_type := IsContestant |}) st).

(** [Contestant_UCArray::Contestant_UCArray]: the base class, then [m_func]. *)
Definition Contestant_UCArray_ctor (this : nat) (func funcname description : string)
    (st : store) : store :=
  with_object this
    (fun o => {| m_funcname := m_funcname o; m_description := m_description o;
                 m_func := Some func; dynamic_type := IsContestant_UCArray |})
    (Contestant_ctor this funcname description st).

(** [Contestant_UCArray_Parallel::Contestant_UCArray_Parallel]: the base
    class, nothing more. *)
Definition Contestant_UCArray_Parallel_ctor (this : nat)
    (func funcname description : string) (st : store) : store :=
  with_object this
    (fun o => {| m_funcname := m_funcname o; m_description := m_description o;
                 m_func := m_func o; dynamic_type := IsContestant_UCArray_Parallel |})
    (Contestant_UCArray_ctor this func funcname description st).

(** The two macros, each a static object made by [new] at start-up;
    [#func] is the name of [func]. *)
Inductive registration : Type :=
| CONTESTANT_REGISTER_UCARRAY (func desc : string)
| CONTESTANT_REGISTER_UCARRAY_PARALLEL (func desc : string).

Definition register (st : store) (r : registration) : store :=
  let '(this, st1) := allocate st in
  match r with
  | CONTESTANT_REGISTER_UCARRAY func desc =>
      Contestant_UCArray_ctor this func func desc st1
  | CONTESTANT_REGISTER_UCARRAY_PARALLEL func desc =>
      Contestant_UCArray_Parallel_ctor this func func desc st1
  end.

(** Start-up: the registrations in the order in which they are carried out. *)
Definition startup (rs : list registration) : store :=
  foldl register {| objects := []; m_list := [] |} rs.

(** The contestant a registration is to leave behind. *)
Definition contestant_of (r : registration) : Contestant :=
  match r with
  | CONTESTANT_REGISTER_UCARRAY func desc =>
      mkContestant func desc (Some func) IsContestant_UCArray
  | CONTESTANT_REGISTER_UCARRAY_PARALLEL func desc =>
      mkContestant func desc (Some func) IsContestant_UCArray_Parallel
  end.

End Contest.

(** * Proofs *)

(** ** The two groups are inert *)

#[export] Instance DefaultGroup_inert : InertGroup DefaultGroup.
Proof. intros qid s. reflexivity. Qed.

#[export] Instance NumaGroup_inert : InertGroup NumaGroup.
Proof. intros qid s. reflexivity. Qed.

(** ** One step, case by case *)

(** Opens [step i s] along the worker, its queue and its program counter;
    the call of [assist] is replaced by its boolean, the system being left
    alone by an inert group. *)
Ltac open_step i s w Q Hw HQ Hpc :=
  unfold executeThreadWork_step;
  destruct (workers s !! i) as [w|] eqn:Hw;
  [ destruct (queues s !! w_queue w) as [Q|] eqn:HQ;
    [ destruct (w_pc w) as [ | |j [|[t c] todo]| | | | |j| ] eqn:Hpc;
      [ | unfold try_pop; destruct (m_queue Q) as [|j rest] eqn:Hjobs
        | | | | unfold try_pop; destruct (m_queue Q) as [|j rest] eqn:Hjobs
        | destruct (m_idle_count Q =? m_numthrs Q) eqn:?
        | let b := fresh "b" in let s' := fresh "s'" in
          let Ha := fresh "Ha" in let Hi := fresh "Hi" in
          destruct (assist (m_id Q) s) as [b s'] eqn:Ha;
          pose proof (assist_inert (m_id Q) s) as Hi;
          rewrite Ha in Hi; simpl in Hi; subst s'; destruct b
        | | ]
    | ]
  | ].

Section StepFacts.
Context {G : JobQueueGroupType} {HG : InertGroup G}.

Lemma step_length_workers i s :
  length (workers (executeThreadWork_step i s)) = length (workers s).
Proof.
  open_step i s w Q Hw HQ Hpc; cbn; rewrite ?length_insert; reflexivity.
Qed.

Lemma step_length_queues i s :
  length (queues (executeThreadWork_step i s)) = length (queues s).
Proof.
  open_step i s w Q Hw HQ Hpc; cbn; rewrite ?length_alter; reflexivity.
Qed.

Lemma run_schedule_cons i l s :
  run_schedule (i :: l) s = run_schedule l (executeThreadWork_step i s).
Proof. reflexivity. Qed.

Lemma run_schedule_app l1 l2 s :
  run_schedule (l1 ++ l2) s = run_schedule l2 (run_schedule l1 s).
Proof. unfold run_schedule. apply foldl_app. Qed.

Lemma run_schedule_snoc l i s :
  run_schedule (l ++ [i]) s = executeThreadWork_step i (run_schedule l s).
Proof. rewrite run_schedule_app. reflexivity. Qed.

(** Any property kept by every step holds after every schedule. *)
Lemma run_schedule_ind (P : system -> Prop) :
  (forall i s, P s -> P (executeThreadWork_step i s)) ->
  forall sched s, P s -> P (run_schedule sched s).
Proof.
  intros Hstep sched. induction sched as [|i sched IH]; intros s Hs; cbn.
  - exact Hs.
  - apply IH, Hstep, Hs.
Qed.

(** *** Deletion follows the return value *)

Lemma step_deleted i s :
  deleted s = destroyed (runs s) ->
  deleted (executeThreadWork_step i s) = destroyed (runs (executeThreadWork_step i s)).
Proof.
  intros Hd.
  open_step i s w Q Hw HQ Hpc; cbn; try exact Hd.
  destruct (job_destroy j); cbn; congruence.
Qed.

Lemma foldl_enqueue_logs (cs : list (nat * job)) s :
  runs (foldl (fun s tc => upd_queue tc.1 (enqueue tc.2) s) s cs) = runs s /\
  deleted (foldl (fun s tc => upd_queue tc.1 (enqueue tc.2) s) s cs) = deleted s.
Proof.
  revert s. induction cs as [|c cs IH]; intros s; cbn; [split; reflexivity|].
  destruct (IH (upd_queue c.1 (enqueue c.2) s)) as [-> ->]. split; reflexivity.
Qed.

Lemma try_run_deleted q s b s' :
  try_run q s = Some (b, s') ->
  deleted s = destroyed (runs s) ->
  deleted s' = destroyed (runs s').
Proof.
  unfold try_run. intros H Hd.
  destruct (queues s !! q) as [Q|]; [|discriminate].
  unfold try_pop in H. destruct (m_queue Q) as [|j rest]; inversion H; subst; [exact Hd|].
  cbn.
  destruct (foldl_enqueue_logs (job_spawns j) (upd_queue q (fun _ => set_queue rest Q) s))
    as [-> ->].
  cbn. destruct (job_destroy j); cbn; congruence.
Qed.
End StepFacts.

(** ** Counting workers *)

Lemma count_if_length P ws : (count_if P ws <= length ws)%nat.
Proof. induction ws as [|w ws IH]; cbn; [lia|]. destruct (P w); lia. Qed.

Lemma count_if_le P P' ws :
  (forall w, P w = true -> P' w = true) -> (count_if P ws <= count_if P' ws)%nat.
Proof.
  intros H. induction ws as [|w ws IH]; cbn; [lia|].
  destruct (P w) eqn:E; [rewrite (H w E)|destruct (P' w)]; lia.
Qed.

Lemma count_if_app P ws1 ws2 :
  count_if P (ws1 ++ ws2) = (count_if P ws1 + count_if P ws2)%nat.
Proof. induction ws1 as [|w ws1 IH]; cbn; [reflexivity|]. rewrite IH. lia. Qed.

Lemma count_if_replicate P n w :
  count_if P (replicate n w) = if P w then n else O.
Proof. induction n as [|n IH]; cbn; [destruct (P w); reflexivity|]. rewrite IH. destruct (P w); lia. Qed.

Lemma count_if_lookup P ws i w :
  ws !! i = Some w -> P w = true -> (1 <= count_if P ws)%nat.
Proof.
  revert i. induction ws as [|w0 ws IH]; intros [|i] H HP; cbn in *; try discriminate.
  - injection H as ->. rewrite HP. lia.
  - specialize (IH i H HP). destruct (P w0); lia.
Qed.

Lemma count_if_none P ws :
  (forall i w, ws !! i = Some w -> P w = false) -> count_if P ws = O.
Proof.
  induction ws as [|w0 ws IH]; intros H; cbn; [reflexivity|].
  rewrite (H O w0 eq_refl). rewrite IH; [reflexivity|].
  intros i w Hi. exact (H (S i) w Hi).
Qed.

(** Replacing one worker moves the count by the difference of the two. *)
Lemma count_if_insert P ws i w w' :
  ws !! i = Some w ->
  Z.of_nat (count_if P (<[i:=w']> ws)) =
  Z.of_nat (count_if P ws) - Z.b2z (P w) + Z.b2z (P w').
Proof.
  revert i. induction ws as [|w0 ws IH]; intros [|i] H; cbn in H; try discriminate.
  - injection H as ->. change (<[O:=w']> (w :: ws)) with (w' :: ws).
    cbn [count_if]. rewrite !Nat2Z.inj_add. destruct (P w), (P w'); cbn; lia.
  - specialize (IH i H). change (<[S i:=w']> (w0 :: ws)) with (w0 :: <[i:=w']> ws).
    cbn [count_if]. rewrite !Nat2Z.inj_add, IH. lia.
Qed.

Lemma count_if_insert_same P ws i w w' :
  ws !! i = Some w -> P w' = P w -> count_if P (<[i:=w']> ws) = count_if P ws.
Proof.
  intros H E. apply Nat2Z.inj. rewrite (count_if_insert P ws i w w' H), E. lia.
Qed.

Lemma on_queue_at_pc q p o w : on_queue q (at_pc p o w) = on_queue q w.
Proof. reflexivity. Qed.

Lemma on_queue_true q w : on_queue q w = true <-> w_queue w = q.
Proof. unfold on_queue. apply Nat.eqb_eq. Qed.

Lemma on_queue_self w : on_queue (w_queue w) w = true.
Proof. apply on_queue_true. reflexivity. Qed.

(** ** The idle counter *)

Lemma lookup_alter_Some {A} (f : A -> A) (l : list A) i j y :
  alter f i l !! j = Some y ->
  exists x, l !! j = Some x /\ y = if decide (i = j) then f x else x.
Proof.
  rewrite list_lookup_alter. case_decide as E.
  - subst. destruct (l !! j) as [x|]; cbn; [|discriminate].
    intros [= <-]. eauto.
  - eauto.
Qed.

Lemma to_unsigned_small z : 0 <= z < 2 ^ 32 -> to_unsigned z = z.
Proof. intros. unfold to_unsigned. apply Z.mod_small. assumption. Qed.

Lemma count_idle_room ws i w :
  ws !! i = Some w -> is_idle (w_pc w) = false ->
  (count_idle (w_queue w) ws < length ws)%nat.
Proof.
  intros Hw Hidle.
  pose proof (count_if_insert (fun w0 => on_queue (w_queue w) w0 && is_idle (w_pc w0))
                ws i w (at_pc PDone [] w) Hw) as E.
  pose proof (count_if_length (fun w0 => on_queue (w_queue w) w0 && is_idle (w_pc w0))
                (<[i:=at_pc PDone [] w]> ws)) as L.
  rewrite length_insert in L. cbn beta in E.
  rewrite on_queue_at_pc, on_queue_self, Hidle in E. cbn in E.
  unfold count_idle. lia.
Qed.

Lemma count_idle_pos ws i w :
  ws !! i = Some w -> is_idle (w_pc w) = true ->
  (1 <= count_idle (w_queue w) ws)%nat.
Proof.
  intros Hw Hidle. apply (count_if_lookup _ ws i w Hw).
  rewrite on_queue_self, Hidle. reflexivity.
Qed.

Lemma count_idle_team q ws : (count_idle q ws <= count_team q ws)%nat.
Proof.
  apply count_if_le. intros w H. apply andb_true_iff in H. tauto.
Qed.

(** How the invariant moves along: worker [i] changes its idleness by [d],
    and so does the counter of its queue; nothing else changes. *)
Lemma idle_inv_step q s s' i w w' (d : Z) :
  workers s !! i = Some w ->
  workers s' = <[i:=w']> (workers s) ->
  w_queue w' = w_queue w ->
  Z.b2z (is_idle (w_pc w')) = Z.b2z (is_idle (w_pc w)) + d ->
  (forall Q', queues s' !! q = Some Q' ->
     exists Q, queues s !! q = Some Q /\
       m_idle_count Q' = m_idle_count Q + (if decide (w_queue w = q) then d else 0)) ->
  idle_inv q s -> idle_inv q s'.
Proof.
  intros Hw Hws Hq Hd Hqs Hinv Q' HQ'.
  destruct (Hqs Q' HQ') as (Q & HQ & ->).
  rewrite (Hinv Q HQ), Hws. unfold count_idle.
  rewrite (count_if_insert _ _ _ _ _ Hw). cbn beta.
  unfold on_queue. rewrite Hq.
  case_decide as E.
  - subst q. rewrite Nat.eqb_refl. cbn [andb]. lia.
  - apply Nat.eqb_neq in E. rewrite E. cbn. lia.
Qed.

(** A queue update that leaves the counters alone. *)
Lemma alter_keeps_idle (f : JobQueueT -> JobQueueT) (t : nat) (qs : list JobQueueT)
    (q : nat) Q' :
  (forall Q, m_idle_count (f Q) = m_idle_count Q) ->
  alter f t qs !! q = Some Q' ->
  exists Q, qs !! q = Some Q /\ m_idle_count Q' = m_idle_count Q + 0.
Proof.
  intros Hf H. apply lookup_alter_Some in H. destruct H as (Q & HQ & ->).
  exists Q. split; [exact HQ|]. case_decide; rewrite ?Hf; lia.
Qed.

Lemma alter_const_keeps_idle (t : nat) (qs : list JobQueueT) (q : nat) Q Q1 Q' :
  qs !! t = Some Q -> m_idle_count Q1 = m_idle_count Q ->
  alter (fun _ => Q1) t qs !! q = Some Q' ->
  exists Q0, qs !! q = Some Q0 /\ m_idle_count Q' = m_idle_count Q0 + 0.
Proof.
  intros Ht E H. apply lookup_alter_Some in H. destruct H as (Q0 & HQ0 & ->).
  exists Q0. split; [exact HQ0|]. case_decide; [|lia].
  subst q. rewrite Ht in HQ0. injection HQ0 as <-. lia.
Qed.

Lemma keeps_idle (qs : list JobQueueT) (q : nat) (Q' : JobQueueT) :
  qs !! q = Some Q' ->
  exists Q, qs !! q = Some Q /\ m_idle_count Q' = m_idle_count Q + 0.
Proof. intros H. exists Q'. split; [exact H|lia]. Qed.

Section IdleCounter.
Context {G : JobQueueGroupType} {HG : InertGroup G}.

Lemma step_idle_inv q i s :
  Z.of_nat (length (workers s)) < 2 ^ 32 ->
  idle_inv q s -> idle_inv q (executeThreadWork_step i s).
Proof.
  intros Hlen Hinv.
  open_step i s w Q Hw HQ Hpc; try exact Hinv.
  (* every step but the increment and the decrement *)
  all: try (eapply (idle_inv_step q s _ i w _ 0 Hw);
            [ reflexivity | reflexivity
            | cbn; rewrite Hpc; reflexivity
            | cbn; intros Q' HQ';
              first [ apply alter_keeps_idle in HQ'; [|reflexivity]
                    | apply (alter_const_keeps_idle _ _ _ Q _ _ HQ) in HQ'; [|reflexivity]
                    | apply keeps_idle in HQ' ];
              destruct HQ' as (Q0 & HQ0 & ->); exists Q0;
              split; [exact HQ0|case_decide; reflexivity]
            | exact Hinv ]).
  - (* ++m_idle_count *)
    eapply (idle_inv_step q s _ i w _ 1 Hw);
      [reflexivity|reflexivity|cbn; rewrite Hpc; reflexivity| |exact Hinv].
    cbn. intros Q' HQ'. apply lookup_alter_Some in HQ'.
    destruct HQ' as (Q0 & HQ0 & ->). exists Q0. split; [exact HQ0|].
    case_decide as E; [|lia]. subst q. rewrite HQ in HQ0. injection HQ0 as <-.
    cbn. rewrite (Hinv _ HQ).
    pose proof (count_idle_room _ _ _ Hw) as R. rewrite Hpc in R. specialize (R eq_refl).
    apply to_unsigned_small. lia.
  - (* --m_idle_count *)
    eapply (idle_inv_step q s _ i w _ (-1) Hw);
      [reflexivity|reflexivity|cbn; rewrite Hpc; reflexivity| |exact Hinv].
    cbn. intros Q' HQ'. apply lookup_alter_Some in HQ'.
    destruct HQ' as (Q0 & HQ0 & ->). exists Q0. split; [exact HQ0|].
    case_decide as E; [|lia]. subst q. rewrite HQ in HQ0. injection HQ0 as <-.
    cbn. rewrite (Hinv _ HQ).
    pose proof (count_idle_pos _ _ _ Hw) as R. rewrite Hpc in R. specialize (R eq_refl).
    pose proof (count_if_length (fun w0 => on_queue (w_queue w) w0 && is_idle (w_pc w0))
                  (workers s)) as L.
    unfold count_idle in *.
    rewrite to_unsigned_small; lia.
Qed.
End IdleCounter.

(** ** The way out of the worker loop *)

Lemma alter_keeps {A} (proj : JobQueueT -> A) (f : JobQueueT -> JobQueueT)
    (t : nat) (qs : list JobQueueT) (q : nat) Q' :
  (forall Q, proj (f Q) = proj Q) ->
  alter f t qs !! q = Some Q' ->
  exists Q, qs !! q = Some Q /\ proj Q' = proj Q.
Proof.
  intros Hf H. apply lookup_alter_Some in H. destruct H as (Q & HQ & ->).
  exists Q. split; [exact HQ|]. case_decide; rewrite ?Hf; reflexivity.
Qed.

Lemma alter_const_keeps {A} (proj : JobQueueT -> A)
    (t : nat) (qs : list JobQueueT) (q : nat) Q Q1 Q' :
  qs !! t = Some Q -> proj Q1 = proj Q ->
  alter (fun _ => Q1) t qs !! q = Some Q' ->
  exists Q0, qs !! q = Some Q0 /\ proj Q' = proj Q0.
Proof.
  intros Ht E H. apply lookup_alter_Some in H. destruct H as (Q0 & HQ0 & ->).
  exists Q0. split; [exact HQ0|]. case_decide; [|reflexivity].
  subst q. rewrite Ht in HQ0. injection HQ0 as <-. exact E.
Qed.

(** After a step a worker is who it was, unless it is the one that stepped. *)
Lemma insert_lookup_cases (ws : list worker) i k w' wk :
  <[i:=w']> ws !! k = Some wk ->
  (k = i /\ wk = w') \/ (k <> i /\ ws !! k = Some wk).
Proof.
  intros H. apply list_lookup_insert_Some in H.
  destruct H as [(-> & <- & _)|(Hne & H)]; [left|right]; auto.
Qed.

Lemma uniform_teams_step s s' i w w' :
  workers s !! i = Some w ->
  workers s' = <[i:=w']> (workers s) ->
  w_queue w' = w_queue w -> w_team w' = w_team w ->
  uniform_teams s -> uniform_teams s'.
Proof.
  intros Hw Hws Hq Ht Hu a b wa wb Ha Hb.
  rewrite Hws in Ha, Hb.
  apply insert_lookup_cases in Ha, Hb.
  destruct Ha as [(-> & ->)|(_ & Ha)], Hb as [(-> & ->)|(_ & Hb)];
    rewrite ?Hq, ?Ht; eauto.
Qed.

Lemma numthrs_inv_step s s' i w w' :
  workers s !! i = Some w ->
  workers s' = <[i:=w']> (workers s) ->
  w_queue w' = w_queue w -> w_team w' = w_team w ->
  (w_pc w = PStart -> w_pc w' <> PStart ->
   forall Q', queues s' !! w_queue w = Some Q' -> m_numthrs Q' = team_N w) ->
  (forall q Q', queues s' !! q = Some Q' ->
     exists Q, queues s !! q = Some Q /\
       (m_numthrs Q' = m_numthrs Q \/ (w_queue w = q /\ m_numthrs Q' = team_N w))) ->
  uniform_teams s -> numthrs_inv s -> numthrs_inv s'.
Proof.
  intros Hw Hws Hq Ht Hstart Hqs Hu Hinv k wk Q' Hk HQ' Hpc.
  rewrite Hws in Hk. apply insert_lookup_cases in Hk.
  destruct Hk as [(-> & ->)|(Hne & Hk)].
  - rewrite Hq in HQ'. unfold team_N. rewrite Ht. fold (team_N w).
    destruct (Hqs _ _ HQ') as (Q0 & HQ0 & [E|[_ E]]); [|exact E].
    destruct (w_pc w) eqn:Hpcw; try (rewrite E; apply (Hinv i w Q0 Hw HQ0); congruence).
    apply Hstart; auto.
  - destruct (Hqs _ _ HQ') as (Q0 & HQ0 & [E|[Eq E]]).
    + rewrite E. apply (Hinv k wk Q0 Hk HQ0 Hpc).
    + rewrite E. unfold team_N. rewrite (Hu i k w wk Hw Hk Eq). reflexivity.
Qed.

Lemma trace_inv_step s s' i w w' :
  workers s !! i = Some w ->
  workers s' = <[i:=w']> (workers s) ->
  trace_ok w' -> trace_inv s -> trace_inv s'.
Proof.
  intros Hw Hws Hok Hinv k wk Hk.
  rewrite Hws in Hk. apply insert_lookup_cases in Hk.
  destruct Hk as [(-> & ->)|(Hne & Hk)]; eauto.
Qed.

Section ExitPath.
Context {G : JobQueueGroupType} {HG : InertGroup G}.

Lemma step_uniform_teams i s :
  uniform_teams s -> uniform_teams (executeThreadWork_step i s).
Proof.
  intros Hu.
  open_step i s w Q Hw HQ Hpc; try exact Hu;
    (eapply (uniform_teams_step s _ i w _ Hw); [reflexivity..|exact Hu]).
Qed.

Lemma step_numthrs_inv i s :
  uniform_teams s -> numthrs_inv s -> numthrs_inv (executeThreadWork_step i s).
Proof.
  intros Hu Hinv.
  open_step i s w Q Hw HQ Hpc; try exact Hinv;
    (eapply (numthrs_inv_step s _ i w _ Hw);
     [reflexivity|reflexivity|reflexivity| | |exact Hu|exact Hinv]).
  all: try (intros E; rewrite Hpc in E; discriminate E).
  all: try (cbn; intros q Q' HQ';
            first [ apply (alter_keeps m_numthrs) in HQ'; [|reflexivity]
                  | apply (alter_const_keeps m_numthrs _ _ _ Q _ _ HQ) in HQ';
                    [|reflexivity]
                  | idtac ];
            first [ destruct HQ' as (Q0 & HQ0 & E); exists Q0; split; [exact HQ0|left; exact E]
                  | exists Q'; split; [exact HQ'|left; reflexivity] ]).
  - (* m_numthrs = omp_get_num_threads() *)
    cbn. intros _ _ Q' HQ'. rewrite list_lookup_alter_eq, HQ in HQ'.
    injection HQ' as <-. reflexivity.
  - cbn. intros q Q' HQ'. apply lookup_alter_Some in HQ'.
    destruct HQ' as (Q0 & HQ0 & ->). exists Q0. split; [exact HQ0|].
    case_decide; [right; split; [assumption|reflexivity]|left; reflexivity].
Qed.

Lemma step_trace_inv i s :
  numthrs_inv s -> trace_inv s -> trace_inv (executeThreadWork_step i s).
Proof.
  intros Hn Hinv.
  open_step i s w Q Hw HQ Hpc; try exact Hinv;
    (eapply (trace_inv_step s _ i w _ Hw); [reflexivity| |exact Hinv]);
    pose proof (Hinv i w Hw) as Hok; unfold trace_ok in *;
    rewrite Hpc in Hok; cbn; try exact I.
  - (* the retry loop: try_pop failed *)
    eexists. reflexivity.
  - (* m_idle_count == m_numthrs *)
    destruct Hok as [pre ->].
    assert (m_numthrs Q = team_N w) as En
      by (apply (Hn i w Q Hw HQ); rewrite Hpc; discriminate).
    assert (m_idle_count Q = team_N w) as Ei by (rewrite <- En; lia).
    exists O, pre. cbn. rewrite Ei, En. reflexivity.
  - (* assist said true *)
    destruct Hok as (k & pre & ->). exists (S k), pre. reflexivity.
  - (* assist said false *)
    destruct Hok as (k & pre & ->). exists k, pre. reflexivity.
Qed.

Lemma step_exit_inv i s : exit_inv s -> exit_inv (executeThreadWork_step i s).
Proof.
  intros (Hu & Hn & Ht). split; [|split].
  - apply step_uniform_teams, Hu.
  - apply step_numthrs_inv; assumption.
  - apply step_trace_inv; assumption.
Qed.
End ExitPath.

(** ** Draining the queue *)

Lemma confined_spawns q home j t c :
  confined q home j = true -> (t, c) ∈ job_spawns j ->
  (t = q -> home = q) /\ confined q t c = true.
Proof.
  destruct j as [p spawns b]. cbn [confined job_spawns]. intros H Hin.
  rewrite forallb_forall in H. apply list_elem_of_In in Hin.
  specialize (H _ Hin). cbn in H. apply andb_true_iff in H. destruct H as [H1 H2].
  split; [|exact H2]. intros ->. rewrite Nat.eqb_refl in H1. cbn in H1.
  apply Nat.eqb_eq in H1. exact H1.
Qed.

Lemma queues_confined_step q (qs qs' : list JobQueueT) :
  (forall q' Q', qs' !! q' = Some Q' ->
     exists Q, qs !! q' = Some Q /\
       forall j, j ∈ m_queue Q' -> j ∈ m_queue Q \/ confined q q' j = true) ->
  queues_confined q qs -> queues_confined q qs'.
Proof.
  intros H Hc q' Q' j HQ' Hj.
  destruct (H q' Q' HQ') as (Q & HQ & Hsub).
  destruct (Hsub j Hj) as [Hin|Hok]; [exact (Hc q' Q j HQ Hin)|exact Hok].
Qed.

Lemma jobs_confined_step q s s' i w w' :
  workers s !! i = Some w ->
  workers s' = <[i:=w']> (workers s) ->
  worker_confined q w' ->
  (forall q' Q', queues s' !! q' = Some Q' ->
     exists Q, queues s !! q' = Some Q /\
       forall j, j ∈ m_queue Q' -> j ∈ m_queue Q \/ confined q q' j = true) ->
  jobs_confined q s -> jobs_confined q s'.
Proof.
  intros Hw Hws Hok Hqs [Hq Hwk]. split.
  - exact (queues_confined_step q _ _ Hqs Hq).
  - intros k wk Hk. rewrite Hws in Hk. apply insert_lookup_cases in Hk.
    destruct Hk as [(-> & ->)|(_ & Hk)]; eauto.
Qed.

Lemma drain_inv_step q s s' i w w' :
  workers s !! i = Some w ->
  workers s' = <[i:=w']> (workers s) ->
  w_queue w' = w_queue w ->
  (w_queue w = q -> post_pop (w_pc w') = true ->
   post_pop (w_pc w) = true \/ forall Q, queues s !! q = Some Q -> m_queue Q = []) ->
  ((w_queue w = q -> post_pop (w_pc w') = true) ->
   forall Q', queues s' !! q = Some Q' ->
     exists Q, queues s !! q = Some Q /\ m_queue Q' = m_queue Q) ->
  drain_inv q s -> drain_inv q s'.
Proof.
  intros Hw Hws Hq H1 H2 Hinv Hfin Q' HQ'.
  assert (w_queue w = q -> post_pop (w_pc w') = true) as Hpost.
  { intros E. apply (Hfin i w').
    - rewrite Hws. apply list_lookup_insert_eq. eapply lookup_lt_Some, Hw.
    - rewrite Hq. exact E. }
  destruct (H2 Hpost Q' HQ') as (Q & HQ & ->).
  assert (forall k wk, k <> i -> workers s !! k = Some wk -> w_queue wk = q ->
                       post_pop (w_pc wk) = true) as Hothers.
  { intros k wk Hne Hk. apply (Hfin k wk). rewrite Hws.
    rewrite list_lookup_insert_ne; [exact Hk|congruence]. }
  destruct (decide (w_queue w = q)) as [E|E].
  - destruct (H1 E (Hpost E)) as [Hold|Hempty]; [|exact (Hempty Q HQ)].
    apply Hinv; [|exact HQ]. intros k wk Hk Hkq.
    destruct (decide (k = i)) as [->|Hne].
    + rewrite Hw in Hk. injection Hk as <-. exact Hold.
    + exact (Hothers k wk Hne Hk Hkq).
  - apply Hinv; [|exact HQ]. intros k wk Hk Hkq.
    destruct (decide (k = i)) as [->|Hne].
    + rewrite Hw in Hk. injection Hk as <-. contradiction.
    + exact (Hothers k wk Hne Hk Hkq).
Qed.

Lemma same_jobs (qs : list JobQueueT) (q q' : nat) (Q' : JobQueueT) :
  qs !! q' = Some Q' ->
  exists Q, qs !! q' = Some Q /\
    forall j, j ∈ m_queue Q' -> j ∈ m_queue Q \/ confined q q' j = true.
Proof. intros H. exists Q'. split; [exact H|]. intros j Hj. left. exact Hj. Qed.

Lemma alter_same_jobs (f : JobQueueT -> JobQueueT) (t : nat) (qs : list JobQueueT)
    (q q' : nat) (Q' : JobQueueT) :
  (forall Q, m_queue (f Q) = m_queue Q) ->
  alter f t qs !! q' = Some Q' ->
  exists Q, qs !! q' = Some Q /\
    forall j, j ∈ m_queue Q' -> j ∈ m_queue Q \/ confined q q' j = true.
Proof.
  intros Hf H. apply (alter_keeps m_queue) in H; [|exact Hf].
  destruct H as (Q & HQ & E). exists Q. split; [exact HQ|].
  intros j Hj. left. rewrite <- E. exact Hj.
Qed.

Lemma pop_same_jobs (t : nat) (qs : list JobQueueT) (q q' : nat) Q j0 rest Q' :
  qs !! t = Some Q -> m_queue Q = j0 :: rest ->
  alter (fun _ => set_queue rest Q) t qs !! q' = Some Q' ->
  exists Q0, qs !! q' = Some Q0 /\
    forall j, j ∈ m_queue Q' -> j ∈ m_queue Q0 \/ confined q q' j = true.
Proof.
  intros Ht Hq H. apply lookup_alter_Some in H. destruct H as (Q0 & HQ0 & ->).
  exists Q0. split; [exact HQ0|]. intros j Hj. left.
  case_decide as E; [|exact Hj]. subst q'. rewrite Ht in HQ0. injection HQ0 as <-.
  cbn in Hj. rewrite Hq. apply elem_of_cons. right. exact Hj.
Qed.

Lemma enqueue_same_jobs (t : nat) (qs : list JobQueueT) (q q' : nat) c Q' :
  confined q t c = true ->
  alter (enqueue c) t qs !! q' = Some Q' ->
  exists Q0, qs !! q' = Some Q0 /\
    forall j, j ∈ m_queue Q' -> j ∈ m_queue Q0 \/ confined q q' j = true.
Proof.
  intros Hc H. apply lookup_alter_Some in H. destruct H as (Q0 & HQ0 & ->).
  exists Q0. split; [exact HQ0|]. intros j Hj.
  case_decide as E; [|left; exact Hj]. subst q'. cbn in Hj.
  apply elem_of_app in Hj. destruct Hj as [Hj|Hj]; [left; exact Hj|].
  apply list_elem_of_singleton in Hj. subst j. right. exact Hc.
Qed.

Section Drain.
Context {G : JobQueueGroupType} {HG : InertGroup G}.

Lemma step_jobs_confined q i s :
  jobs_confined q s -> jobs_confined q (executeThreadWork_step i s).
Proof.
  intros Hc. pose proof Hc as [Hqc Hwc].
  open_step i s w Q Hw HQ Hpc; try exact Hc;
    pose proof (Hwc i w Hw) as Hok; unfold worker_confined in Hok; rewrite Hpc in Hok;
    (eapply (jobs_confined_step q s _ i w _ Hw); [reflexivity| | |exact Hc]);
    try exact I.
  all: try (cbn; intros q' Q' HQ';
            first [ apply (alter_same_jobs _ _ _ q) in HQ'; [exact HQ'|reflexivity]
                  | apply (same_jobs _ q) in HQ'; exact HQ' ]).
  - (* a job popped in the drain loop *)
    unfold worker_confined. cbn. intros t c Hin.
    apply (confined_spawns q (w_queue w) j t c); [|exact Hin].
    apply (Hqc _ Q j HQ). rewrite Hjobs. apply elem_of_cons. left. reflexivity.
  - cbn. intros q' Q' HQ'. eapply pop_same_jobs; eauto.
  - (* run enqueues *)
    unfold worker_confined. cbn. intros t' c' Hin. apply Hok.
    apply elem_of_cons. right. exact Hin.
  - cbn. intros q' Q' HQ'. eapply enqueue_same_jobs; [|exact HQ'].
    apply (Hok t c). apply elem_of_cons. left. reflexivity.
  - (* a job popped in the retry loop *)
    unfold worker_confined. cbn.
    apply (Hqc _ Q j HQ). rewrite Hjobs. apply elem_of_cons. left. reflexivity.
  - cbn. intros q' Q' HQ'. eapply pop_same_jobs; eauto.
  - (* the popped job starts to run *)
    unfold worker_confined. cbn. intros t c Hin.
    apply (confined_spawns q (w_queue w) j t c); assumption.
Qed.

Lemma step_drain_inv q i s :
  jobs_confined q s -> drain_inv q s -> drain_inv q (executeThreadWork_step i s).
Proof.
  intros [Hqc Hwc] Hinv.
  open_step i s w Q Hw HQ Hpc; try exact Hinv;
    pose proof (Hwc i w Hw) as Hok; unfold worker_confined in Hok; rewrite Hpc in Hok;
    (eapply (drain_inv_step q s _ i w _ Hw); [reflexivity|reflexivity| | |exact Hinv]).
  (* the worker that stepped: either not past its last try_pop, or it was
     already, or its try_pop has just found the queue empty *)
  all: try (cbn; rewrite ?Hpc; intros E Hp;
            first [ discriminate Hp
                  | left; reflexivity
                  | right; intros Q0 HQ0; subst q; rewrite HQ in HQ0;
                    injection HQ0 as <-; assumption ]).
  (* the jobs of queue q *)
  all: cbn; intros Hpost Q' HQ'.
  all: try (first [ apply (alter_keeps m_queue) in HQ'; [exact HQ'|reflexivity]
                  | exists Q'; split; [exact HQ'|reflexivity] ]).
  all: destruct (decide (w_queue w = q)) as [E|E]; [discriminate (Hpost E)|].
  - rewrite list_lookup_alter_ne in HQ' by exact E. eauto.
  - assert (t <> q) as Hn.
    { intros ->. apply E. apply (Hok q c); [|reflexivity].
      apply elem_of_cons. left. reflexivity. }
    rewrite list_lookup_alter_ne in HQ' by exact Hn. eauto.
  - rewrite list_lookup_alter_ne in HQ' by exact E. eauto.
Qed.
End Drain.

(** ** The distribution of the threads *)

Lemma calcThreadNum_value env k K :
  1 <= K <= omp_get_max_threads env -> omp_get_max_threads env < 2 ^ 31 ->
  calcThreadNum env k K =
    Some (omp_get_max_threads env / K
          + (if k <? omp_get_max_threads env mod K then 1 else 0)).
Proof.
  intros HK HT. unfold calcThreadNum.
  destruct (K =? 0) eqn:E; [lia|].
  rewrite Z.quot_div_nonneg, Z.rem_mod_nonneg by lia.
  assert (0 <= omp_get_max_threads env / K <= omp_get_max_threads env).
  { split; [apply Z.div_pos; lia|]. apply Z.div_le_upper_bound; nia. }
  destruct (k <? omp_get_max_threads env mod K); rewrite to_unsigned_small; try lia;
    f_equal; lia.
Qed.

Lemma calcThreadNum_partial_sum env K (n : nat) acc :
  1 <= K <= omp_get_max_threads env -> omp_get_max_threads env < 2 ^ 31 ->
  foldr (fun k acc =>
           match calcThreadNum env (Z.of_nat k) K, acc with
           | Some c, Some a => Some (c + a)
           | _, _ => None
           end)
        (Some acc) (seq 0 n)
  = Some (acc + Z.of_nat n * (omp_get_max_threads env / K)
          + Z.min (Z.of_nat n) (omp_get_max_threads env mod K)).
Proof.
  intros HK HT. revert acc. induction n as [|n IH]; intros acc.
  - cbn. pose proof (Z.mod_pos_bound (omp_get_max_threads env) K). f_equal. lia.
  - rewrite seq_S, foldr_app. cbn [foldr plus].
    rewrite (calcThreadNum_value env (Z.of_nat n) K HK HT), IH. f_equal.
    destruct (Z.of_nat n <? omp_get_max_threads env mod K) eqn:E; lia.
Qed.

(** ** The state a launch starts from *)

Lemma launched_nil s : workers s = [] -> launched s.
Proof. intros E i w H. rewrite E in H. discriminate H. Qed.

Lemma count_team_zero q (ws : list worker) i w :
  count_team q ws = O -> ws !! i = Some w -> w_queue w <> q.
Proof.
  intros Hz Hw Hq.
  pose proof (count_if_lookup (on_queue q) ws i w Hw) as H.
  rewrite (proj2 (on_queue_true q w) Hq) in H. specialize (H eq_refl).
  unfold count_team in Hz. lia.
Qed.

Lemma count_if_witness P ws :
  (1 <= count_if P ws)%nat -> exists i w, ws !! i = Some w /\ P w = true.
Proof.
  induction ws as [|w0 ws IH]; cbn; [lia|].
  destruct (P w0) eqn:E; intros H.
  - exists O, w0. split; [reflexivity|exact E].
  - destruct IH as (i & w & Hi & Hw); [lia|]. exists (S i), w. split; assumption.
Qed.

Lemma omp_parallel_launched q node n s :
  launched s -> count_team q (workers s) = O -> launched (omp_parallel q node n s).
Proof.
  intros Hl Hz i w Hi. cbn in Hi |- *.
  unfold count_team. rewrite count_if_app, count_if_replicate.
  apply lookup_app_Some in Hi. destruct Hi as [Hi|[_ Hi]].
  - destruct (Hl i w Hi) as (Hpc & Htr & Hteam).
    split; [exact Hpc|]. split; [exact Htr|].
    pose proof (count_team_zero q _ i w Hz Hi) as Hne.
    match goal with |- context [on_queue ?a ?b] => destruct (on_queue a b) eqn:E end.
    + apply on_queue_true in E. cbn in E. congruence.
    + rewrite Hteam. unfold count_team. lia.
  - apply lookup_replicate in Hi. destruct Hi as [-> _]. cbn.
    split; [reflexivity|]. split; [reflexivity|].
    rewrite Nat.eqb_refl. fold (count_team q (workers s)). rewrite Hz. reflexivity.
Qed.

Lemma loop_begin_launched env q s : workers s = [] -> launched (loop_begin env q s).
Proof.
  intros E. unfold loop_begin. apply omp_parallel_launched.
  - apply launched_nil. exact E.
  - cbn. rewrite E. reflexivity.
Qed.

Lemma numaLoop_begin_launched env q node n s :
  workers s = [] -> launched (numaLoop_begin env q node n s).
Proof.
  intros E. unfold numaLoop_begin. apply omp_parallel_launched.
  - apply launched_nil. exact E.
  - rewrite E. reflexivity.
Qed.

(** The teams of the iterations [start], [start+1], ... of [numaLaunch]. *)
Lemma numaLaunch_teams_launched env K len : forall start s,
  launched s ->
  (forall q, (start <= q)%nat -> count_team q (workers s) = O) ->
  launched (foldl (fun s c => numaLoop_begin env c.1.1 c.1.2 c.2 s) s
              (map (numaLaunch_call env K) (seq start len))).
Proof.
  induction len as [|len IH]; intros start s Hl Hz; cbn [seq map foldl].
  - exact Hl.
  - apply IH.
    + apply omp_parallel_launched; [exact Hl|]. apply Hz. cbn. lia.
    + intros q Hq. cbn. unfold count_team. rewrite count_if_app, count_if_replicate.
      fold (count_team q (workers s)). rewrite (Hz q) by lia.
      unfold on_queue. cbn. destruct (start =? q)%nat eqn:E; [|reflexivity].
      apply Nat.eqb_eq in E. lia.
Qed.

Lemma numaLaunch_begin_launched env s s1 :
  workers s = [] -> numaLaunch_begin env s = Some s1 -> launched s1.
Proof.
  unfold numaLaunch_begin. intros E H.
  destruct (Z.of_nat (length (queues s)) =? 0); [discriminate|].
  injection H as <-. apply numaLaunch_teams_launched.
  - apply launched_nil. exact E.
  - intros q _. rewrite E. reflexivity.
Qed.

(** *** What holds when a launch starts *)

Lemma launched_exit_inv s : launched s -> exit_inv s.
Proof.
  intros Hl. split; [|split].
  - intros i k w w' Hi Hk Hq.
    destruct (Hl i w Hi) as (_ & _ & ->), (Hl k w' Hk) as (_ & _ & ->).
    rewrite Hq. reflexivity.
  - intros i w Q Hi _ Hpc. destruct (Hl i w Hi) as (E & _). contradiction.
  - intros i w Hi. destruct (Hl i w Hi) as (E & _). unfold trace_ok. rewrite E. exact I.
Qed.

Lemma launched_idle_inv q s :
  launched s ->
  (forall Q, queues s !! q = Some Q -> m_idle_count Q = 0) ->
  idle_inv q s.
Proof.
  intros Hl Hz Q HQ. rewrite (Hz Q HQ). unfold count_idle.
  rewrite count_if_none; [reflexivity|].
  intros i w Hi. destruct (Hl i w Hi) as (E & _). rewrite E. apply andb_false_r.
Qed.

Lemma launched_drain_inv q s :
  launched s -> (1 <= count_team q (workers s))%nat -> drain_inv q s.
Proof.
  intros Hl Hteam Hfin. exfalso.
  destruct (count_if_witness _ _ Hteam) as (i & w & Hi & Hq).
  apply on_queue_true in Hq.
  specialize (Hfin i w Hi Hq). destruct (Hl i w Hi) as (E & _).
  rewrite E in Hfin. discriminate Hfin.
Qed.

Lemma launched_jobs_confined q s :
  launched s -> isolated q s -> jobs_confined q s.
Proof.
  intros Hl Hq. split.
  - exact Hq.
  - intros i w Hi. destruct (Hl i w Hi) as (E & _).
    unfold worker_confined. rewrite E. exact I.
Qed.

(** ** Executions *)

Lemma launch_state_launched env s0 s1 : launch_state env s0 s1 -> launched s1.
Proof.
  intros [E [[q ->]|[(q & node & n & ->)|H]]].
  - apply loop_begin_launched, E.
  - apply numaLoop_begin_launched, E.
  - exact (numaLaunch_begin_launched env s0 s1 E H).
Qed.

Section Executions.
Context {G : JobQueueGroupType} {HG : InertGroup G}.

(** The queue, the team and the node of a worker never change. *)
Lemma step_static i k s w' :
  workers (executeThreadWork_step i s) !! k = Some w' ->
  exists w, workers s !! k = Some w /\
    w_queue w = w_queue w' /\ w_team w = w_team w' /\ w_node w = w_node w'.
Proof.
  open_step i s w Q Hw HQ Hpc; cbn; intros Hk; eauto;
    apply insert_lookup_cases in Hk;
    destruct Hk as [(-> & ->)|(_ & Hk)]; eauto.
Qed.

Lemma run_static sched : forall s k w',
  workers (run_schedule sched s) !! k = Some w' ->
  exists w, workers s !! k = Some w /\
    w_queue w = w_queue w' /\ w_team w = w_team w' /\ w_node w = w_node w'.
Proof.
  induction sched as [|i sched IH]; intros s k w' Hk.
  - eauto.
  - rewrite run_schedule_cons in Hk. destruct (IH _ _ _ Hk) as (w1 & H1 & E1 & E2 & E3).
    destruct (step_static _ _ _ _ H1) as (w0 & H0 & F1 & F2 & F3).
    exists w0. repeat split; congruence.
Qed.

Lemma step_count_team q i s :
  count_team q (workers (executeThreadWork_step i s)) = count_team q (workers s).
Proof.
  open_step i s w Q Hw HQ Hpc; cbn; try reflexivity;
    apply (count_if_insert_same _ _ _ w _ Hw); reflexivity.
Qed.

Lemma run_count_team q sched s :
  count_team q (workers (run_schedule sched s)) = count_team q (workers s).
Proof.
  revert s. induction sched as [|i sched IH]; intros s; [reflexivity|].
  rewrite run_schedule_cons, IH. apply step_count_team.
Qed.

Lemma run_length_workers sched s :
  length (workers (run_schedule sched s)) = length (workers s).
Proof.
  revert s. induction sched as [|i sched IH]; intros s; [reflexivity|].
  rewrite run_schedule_cons, IH. apply step_length_workers.
Qed.

Lemma run_exit_inv sched s : exit_inv s -> exit_inv (run_schedule sched s).
Proof. apply run_schedule_ind. intros i s'. apply step_exit_inv. Qed.

Lemma run_idle_inv q sched s :
  Z.of_nat (length (workers s)) < 2 ^ 32 ->
  idle_inv q s -> idle_inv q (run_schedule sched s).
Proof.
  intros Hlen Hinv.
  apply (run_schedule_ind
           (fun s => Z.of_nat (length (workers s)) < 2 ^ 32 /\ idle_inv q s));
    [|split; assumption].
  intros i s' [H1 H2]. split.
  - rewrite step_length_workers. exact H1.
  - apply step_idle_inv; assumption.
Qed.

Lemma run_drain_inv q sched s :
  jobs_confined q s -> drain_inv q s -> drain_inv q (run_schedule sched s).
Proof.
  intros Hc Hinv.
  apply (run_schedule_ind (fun s => jobs_confined q s /\ drain_inv q s));
    [|split; assumption].
  intros i s' [H1 H2]. split.
  - apply step_jobs_confined, H1.
  - apply step_drain_inv; assumption.
Qed.

Lemma run_deleted sched s :
  deleted s = destroyed (runs s) ->
  deleted (run_schedule sched s) = destroyed (runs (run_schedule sched s)).
Proof.
  apply (run_schedule_ind (fun s => deleted s = destroyed (runs s))).
  intros i s'. apply step_deleted.
Qed.

Lemma team_done_finishing q s : team_done q s = true -> team_finishing q s.
Proof.
  unfold team_done. rewrite forallb_forall. intros H i w Hi Hq.
  specialize (H w). rewrite <- list_elem_of_In in H.
  specialize (H (list_elem_of_lookup_2 _ _ _ Hi)).
  apply Nat.eqb_eq in Hq. rewrite Hq in H. cbn in H.
  destruct (w_pc w); try discriminate H; reflexivity.
Qed.
End Executions.

(** ** The workers numaLaunch starts *)

Lemma numaLaunch_teams_workers env K len : forall start s w,
  w ∈ workers (foldl (fun s c => numaLoop_begin env c.1.1 c.1.2 c.2 s) s
                 (map (numaLaunch_call env K) (seq start len))) ->
  w ∈ workers s \/
  exists k, (start <= k < start + len)%nat /\
    w = {| w_queue := k;
           w_node := Some (numaLaunch_call env K k).1.2;
           w_team := omp_team_size env (Some (numaLaunch_call env K k).2);
           w_pc := PStart; w_trace := [] |}.
Proof.
  induction len as [|len IH]; intros start s w Hin; cbn [seq map foldl] in Hin.
  - left. exact Hin.
  - apply IH in Hin. destruct Hin as [Hin|(k & Hk & ->)].
    + cbn in Hin. apply elem_of_app in Hin. destruct Hin as [Hin|Hin]; [left; exact Hin|].
      apply elem_of_replicate in Hin. destruct Hin as [-> _].
      right. exists start. split; [lia|reflexivity].
    + right. exists k. split; [lia|reflexivity].
Qed.

(** The team of queue [q] is the one its iteration asked for. *)
Lemma numaLaunch_teams_count env K q len : forall start s,
  count_team q (workers (foldl (fun s c => numaLoop_begin env c.1.1 c.1.2 c.2 s) s
                           (map (numaLaunch_call env K) (seq start len))))
  = (count_team q (workers s)
     + if decide (start <= q < start + len)%nat
       then omp_team_size env (Some (numaLaunch_call env K q).2) else 0)%nat.
Proof.
  induction len as [|len IH]; intros start s; cbn [seq map foldl].
  - case_decide; lia.
  - rewrite IH. cbn [numaLoop_begin omp_parallel with_workers workers].
    unfold numaLoop_begin, omp_parallel, with_workers. cbn [workers].
    unfold count_team at 1. rewrite count_if_app, count_if_replicate.
    fold (count_team q (workers s)). unfold on_queue. cbn [w_queue fst snd].
    change (numaLaunch_call env K start).1.1 with start.
    destruct (start =? q)%nat eqn:E.
    + apply Nat.eqb_eq in E. subst q. repeat case_decide; lia.
    + apply Nat.eqb_neq in E. repeat case_decide; lia.
Qed.

Lemma numaLaunch_calls_lookup env K (k : nat) :
  (k < Z.to_nat K)%nat ->
  numaLaunch_calls env K !! k = Some (numaLaunch_call env K k).
Proof.
  intros Hk. unfold numaLaunch_calls.
  change (map (numaLaunch_call env K) (seq 0 (Z.to_nat K)))
    with (numaLaunch_call env K <$> seq 0 (Z.to_nat K)).
  rewrite list_lookup_fmap, lookup_seq_lt by exact Hk. reflexivity.
Qed.

(** ** A team on an empty queue *)

#[export] Instance DefaultGroup_none : NoAssistGroup DefaultGroup.
Proof. intros qid s. reflexivity. Qed.

#[export] Instance NumaGroup_none : NoAssistGroup NumaGroup.
Proof. intros qid s. reflexivity. Qed.

Lemma lookup_team (k n : nat) (w' w : worker) :
  (k < n)%nat -> (replicate k w' ++ replicate (n - k) w) !! k = Some w.
Proof.
  intros Hk. rewrite lookup_app_r by (rewrite length_replicate; lia).
  rewrite length_replicate, Nat.sub_diag. apply lookup_replicate_2. lia.
Qed.

Lemma insert_team (k n : nat) (w' w : worker) :
  (k < n)%nat ->
  <[k:=w']> (replicate k w' ++ replicate (n - k) w)
  = replicate (S k) w' ++ replicate (n - S k) w.
Proof.
  intros Hk.
  replace (n - k)%nat with (S (n - S k)) by lia.
  pose proof (insert_app_r (replicate k w') (replicate (S (n - S k)) w) 0 w') as E.
  rewrite length_replicate, Nat.add_0_r in E. rewrite E. cbn [replicate].
  change (<[0%nat:=w']> (w :: replicate (n - S k) w)) with (w' :: replicate (n - S k) w).
  rewrite replicate_cons_app, <- app_assoc. reflexivity.
Qed.

Lemma alter_insert (f : JobQueueT -> JobQueueT) (qs : list JobQueueT) (q : nat) Q :
  (q < length qs)%nat -> alter f q (<[q:=Q]> qs) = <[q:=f Q]> qs.
Proof.
  revert q. induction qs as [|Q0 qs IH]; intros [|q] Hq; cbn in *; try lia.
  - reflexivity.
  - f_equal. apply IH. lia.
Qed.

(** One round: if the turn of worker [k] takes the team from stage [k] to
    stage [k+1], the turns of all of them take it from stage 0 to stage [n]. *)
Lemma team_round {G : JobQueueGroupType} qs q n w' w r d (Qf : nat -> JobQueueT) :
  (forall k, (k < n)%nat ->
     executeThreadWork_step k (team_state qs q (Qf k) k n w' w r d)
     = team_state qs q (Qf (S k)) (S k) n w' w r d) ->
  run_schedule (seq 0 n) (team_state qs q (Qf O) 0 n w' w r d)
  = team_state qs q (Qf n) n n w' w r d.
Proof.
  intros Hstep.
  assert (forall k, (k <= n)%nat ->
            run_schedule (seq 0 k) (team_state qs q (Qf O) 0 n w' w r d)
            = team_state qs q (Qf k) k n w' w r d) as H.
  { induction k as [|k IH]; intros Hk; [reflexivity|].
    rewrite seq_S. cbn [plus]. unfold run_schedule. rewrite foldl_app. cbn [foldl].
    fold (run_schedule (seq 0 k) (team_state qs q (Qf O) 0 n w' w r d)).
    rewrite IH by lia. apply Hstep. lia. }
  apply H. lia.
Qed.

Lemma team_state_turn qs q Q n w'' w' w r d :
  team_state qs q Q n n w' w r d = team_state qs q Q 0 n w'' w' r d.
Proof.
  unfold team_state. rewrite Nat.sub_diag, Nat.sub_0_r, app_nil_r. reflexivity.
Qed.

Lemma turns_S n rounds : turns n (S rounds) = seq 0 n ++ turns n rounds.
Proof. reflexivity. Qed.

(** The turn of worker [k] in a team at stage [k]. *)
Ltac team_turn Hk Hq :=
  unfold team_state, executeThreadWork_step; cbn [workers queues];
  rewrite (lookup_team _ _ _ _ Hk); cbn [w_queue numa_worker];
  rewrite (list_lookup_insert_eq _ _ _ Hq); cbn [w_pc try_pop m_queue];
  unfold upd_worker, upd_queue, with_workers, with_queues, finish_run;
  cbn [workers queues runs deleted];
  rewrite ?(insert_team _ _ _ _ Hk), ?(alter_insert _ _ _ _ Hq).

Section EmptyQueue.
Context {G : JobQueueGroupType} {HG : NoAssistGroup G}.
Variables (qs : list JobQueueT) (q : nat) (numaNode : Z) (n : nat).
Variables (r : list (job * bool)) (d : list job) (id0 : Z).
Hypothesis Hq : (q < length qs)%nat.
Hypothesis Hn : Z.of_nat n < 2 ^ 32.

Local Abbreviation N := (Z.of_nat n).
Local Abbreviation wk := (numa_worker q numaNode n).
Local Abbreviation Qi numthrs idle :=
  {| m_queue := []; m_numthrs := numthrs; m_idle_count := idle; m_id := id0 |}.

Lemma round_start nt0 :
  run_schedule (seq 0 n)
    (team_state qs q (Qi nt0 0) 0 n (wk PDrainPop [OSetThreads N]) (wk PStart []) r d)
  = team_state qs q (Qi (if (n =? 0)%nat then nt0 else N) 0) n n
      (wk PDrainPop [OSetThreads N]) (wk PStart []) r d.
Proof.
  apply (team_round qs q n _ _ r d (fun k => Qi (if (k =? 0)%nat then nt0 else N) 0)).
  intros k Hk. team_turn Hk Hq.
  unfold set_numthrs. cbn. rewrite (to_unsigned_small (Z.of_nat n)) by lia.
  reflexivity.
Qed.

Lemma round_drain nt tr :
  run_schedule (seq 0 n)
    (team_state qs q (Qi nt 0) 0 n (wk PIncIdle (OPopFail :: tr)) (wk PDrainPop tr) r d)
  = team_state qs q (Qi nt 0) n n (wk PIncIdle (OPopFail :: tr)) (wk PDrainPop tr) r d.
Proof.
  apply (team_round qs q n _ _ r d (fun _ => Qi nt 0)).
  intros k Hk. team_turn Hk Hq. reflexivity.
Qed.

Lemma round_idle nt tr :
  run_schedule (seq 0 n)
    (team_state qs q (Qi nt 0) 0 n (wk PRetryPop (OIdleInc :: tr)) (wk PIncIdle tr) r d)
  = team_state qs q (Qi nt N) n n (wk PRetryPop (OIdleInc :: tr)) (wk PIncIdle tr) r d.
Proof.
  apply (team_round qs q n _ _ r d (fun k => Qi nt (Z.of_nat k))).
  intros k Hk. team_turn Hk Hq.
  unfold set_idle_count. cbn [m_queue m_numthrs m_idle_count m_id].
  rewrite (to_unsigned_small (Z.of_nat k + 1)) by lia.
  replace (Z.of_nat k + 1) with (Z.of_nat (S k)) by lia. reflexivity.
Qed.

Lemma round_retry nt tr :
  run_schedule (seq 0 n)
    (team_state qs q (Qi nt N) 0 n (wk PCheckTerm (OPopFail :: tr)) (wk PRetryPop tr) r d)
  = team_state qs q (Qi nt N) n n (wk PCheckTerm (OPopFail :: tr)) (wk PRetryPop tr) r d.
Proof.
  apply (team_round qs q n _ _ r d (fun _ => Qi nt N)).
  intros k Hk. team_turn Hk Hq. reflexivity.
Qed.

Lemma round_check tr :
  run_schedule (seq 0 n)
    (team_state qs q (Qi N N) 0 n (wk PAssist (OCheck N N :: tr)) (wk PCheckTerm tr) r d)
  = team_state qs q (Qi N N) n n (wk PAssist (OCheck N N :: tr)) (wk PCheckTerm tr) r d.
Proof.
  apply (team_round qs q n _ _ r d (fun _ => Qi N N)).
  intros k Hk. team_turn Hk Hq.
  cbn [m_idle_count m_numthrs]. rewrite Z.eqb_refl.
  cbn [workers queues runs deleted]. rewrite ?(insert_team _ _ _ _ Hk). reflexivity.
Qed.

Lemma round_assist nt tr :
  run_schedule (seq 0 n)
    (team_state qs q (Qi nt N) 0 n (wk PDone (OReturn :: OAssist false :: tr))
       (wk PAssist tr) r d)
  = team_state qs q (Qi nt N) n n (wk PDone (OReturn :: OAssist false :: tr))
      (wk PAssist tr) r d.
Proof.
  apply (team_round qs q n _ _ r d (fun _ => Qi nt N)).
  intros k Hk. team_turn Hk Hq.
  rewrite assist_none.
  cbn [workers queues runs deleted]. rewrite ?(insert_team _ _ _ _ Hk). reflexivity.
Qed.

(** Six rounds take the team on an empty queue from the start of
    [executeThreadWork] to the return of every worker. *)
Lemma empty_team_returns nt0 w' w'' :
  run_schedule (turns n 6)
    (team_state qs q (Qi nt0 0) 0 n w' (wk PStart []) r d)
  = team_state qs q (Qi (if (n =? 0)%nat then nt0 else N) N) n n
      (wk PDone (idle_trace n)) w'' r d.
Proof.
  destruct (n =? 0)%nat eqn:En.
  - apply Nat.eqb_eq in En. rewrite En. reflexivity.
  - rewrite !turns_S, !run_schedule_app. change (turns n 0) with (@nil nat).
    change (team_state qs q (Qi nt0 0) 0 n w' (wk PStart []) r d)
      with (team_state qs q (Qi nt0 0) 0 n (wk PDrainPop [OSetThreads N])
              (wk PStart []) r d).
    rewrite round_start, En.
    rewrite (team_state_turn _ _ _ _ (wk PIncIdle [OPopFail; OSetThreads N])), round_drain.
    rewrite (team_state_turn _ _ _ _ (wk PRetryPop [OIdleInc; OPopFail; OSetThreads N])),
      round_idle.
    rewrite (team_state_turn _ _ _ _
               (wk PCheckTerm [OPopFail; OIdleInc; OPopFail; OSetThreads N])),
      round_retry.
    rewrite (team_state_turn _ _ _ _
               (wk PAssist [OCheck N N; OPopFail; OIdleInc; OPopFail; OSetThreads N])),
      round_check.
    rewrite (team_state_turn _ _ _ _
               (wk PDone [OReturn; OAssist false; OCheck N N; OPopFail; OIdleInc;
                          OPopFail; OSetThreads N])),
      round_assist.
    unfold team_state. rewrite Nat.sub_diag. reflexivity.
Qed.
End EmptyQueue.

(** ** Every fair schedule ends *)

Lemma alter_as_insert {A} (h : A -> A) (l : list A) (t : nat) (x : A) :
  l !! t = Some x -> alter h t l = <[t:=h x]> l.
Proof.
  revert t. induction l as [|a l IH]; intros [|t] H; cbn in H; try discriminate.
  - injection H as ->. reflexivity.
  - cbn. f_equal. apply IH, H.
Qed.

Lemma team_done_all q s :
  team_done q s = true ->
  forall i w, workers s !! i = Some w -> w_queue w = q -> w_pc w = PDone.
Proof.
  unfold team_done. rewrite forallb_forall. intros H i w Hi Hq.
  specialize (H w). rewrite <- list_elem_of_In in H.
  specialize (H (list_elem_of_lookup_2 _ _ _ Hi)).
  apply Nat.eqb_eq in Hq. rewrite Hq in H. cbn in H.
  destruct (w_pc w); try discriminate H; reflexivity.
Qed.

Lemma NoAssistGroup_inert (G : JobQueueGroupType) : NoAssistGroup G -> InertGroup G.
Proof. intros H qid s. rewrite (assist_none qid s). reflexivity. Qed.

Lemma list_sum_cons (a : nat) (l : list nat) : list_sum (a :: l) = (a + list_sum l)%nat.
Proof. reflexivity. Qed.

Lemma sum_insert {A} (f : A -> nat) (l : list A) (i : nat) (x y : A) :
  l !! i = Some x ->
  (list_sum (map f (<[i:=y]> l)) + f x = list_sum (map f l) + f y)%nat.
Proof.
  revert i. induction l as [|a l IH]; intros [|i] H; cbn in H; try discriminate.
  - injection H as ->. change (<[O:=y]> (x :: l)) with (y :: l).
    cbn [map]. rewrite !list_sum_cons. lia.
  - change (<[S i:=y]> (a :: l)) with (a :: <[i:=y]> l).
    cbn [map]. rewrite !list_sum_cons. specialize (IH i H). lia.
Qed.

Lemma sum_alter {A} (f : A -> nat) (h : A -> A) (l : list A) (t : nat) (x : A) :
  l !! t = Some x ->
  (list_sum (map f (alter h t l)) + f x = list_sum (map f l) + f (h x))%nat.
Proof. intros H. rewrite (alter_as_insert h l t x H). apply sum_insert, H. Qed.

Lemma alter_out_of_range {A} (h : A -> A) (l : list A) (t : nat) :
  l !! t = None -> alter h t l = l.
Proof.
  revert t. induction l as [|a l IH]; intros [|t] H; cbn in H; try discriminate.
  - reflexivity.
  - reflexivity.
  - cbn. f_equal. apply IH, H.
Qed.

Lemma jobcost_unfold j :
  jobcost j = (5 + length (job_spawns j) + todo_cost (job_spawns j))%nat.
Proof.
  destruct j as [p spawns b]. cbn [jobcost job_spawns]. unfold todo_cost.
  do 2 f_equal. apply map_ext. intros [t c]. reflexivity.
Qed.

Lemma queue_cost_set_queue l Q : queue_cost (set_queue l Q) = list_sum (map jobcost l).
Proof. reflexivity. Qed.

Lemma queue_cost_enqueue c Q : queue_cost (enqueue c Q) = (queue_cost Q + jobcost c)%nat.
Proof.
  unfold queue_cost, enqueue. cbn [m_queue]. rewrite map_app, list_sum_app.
  change (list_sum (map jobcost [c])) with (jobcost c + 0)%nat. lia.
Qed.

(** The queues after an update of queue [t] that keeps its jobs. *)
Lemma queues_cost_same (h : JobQueueT -> JobQueueT) (t : nat) (qs : list JobQueueT) :
  (forall Q, queue_cost (h Q) = queue_cost Q) ->
  list_sum (map queue_cost (alter h t qs)) = list_sum (map queue_cost qs).
Proof.
  intros Hh. revert t. induction qs as [|Q qs IH]; intros [|t]; try reflexivity.
  - change (alter h 0%nat (Q :: qs)) with (h Q :: qs). cbn [map].
    rewrite !list_sum_cons, Hh. reflexivity.
  - change (alter h (S t) (Q :: qs)) with (Q :: alter h t qs). cbn [map].
    rewrite !list_sum_cons, IH. reflexivity.
Qed.

Lemma queues_cost_enqueue c (t : nat) (qs : list JobQueueT) :
  (list_sum (map queue_cost (alter (enqueue c) t qs))
   <= list_sum (map queue_cost qs) + jobcost c)%nat.
Proof.
  destruct (qs !! t) as [Q|] eqn:HQ.
  - pose proof (sum_alter queue_cost (enqueue c) qs t Q HQ) as H.
    rewrite queue_cost_enqueue in H. lia.
  - rewrite (alter_out_of_range _ _ _ HQ). lia.
Qed.

Lemma potential_step s s' i w w' (dq_old dq_new : nat) :
  workers s !! i = Some w ->
  workers s' = <[i:=w']> (workers s) ->
  (list_sum (map queue_cost (queues s')) + dq_old
   <= list_sum (map queue_cost (queues s)) + dq_new)%nat ->
  (dq_new + pc_cost (w_pc w') < dq_old + pc_cost (w_pc w))%nat ->
  (potential s' < potential s)%nat.
Proof.
  intros Hw Hws Hq Hlt. unfold potential. rewrite Hws.
  pose proof (sum_insert (fun w => pc_cost (w_pc w)) (workers s) i w w' Hw) as H.
  cbn beta in H. lia.
Qed.

Lemma potential_step_same s s' i w w' :
  workers s !! i = Some w ->
  workers s' = <[i:=w']> (workers s) ->
  queues s' = queues s ->
  pc_cost (w_pc w') = pc_cost (w_pc w) ->
  potential s' = potential s.
Proof.
  intros Hw Hws Hq He. unfold potential. rewrite Hws, Hq.
  pose proof (sum_insert (fun w => pc_cost (w_pc w)) (workers s) i w w' Hw) as H.
  cbn beta in H. lia.
Qed.

Lemma queues_cost_pop (qs : list JobQueueT) (t : nat) Q j rest :
  qs !! t = Some Q -> m_queue Q = j :: rest ->
  (list_sum (map queue_cost (alter (fun _ => set_queue rest Q) t qs)) + jobcost j
   <= list_sum (map queue_cost qs) + 0)%nat.
Proof.
  intros HQ Hj. pose proof (sum_alter queue_cost (fun _ => set_queue rest Q) qs t Q HQ) as H.
  cbn beta in H. rewrite queue_cost_set_queue in H. unfold queue_cost at 2 in H.
  rewrite Hj in H. cbn [map] in H. rewrite list_sum_cons in H. lia.
Qed.

Ltac qsimp :=
  cbn [queues workers upd_worker upd_queue with_workers with_queues finish_run].

Section FairSchedules.
Context {G : JobQueueGroupType} {HN : NoAssistGroup G}.

(** A step either uses up potential, or it is a turn of the retry loop that
    changes nothing but the place of the worker (a try_pop that fails, a
    check that fails), or the step of a worker that has returned. *)
Lemma step_kind i s w Q :
  workers s !! i = Some w -> queues s !! w_queue w = Some Q ->
  (potential (executeThreadWork_step i s) < potential s)%nat \/
  (potential (executeThreadWork_step i s) = potential s /\
   exists w', workers (executeThreadWork_step i s) !! i = Some w' /\
     ((w_pc w = PRetryPop /\ w_pc w' = PCheckTerm) \/
      (w_pc w = PCheckTerm /\ w_pc w' = PRetryPop /\ m_idle_count Q <> m_numthrs Q) \/
      (w_pc w = PDone /\ w_pc w' = PDone))).
Proof.
  intros Hw HQ. pose proof (lookup_lt_Some _ _ _ Hw) as Hi.
  unfold executeThreadWork_step. rewrite Hw, HQ.
  destruct (w_pc w) as [ | |j [|[t c] todo]| | | | |j| ] eqn:Hpc.
  - (* m_numthrs = omp_get_num_threads() *)
    left. eapply (potential_step s _ i w _ 0 0 Hw); [reflexivity| |].
    + qsimp. rewrite queues_cost_same; [lia|reflexivity].
    + rewrite Hpc. cbn [w_pc at_pc pc_cost]. lia.
  - (* the drain loop *)
    unfold try_pop. destruct (m_queue Q) as [|j rest] eqn:Hjobs.
    + left. eapply (potential_step s _ i w _ 0 0 Hw); [reflexivity|qsimp; lia|].
      rewrite Hpc. cbn [w_pc at_pc pc_cost]. lia.
    + left. eapply (potential_step s _ i w _ (jobcost j) 0 Hw); [reflexivity| |].
      * qsimp. apply (queues_cost_pop _ _ _ _ _ HQ Hjobs).
      * rewrite Hpc. cbn [w_pc at_pc pc_cost]. rewrite (jobcost_unfold j). lia.
  - (* run returns *)
    left. eapply (potential_step s _ i w _ 0 0 Hw); [reflexivity|qsimp; lia|].
    rewrite Hpc. cbn [w_pc at_pc pc_cost length todo_cost]. lia.
  - (* run enqueues *)
    left. eapply (potential_step s _ i w _ 0 (jobcost c) Hw); [reflexivity| |].
    + qsimp. pose proof (queues_cost_enqueue c t (queues s)). lia.
    + rewrite Hpc. cbn [w_pc at_pc pc_cost length]. unfold todo_cost. cbn [map].
      rewrite list_sum_cons. cbn [snd]. lia.
  - (* ++m_idle_count *)
    left. eapply (potential_step s _ i w _ 0 0 Hw); [reflexivity| |].
    + qsimp. rewrite queues_cost_same; [lia|reflexivity].
    + rewrite Hpc. cbn [w_pc at_pc pc_cost]. lia.
  - (* the retry loop *)
    unfold try_pop. destruct (m_queue Q) as [|j rest] eqn:Hjobs.
    + right. split.
      * eapply (potential_step_same s _ i w _ Hw); [reflexivity|reflexivity|].
        rewrite Hpc. reflexivity.
      * eexists. split; [qsimp; apply list_lookup_insert_eq; exact Hi|].
        left. split; reflexivity.
    + left. eapply (potential_step s _ i w _ (jobcost j) 0 Hw); [reflexivity| |].
      * qsimp. apply (queues_cost_pop _ _ _ _ _ HQ Hjobs).
      * rewrite Hpc. cbn [w_pc at_pc pc_cost]. lia.
  - (* m_idle_count == m_numthrs *)
    destruct (m_idle_count Q =? m_numthrs Q) eqn:E.
    + left. eapply (potential_step s _ i w _ 0 0 Hw); [reflexivity|qsimp; lia|].
      rewrite Hpc. cbn [w_pc at_pc pc_cost]. lia.
    + right. split.
      * eapply (potential_step_same s _ i w _ Hw); [reflexivity|reflexivity|].
        rewrite Hpc. reflexivity.
      * eexists. split; [qsimp; apply list_lookup_insert_eq; exact Hi|].
        right. left. split; [reflexivity|]. split; [reflexivity|].
        apply Z.eqb_neq, E.
  - (* assist says false *)
    rewrite (assist_none (m_id Q) s).
    left. eapply (potential_step s _ i w _ 0 0 Hw); [reflexivity|qsimp; lia|].
    rewrite Hpc. cbn [w_pc at_pc pc_cost length todo_cost]. lia.
  - (* --m_idle_count *)
    left. eapply (potential_step s _ i w _ 0 0 Hw); [reflexivity| |].
    + qsimp. rewrite queues_cost_same; [lia|reflexivity].
    + rewrite Hpc. cbn [w_pc at_pc pc_cost]. rewrite (jobcost_unfold j). lia.
  - (* returned *)
    right. split; [reflexivity|]. exists w. split; [exact Hw|].
    right. right. split; [reflexivity|exact Hpc].
Qed.

Lemma step_fixed i s :
  workers s !! i = None \/
  (exists w, workers s !! i = Some w /\ queues s !! w_queue w = None) ->
  executeThreadWork_step i s = s.
Proof.
  unfold executeThreadWork_step. intros [H|(w & Hw & HQ)].
  - rewrite H. reflexivity.
  - rewrite Hw, HQ. reflexivity.
Qed.

Lemma step_potential_le i s :
  (potential (executeThreadWork_step i s) <= potential s)%nat.
Proof.
  destruct (workers s !! i) as [w|] eqn:Hw; [|rewrite step_fixed; auto].
  destruct (queues s !! w_queue w) as [Q|] eqn:HQ; [|rewrite step_fixed; eauto].
  destruct (step_kind i s w Q Hw HQ) as [H|[H _]]; lia.
Qed.

Lemma run_potential_le sched : forall s,
  (potential (run_schedule sched s) <= potential s)%nat.
Proof.
  induction sched as [|i sched IH]; intros s; [reflexivity|].
  rewrite run_schedule_cons. specialize (IH (executeThreadWork_step i s)).
  pose proof (step_potential_le i s). lia.
Qed.

(** In a stretch that uses up no potential, no step does. *)
Lemma quiet_split pre i post s :
  potential (run_schedule (pre ++ i :: post) s) = potential s ->
  potential (executeThreadWork_step i (run_schedule pre s))
  = potential (run_schedule pre s).
Proof.
  rewrite run_schedule_app, run_schedule_cons. intros H.
  pose proof (run_potential_le post (executeThreadWork_step i (run_schedule pre s))).
  pose proof (step_potential_le i (run_schedule pre s)).
  pose proof (run_potential_le pre s). lia.
Qed.

Lemma step_other_worker i j s :
  i <> j -> workers (executeThreadWork_step i s) !! j = workers s !! j.
Proof.
  intros Hne.
  destruct (workers s !! i) as [w|] eqn:Hw; [|rewrite step_fixed; auto].
  destruct (queues s !! w_queue w) as [Q|] eqn:HQ; [|rewrite step_fixed; eauto].
  unfold executeThreadWork_step. rewrite Hw, HQ.
  destruct (w_pc w) as [ | |j0 [|[t c] todo]| | | | |j0| ]; unfold try_pop;
    try destruct (m_queue Q); try destruct (m_idle_count Q =? m_numthrs Q);
    rewrite ?(assist_none (m_id Q) s); qsimp;
    try reflexivity; apply list_lookup_insert_ne; exact Hne.
Qed.

Lemma run_other_worker j sched : forall s,
  j ∉ sched -> workers (run_schedule sched s) !! j = workers s !! j.
Proof.
  induction sched as [|i sched IH]; intros s Hj; [reflexivity|].
  rewrite run_schedule_cons, IH.
  - apply step_other_worker. intros ->. apply Hj, elem_of_cons. left. reflexivity.
  - intros H. apply Hj, elem_of_cons. right. exact H.
Qed.

Lemma run_length_queues sched : forall s,
  length (queues (run_schedule sched s)) = length (queues s).
Proof.
  induction sched as [|i sched IH]; intros s; [reflexivity|].
  rewrite run_schedule_cons, IH.
  apply (step_length_queues (HG:=NoAssistGroup_inert G HN)).
Qed.

Lemma run_fair_inv sched s : fair_inv s -> fair_inv (run_schedule sched s).
Proof.
  intros (Hlen & He & Hw). split; [|split].
  - rewrite (run_length_workers (HG:=NoAssistGroup_inert G HN)). exact Hlen.
  - apply (run_exit_inv (HG:=NoAssistGroup_inert G HN)), He.
  - intros i w' Hi.
    destruct (run_static (HG:=NoAssistGroup_inert G HN) sched s i w' Hi)
      as (w & Hw0 & Eq & Et & _).
    destruct (Hw i w Hw0) as ((Q & HQ) & Hidle & Hteam).
    rewrite <- Eq, <- Et. split; [|split].
    + apply lookup_lt_is_Some. rewrite run_length_queues.
      eapply lookup_lt_Some, HQ.
    + apply (run_idle_inv (HG:=NoAssistGroup_inert G HN)); assumption.
    + rewrite (run_count_team (HG:=NoAssistGroup_inert G HN)). exact Hteam.
Qed.

Lemma non_idle_teammate q (ws : list worker) :
  (count_idle q ws < count_team q ws)%nat ->
  exists j w, ws !! j = Some w /\ w_queue w = q /\ is_idle (w_pc w) = false.
Proof.
  unfold count_idle, count_team.
  induction ws as [|w0 ws IH]; cbn [count_if]; [lia|]. intros H.
  destruct (on_queue q w0) eqn:Eq; [destruct (is_idle (w_pc w0)) eqn:E|].
  - cbn [andb] in H. destruct IH as (j & w & Hj & Hw); [lia|].
    exists (S j), w. split; [exact Hj|exact Hw].
  - exists O, w0. split; [reflexivity|]. split; [apply on_queue_true, Eq|exact E].
  - cbn [andb] in H. destruct IH as (j & w & Hj & Hw); [lia|].
    exists (S j), w. split; [exact Hj|exact Hw].
Qed.

(** A check can fail only while some worker of the team is not idle. *)
Lemma failing_check_teammate s k w Q :
  fair_inv s ->
  workers s !! k = Some w -> queues s !! w_queue w = Some Q ->
  w_pc w = PCheckTerm -> m_idle_count Q <> m_numthrs Q ->
  exists j wj, workers s !! j = Some wj /\ w_queue wj = w_queue w /\
               is_idle (w_pc wj) = false.
Proof.
  intros (Hlen & (_ & Hn & _) & Hws) Hw HQ Hpc Hne.
  destruct (Hws k w Hw) as (_ & Hidle & Hteam).
  apply (non_idle_teammate (w_queue w)).
  pose proof (count_idle_team (w_queue w) (workers s)) as Hle.
  pose proof (count_if_length (on_queue (w_queue w)) (workers s)) as Hcl.
  fold (count_team (w_queue w) (workers s)) in Hcl.
  assert (m_numthrs Q = Z.of_nat (count_team (w_queue w) (workers s))) as E1.
  { rewrite (Hn k w Q Hw HQ) by (rewrite Hpc; discriminate).
    unfold team_N. rewrite Hteam. apply to_unsigned_small. lia. }
  pose proof (Hidle Q HQ) as E2. lia.
Qed.

Lemma quiet_pc_idle p : quiet_pc p = true -> is_idle p = true.
Proof. destruct p; cbn; congruence. Qed.

(** A step that uses up no potential, seen from the worker. *)
Lemma quiet_step i s w :
  fair_inv s -> workers s !! i = Some w ->
  potential (executeThreadWork_step i s) = potential s ->
  exists Q w',
    queues s !! w_queue w = Some Q /\
    workers (executeThreadWork_step i s) !! i = Some w' /\
    ((w_pc w = PRetryPop /\ w_pc w' = PCheckTerm) \/
     (w_pc w = PCheckTerm /\ w_pc w' = PRetryPop /\ m_idle_count Q <> m_numthrs Q) \/
     (w_pc w = PDone /\ w_pc w' = PDone)).
Proof.
  intros (_ & _ & Hws) Hw Hp. destruct (Hws i w Hw) as ((Q & HQ) & _).
  destruct (step_kind i s w Q Hw HQ) as [H|(_ & w' & Hw' & Hk)]; [lia|].
  exists Q, w'. auto.
Qed.

(** The workers of a queue are the same all along. *)
Lemma run_team_forward sched s i w :
  workers s !! i = Some w ->
  exists w', workers (run_schedule sched s) !! i = Some w' /\ w_queue w' = w_queue w.
Proof.
  intros Hw.
  assert (is_Some (workers (run_schedule sched s) !! i)) as [w' Hw'].
  { apply lookup_lt_is_Some.
    rewrite (run_length_workers (HG:=NoAssistGroup_inert G HN)).
    eapply lookup_lt_Some, Hw. }
  exists w'. split; [exact Hw'|].
  destruct (run_static (HG:=NoAssistGroup_inert G HN) sched s i w' Hw')
    as (w0 & Hw0 & Eq & _).
  rewrite Hw in Hw0. injection Hw0 as <-. symmetry. exact Eq.
Qed.

Lemma covers_team_run q sched s seg :
  covers_team q (workers s) seg -> covers_team q (workers (run_schedule sched s)) seg.
Proof.
  intros Hcov i w' Hw' Hq.
  destruct (run_static (HG:=NoAssistGroup_inert G HN) sched s i w' Hw')
    as (w0 & Hw0 & Eq & _).
  apply (Hcov i w0 Hw0). congruence.
Qed.

Section QuietStretch.
Variables (s : system) (seg : list nat) (q : nat).
Hypothesis Hinv : fair_inv s.
Hypothesis Hcov : covers_team q (workers s) seg.
Hypothesis Hquiet : potential (run_schedule seg s) = potential s.

(** In the middle of a stretch that uses up no potential every worker of the
    team is in the retry loop or has returned. *)
Lemma quiet_all_idle pre post j wj :
  seg = pre ++ post ->
  workers (run_schedule pre s) !! j = Some wj -> w_queue wj = q ->
  quiet_pc (w_pc wj) = true.
Proof.
  intros Hseg Hj Hjq.
  assert (j ∈ seg) as Hin by exact (covers_team_run q pre s seg Hcov j wj Hj Hjq).
  rewrite Hseg in Hin. apply elem_of_app in Hin. destruct Hin as [Hin|Hin].
  - (* its last step before *)
    destruct (list_elem_of_split_r _ _ Hin) as (p1 & p2 & Hpre & Hnot).
    assert (seg = p1 ++ j :: (p2 ++ post)) as Hseg'
      by (rewrite Hseg, Hpre, <- app_assoc; reflexivity).
    pose proof Hquiet as Hq. rewrite Hseg' in Hq. apply quiet_split in Hq.
    rewrite Hpre, run_schedule_app, run_schedule_cons in Hj.
    rewrite (run_other_worker j p2 _ Hnot) in Hj.
    destruct (workers (run_schedule p1 s) !! j) as [w0|] eqn:Hw0.
    + destruct (quiet_step j _ w0 (run_fair_inv p1 s Hinv) Hw0 Hq)
        as (Q & w' & _ & Hw' & Hk).
      rewrite Hw' in Hj. injection Hj as <-.
      destruct Hk as [[_ ->]|[(_ & -> & _)|[_ ->]]]; reflexivity.
    + rewrite step_fixed in Hj by auto. rewrite Hw0 in Hj. discriminate.
  - (* its first step after *)
    destruct (list_elem_of_split_l _ _ Hin) as (p1 & p2 & Hpost & Hnot).
    assert (seg = (pre ++ p1) ++ j :: p2) as Hseg'
      by (rewrite Hseg, Hpost, <- app_assoc; reflexivity).
    pose proof Hquiet as Hq. rewrite Hseg' in Hq. apply quiet_split in Hq.
    assert (workers (run_schedule (pre ++ p1) s) !! j = Some wj) as Hj'
      by (rewrite run_schedule_app, (run_other_worker j p1 _ Hnot); exact Hj).
    destruct (quiet_step j _ wj (run_fair_inv (pre ++ p1) s Hinv) Hj' Hq)
      as (Q & w' & _ & _ & Hk).
    destruct Hk as [[-> _]|[(-> & _)|[-> _]]]; reflexivity.
Qed.

(** So no check of the team fails in it: its steps are failed try_pops of
    the retry loop and steps of workers that have returned. *)
Lemma quiet_stretch_step pre k post w :
  seg = pre ++ k :: post ->
  workers (run_schedule pre s) !! k = Some w -> w_queue w = q ->
  exists w', workers (run_schedule (pre ++ [k]) s) !! k = Some w' /\
    ((w_pc w = PRetryPop /\ w_pc w' = PCheckTerm) \/ (w_pc w = PDone /\ w_pc w' = PDone)).
Proof.
  intros Hseg Hw Hwq.
  pose proof Hquiet as Hq. rewrite Hseg in Hq. apply quiet_split in Hq.
  pose proof (run_fair_inv pre s Hinv) as Hinv'.
  destruct (quiet_step k _ w Hinv' Hw Hq) as (Q & w' & HQ & Hw' & Hk).
  exists w'. split; [rewrite run_schedule_snoc; exact Hw'|].
  destruct Hk as [Hk|[(Hpc & _ & Hne)|Hk]]; [left; exact Hk| |right; exact Hk].
  exfalso.
  destruct (failing_check_teammate _ k w Q Hinv' Hw HQ Hpc Hne)
    as (j & wj & Hj & Hjq & Hidle).
  assert (w_queue wj = q) as Hjq' by congruence.
  pose proof (quiet_all_idle pre (k :: post) j wj Hseg Hj Hjq') as H.
  apply quiet_pc_idle in H. congruence.
Qed.
End QuietStretch.

Lemma retrying_on_true q s i w :
  workers s !! i = Some w -> w_queue w = q -> w_pc w = PRetryPop ->
  retrying_on q s = true.
Proof.
  intros Hw Hq Hpc. unfold retrying_on. apply existsb_exists. exists w.
  split; [apply list_elem_of_In; exact (list_elem_of_lookup_2 _ _ _ Hw)|].
  rewrite Hpc, (proj2 (on_queue_true q w) Hq). reflexivity.
Qed.

Lemma retrying_on_witness q s :
  retrying_on q s = true ->
  exists i w, workers s !! i = Some w /\ w_queue w = q /\ w_pc w = PRetryPop.
Proof.
  unfold retrying_on. intros H. apply existsb_exists in H. destruct H as (w & Hin & Hpc).
  apply list_elem_of_In, list_elem_of_lookup_1 in Hin. destruct Hin as [i Hi].
  apply andb_true_iff in Hpc. destruct Hpc as [Hq Hpc].
  exists i, w. split; [exact Hi|]. split; [apply on_queue_true, Hq|].
  destruct (w_pc w); try discriminate Hpc. reflexivity.
Qed.

(** A stretch in which every worker of a team steps brings the system
    forward, unless the whole team has returned. *)
Lemma stretch_progress q s seg k w :
  fair_inv s -> covers_team q (workers s) seg ->
  workers s !! k = Some w -> w_queue w = q -> w_pc w <> PDone ->
  (progress_measure q (run_schedule seg s) < progress_measure q s)%nat.
Proof.
  intros Hinv Hcov Hk Hkq Hnd. pose proof (run_potential_le seg s) as Hle.
  unfold progress_measure.
  destruct (decide (potential (run_schedule seg s) = potential s)) as [Hq|Hlt];
    [|destruct (retrying_on q (run_schedule seg s)), (retrying_on q s); lia].
  assert (retrying_on q s = true) as ->.
  { assert (k ∈ seg) as Hin by exact (Hcov k w Hk Hkq).
    destruct (list_elem_of_split_l _ _ Hin) as (p1 & p2 & Hseg & Hnot).
    assert (workers (run_schedule p1 s) !! k = Some w) as Hk'
      by (rewrite (run_other_worker k p1 _ Hnot); exact Hk).
    destruct (quiet_stretch_step s seg q Hinv Hcov Hq p1 k p2 w Hseg Hk' Hkq)
      as (w' & _ & [[Hpc _]|[Hpc _]]); [|contradiction].
    exact (retrying_on_true q s k w Hk Hkq Hpc). }
  assert (retrying_on q (run_schedule seg s) = false) as ->; [|lia].
  destruct (retrying_on q (run_schedule seg s)) eqn:Hr; [exfalso|reflexivity].
  destruct (retrying_on_witness _ _ Hr) as (j & wj & Hj & Hjq & Hpc).
  assert (j ∈ seg) as Hin by exact (covers_team_run q seg s seg Hcov j wj Hj Hjq).
  destruct (list_elem_of_split_r _ _ Hin) as (p1 & p2 & Hseg & Hnot).
  destruct (run_static (HG:=NoAssistGroup_inert G HN) seg s j wj Hj)
    as (wj0 & Hwj0 & Eq0 & _).
  destruct (run_team_forward p1 s j wj0 Hwj0) as (w0 & Hw0 & Eq1).
  assert (w_queue w0 = q) as Hw0q by congruence.
  destruct (quiet_stretch_step s seg q Hinv Hcov Hq p1 j p2 w0 Hseg Hw0 Hw0q)
    as (w' & Hw' & Hk').
  assert (workers (run_schedule seg s) !! j = Some w') as Hend.
  { rewrite Hseg. change (p1 ++ j :: p2) with (p1 ++ [j] ++ p2).
    rewrite app_assoc, run_schedule_app, (run_other_worker j p2 _ Hnot). exact Hw'. }
  rewrite Hend in Hj. injection Hj as <-.
  destruct Hk' as [[_ E]|[_ E]]; rewrite E in Hpc; discriminate.
Qed.

(** A worker that has returned stays as it is. *)
Lemma run_done_stays sched : forall s i w,
  workers s !! i = Some w -> w_pc w = PDone ->
  workers (run_schedule sched s) !! i = Some w.
Proof.
  induction sched as [|k sched IH]; intros s i w Hw Hpc; [exact Hw|].
  rewrite run_schedule_cons. apply IH; [|exact Hpc].
  destruct (decide (k = i)) as [->|Hne].
  - assert (executeThreadWork_step i s = s) as ->; [|exact Hw].
    unfold executeThreadWork_step. rewrite Hw.
    destruct (queues s !! w_queue w); [|reflexivity]. rewrite Hpc. reflexivity.
  - rewrite (step_other_worker k i s Hne). exact Hw.
Qed.

Lemma team_done_lookup q s :
  (forall i w, workers s !! i = Some w -> w_queue w = q -> w_pc w = PDone) ->
  team_done q s = true.
Proof.
  intros H. unfold team_done. apply forallb_forall. intros w Hin.
  apply list_elem_of_In, list_elem_of_lookup_1 in Hin. destruct Hin as [i Hi].
  destruct (w_queue w =? q)%nat eqn:E; [|reflexivity].
  apply Nat.eqb_eq in E. rewrite (H i w Hi E). reflexivity.
Qed.

Lemma team_done_stays q sched s :
  team_done q s = true -> team_done q (run_schedule sched s) = true.
Proof.
  intros Hd. apply team_done_lookup. intros i w' Hw' Hq.
  destruct (run_static (HG:=NoAssistGroup_inert G HN) sched s i w' Hw')
    as (w0 & Hw0 & Eq & _).
  assert (w_pc w0 = PDone) as Hpc by (apply (team_done_all q s Hd i w0 Hw0); congruence).
  rewrite (run_done_stays sched s i w0 Hw0 Hpc) in Hw'. injection Hw' as <-. exact Hpc.
Qed.

Lemma not_team_done q s :
  team_done q s = false ->
  exists k w, workers s !! k = Some w /\ w_queue w = q /\ w_pc w <> PDone.
Proof.
  unfold team_done. induction (workers s) as [|w0 ws IH]; cbn [forallb]; [discriminate|].
  destruct (negb (w_queue w0 =? q)%nat || is_done (w_pc w0)) eqn:E; cbn [andb].
  - intros H. destruct (IH H) as (k & w & Hk & Hw). exists (S k), w. split; assumption.
  - intros _. apply orb_false_iff in E. destruct E as [E1 E2].
    apply negb_false_iff, Nat.eqb_eq in E1.
    exists O, w0. split; [reflexivity|]. split; [exact E1|].
    intros Hpc. rewrite Hpc in E2. discriminate.
Qed.

Lemma list_sum_zero {A} (f : A -> nat) (l : list A) i x :
  list_sum (map f l) = O -> l !! i = Some x -> f x = O.
Proof.
  revert i. induction l as [|a l IH]; intros [|i] H Hi; cbn in Hi; try discriminate;
    cbn [map] in H; rewrite list_sum_cons in H.
  - injection Hi as ->. lia.
  - apply (IH i); [lia|exact Hi].
Qed.

Lemma potential_zero_done s :
  potential s = O -> forall i w, workers s !! i = Some w -> w_pc w = PDone.
Proof.
  unfold potential. intros H i w Hw.
  assert (pc_cost (w_pc w) = O) as E
    by (apply (list_sum_zero (fun w => pc_cost (w_pc w)) (workers s) i w); [lia|exact Hw]).
  destruct (w_pc w); cbn in E; try discriminate E; reflexivity.
Qed.

(** As many stretches as the measure counts take the team to its return. *)
Lemma fair_team_done q segs : forall s,
  fair_inv s ->
  Forall (covers_team q (workers s)) segs ->
  (progress_measure q s <= length segs)%nat ->
  team_done q (run_schedule (concat segs) s) = true.
Proof.
  induction segs as [|seg segs IH]; intros s Hinv Hcov Hm.
  - change (run_schedule (concat []) s) with s. apply team_done_lookup.
    intros i w Hw _. apply (potential_zero_done s) with (i := i); [|exact Hw].
    unfold progress_measure in Hm. cbn [length] in Hm. destruct (retrying_on q s); lia.
  - cbn [concat]. rewrite run_schedule_app.
    destruct (team_done q s) eqn:Hd.
    + apply team_done_stays, team_done_stays, Hd.
    + destruct (not_team_done q s Hd) as (k & w & Hk & Hkq & Hnd).
      apply Forall_cons in Hcov. destruct Hcov as [Hseg Hrest].
      pose proof (stretch_progress q s seg k w Hinv Hseg Hk Hkq Hnd) as Hlt.
      apply IH.
      * apply run_fair_inv, Hinv.
      * eapply Forall_impl; [exact Hrest|]. intros sg. apply covers_team_run.
      * cbn [length] in Hm. lia.
Qed.
End FairSchedules.

Lemma sum_const {A} (f : A -> nat) (c : nat) (l : list A) :
  (forall i x, l !! i = Some x -> f x = c) -> list_sum (map f l) = (c * length l)%nat.
Proof.
  induction l as [|a l IH]; intros H; [cbn; lia|].
  cbn [map length]. rewrite list_sum_cons, (H O a eq_refl), IH; [lia|].
  intros i x Hi. exact (H (S i) x Hi).
Qed.

(** What a launch starts from, for the proof of termination. *)
Lemma launched_fair s :
  launched s ->
  (forall i w, workers s !! i = Some w ->
     exists Q, queues s !! w_queue w = Some Q /\ m_idle_count Q = 0) ->
  Z.of_nat (length (workers s)) < 2 ^ 32 ->
  fair_inv s /\
  potential s = (list_sum (map queue_cost (queues s)) + 5 * length (workers s))%nat /\
  forall q, retrying_on q s = false.
Proof.
  intros Hl Hz Hlen. split; [|split].
  - split; [exact Hlen|]. split; [apply launched_exit_inv, Hl|].
    intros i w Hw. destruct (Hz i w Hw) as (Q & HQ & Hc).
    split; [eauto|]. split; [|apply (Hl i w Hw)].
    apply launched_idle_inv; [exact Hl|].
    intros Q' HQ'. rewrite HQ in HQ'. injection HQ' as <-. exact Hc.
  - unfold potential. rewrite (sum_const (fun w => pc_cost (w_pc w)) 5 (workers s)); [lia|].
    intros i w Hw. destruct (Hl i w Hw) as (E & _). rewrite E. reflexivity.
  - intros q. destruct (retrying_on q s) eqn:Hr; [|reflexivity].
    destruct (retrying_on_witness q s Hr) as (i & w & Hw & _ & Hpc).
    destruct (Hl i w Hw) as (E & _). rewrite E in Hpc. discriminate.
Qed.

(** From the start of a launch, with every worker stepping in every
    stretch: all workers return. *)
Lemma launch_fair_done {G : JobQueueGroupType} {HN : NoAssistGroup G}
    (env : environment) (s0 s1 : system) (segs : list (list nat)) :
  launch_state env s0 s1 ->
  (forall i w, workers s1 !! i = Some w ->
     exists Q, queues s1 !! w_queue w = Some Q /\ m_idle_count Q = 0) ->
  Z.of_nat (length (workers s1)) < 2 ^ 32 ->
  Forall (covers (length (workers s1))) segs ->
  (2 * (list_sum (map queue_cost (queues s1)) + 5 * length (workers s1))
   <= length segs)%nat ->
  forall i w, workers (run_schedule (concat segs) s1) !! i = Some w -> w_pc w = PDone.
Proof.
  intros Hlaunch Hz Hlen Hcov Hm i w Hw.
  destruct (launched_fair s1 (launch_state_launched env s0 s1 Hlaunch) Hz Hlen)
    as (Hinv & Hp & Hr).
  apply (team_done_all (w_queue w) (run_schedule (concat segs) s1)) with (i := i);
    [|exact Hw|reflexivity].
  apply fair_team_done; [exact Hinv| |].
  - eapply Forall_impl; [exact Hcov|]. intros seg Hseg k wk Hk _.
    apply Hseg. eapply lookup_lt_Some, Hk.
  - unfold progress_measure. rewrite Hp, Hr. lia.
Qed.

Lemma all_done_team_done q s :
  (forall i w, workers s !! i = Some w -> w_pc w = PDone) -> team_done q s = true.
Proof. intros H. apply team_done_lookup. intros i w Hw _. exact (H i w Hw). Qed.

Lemma covers_two : covers 2 [1; 0]%nat.
Proof.
  intros i Hi. destruct i as [|[|i]]; [| |lia].
  - apply elem_of_cons. right. apply elem_of_cons. left. reflexivity.
  - apply elem_of_cons. left. reflexivity.
Qed.


(** ** A team with nothing to run *)

Section NothingToRun.
Context {G : JobQueueGroupType} {HG : InertGroup G}.

(** With nothing to run no job is run: the queue stays empty and the logs
    stay as they are. *)
Lemma step_nothing_to_run q i s :
  nothing_to_run q s ->
  nothing_to_run q (executeThreadWork_step i s) /\
  runs (executeThreadWork_step i s) = runs s /\
  deleted (executeThreadWork_step i s) = deleted s.
Proof.
  intros Hn. pose proof Hn as [Hq Hw0].
  open_step i s w Q Hw HQ Hpc; try (split; [exact Hn|split; reflexivity]);
    destruct (Hw0 i w Hw) as [Ewq Hpc']; rewrite Hpc in Hpc'; try contradiction;
    try (rewrite Ewq in HQ; rewrite (Hq Q HQ) in Hjobs; discriminate Hjobs).
  all: (split; [|split; reflexivity]); split;
    [ cbn; intros Q' HQ';
      first [ apply (alter_keeps m_queue) in HQ'; [|reflexivity];
              destruct HQ' as (Q0 & HQ0 & ->); exact (Hq Q0 HQ0)
            | exact (Hq Q' HQ') ]
    | cbn; intros k wk Hk; apply insert_lookup_cases in Hk;
      destruct Hk as [(-> & ->)|(_ & Hk)];
      [split; [exact Ewq|exact I]|exact (Hw0 k wk Hk)] ].
Qed.

Lemma run_nothing_to_run q sched : forall s,
  nothing_to_run q s ->
  nothing_to_run q (run_schedule sched s) /\
  runs (run_schedule sched s) = runs s /\
  deleted (run_schedule sched s) = deleted s.
Proof.
  induction sched as [|i sched IH]; intros s Hn; [split; [exact Hn|split; reflexivity]|].
  rewrite run_schedule_cons.
  destruct (step_nothing_to_run q i s Hn) as (H1 & H2 & H3).
  destruct (IH _ H1) as (H4 & H5 & H6). split; [exact H4|]. split; congruence.
Qed.
End NothingToRun.

(** * The claims *)

(** C1 ([NumaJobQueueGroup::assist]).  Specified: [assist] goes round the
    sibling queues, pops and runs a job of one of them, and says false only
    when none of them has work.  The source does neither: for the group of two
    queues whose second queue holds a job, [assist(0)] says false and leaves
    that job where it is, although [try_run] on the sibling would have run
    it. *)
Theorem numa_assist_ignores_pending_work :
  NumaJobQueueGroup.assist 0 two_queues = (false, two_queues) /\
  (exists Q, queues two_queues !! 1%nat = Some Q /\ m_queue Q <> []) /\
  (exists s', try_run 1 two_queues = Some (true, s') /\
              runs s' = [(Job 1 [(0%nat, leaf 2)] true, true)]).
Proof.
  split; [reflexivity|]. split.
  - eexists. split; [reflexivity|]. discriminate.
  - eexists. split; reflexivity.
Qed.

(** Whatever the group and the caller, [NumaJobQueueGroup::assist] says
    false and changes nothing. *)
Lemma numa_assist_false qid s : NumaJobQueueGroup.assist qid s = (false, s).
Proof. reflexivity. Qed.

(** C2 ([numaLoop] with numberOfThreads = 0).  Specified: the call fails
    with a configuration error before any worker starts.  It does not: with a
    runtime that forms its default team of two threads for num_threads(0),
    the call on an empty queue starts two workers, both run
    [executeThreadWork] to their return, and the call returns normally. *)
Lemma numaLoop_zero_threads_starts_workers :
  length (workers (numaLoop_begin (runtime 2 1) 0 0 0 idle_system)) = 2%nat /\
  exists s',
    numaLoop (G:=DefaultGroup) (runtime 2 1) 0 0 0
      [0; 1; 0; 1; 0; 1; 0; 1; 0; 1; 0; 1]%nat idle_system = Returned s' /\
    Forall (fun w => w_pc w = PDone /\ exit_path 2 (w_trace w)) (workers s').
Proof.
  split; [reflexivity|].
  eexists. split; [vm_compute; reflexivity|].
  repeat constructor; exists O; eexists; reflexivity.
Qed.

(** C2, as the source has it.  [numaLoop] does not look at numberOfThreads:
    zero goes into num_threads like any other value and no error is reported.
    Whatever team the runtime forms for num_threads(0), of [n] threads, that
    many workers start [executeThreadWork] on the queue, tied to numaNode.  On
    an empty queue with nobody idle, along every fair schedule (stretches in
    each of which every worker steps at least once) of ten stretches per worker
    and two for every step the jobs pending on other queues could cause, each
    of them has found no job, become idle, seen the whole team idle, asked the
    group and returned, no job has been run, and the call returns normally; in
    lock step six turns each are enough.  A request that gets the same team
    behaves the same. *)
Theorem numaLoop_zero_threads_unchecked {G : JobQueueGroupType} {HG : NoAssistGroup G}
    (env : environment) (q : nat) (numaNode : Z) (s : system) (Q : JobQueueT) :
  workers s = [] ->
  queues s !! q = Some Q -> m_queue Q = [] -> m_idle_count Q = 0 ->
  Z.of_nat (omp_team_size env (Some 0)) < 2 ^ 32 ->
  let n := omp_team_size env (Some 0) in
  workers (numaLoop_begin env q numaNode 0 s)
  = replicate n (numa_worker q numaNode n PStart []) /\
  (forall segs : list (list nat),
      Forall (covers n) segs ->
      (2 * (list_sum (map queue_cost (queues s)) + 5 * n) <= length segs)%nat ->
      exists s',
        numaLoop env q numaNode 0 (concat segs) s = Returned s' /\
        length (workers s') = n /\
        (forall i w, workers s' !! i = Some w ->
           w_queue w = q /\ w_node w = Some numaNode /\
           w_pc w = PDone /\ exit_path (Z.of_nat n) (w_trace w)) /\
        runs s' = runs s /\ deleted s' = deleted s) /\
  (exists s',
      numaLoop env q numaNode 0 (turns n 6) s = Returned s' /\
      workers s' = replicate n (numa_worker q numaNode n PDone (idle_trace n)) /\
      runs s' = runs s /\ deleted s' = deleted s) /\
  (forall numberOfThreads sched,
      omp_team_size env (Some numberOfThreads) = n ->
      numaLoop env q numaNode numberOfThreads sched s
      = numaLoop env q numaNode 0 sched s).
Proof.
  intros Hws HQ Hjobs Hidle Hn n. subst n.
  remember (omp_team_size env (Some 0)) as n eqn:En.
  assert (numaLoop_begin env q numaNode 0 s
          = team_state (queues s) q Q 0 n (numa_worker q numaNode n PStart [])
              (numa_worker q numaNode n PStart []) (runs s) (deleted s)) as Hbegin.
  { unfold numaLoop_begin, omp_parallel, with_workers, team_state. rewrite <- En.
    rewrite Hws, Nat.sub_0_r, (list_insert_id _ _ _ HQ). reflexivity. }
  assert (workers (numaLoop_begin env q numaNode 0 s)
          = replicate n (numa_worker q numaNode n PStart [])) as Hteam.
  { rewrite Hbegin. unfold team_state. cbn. rewrite Nat.sub_0_r. reflexivity. }
  split; [exact Hteam|]. split; [|split].
  - (* every fair schedule *)
    intros segs Hcov Hm.
    set (s1 := numaLoop_begin env q numaNode 0 s) in *.
    assert (queues s1 = queues s) as Hqs by reflexivity.
    assert (length (workers s1) = n) as Hlen by (rewrite Hteam; apply length_replicate).
    assert (forall i w, workers s1 !! i = Some w ->
              w = numa_worker q numaNode n PStart []) as Hw1.
    { intros i w Hw. rewrite Hteam in Hw. apply lookup_replicate in Hw. tauto. }
    assert (launch_state env s s1) as HL.
    { split; [exact Hws|]. right. left. exists q, numaNode, 0. reflexivity. }
    assert (forall i w, workers (run_schedule (concat segs) s1) !! i = Some w ->
                        w_pc w = PDone) as Hd.
    { apply (launch_fair_done env s s1 segs HL).
      - intros i w Hw. rewrite (Hw1 i w Hw), Hqs. exists Q. split; assumption.
      - rewrite Hlen. exact Hn.
      - rewrite Hlen. exact Hcov.
      - rewrite Hlen, Hqs. exact Hm. }
    destruct (run_nothing_to_run (HG:=NoAssistGroup_inert G HG) q (concat segs) s1)
      as ((Hempty & _) & Hruns & Hdel).
    { split.
      - rewrite Hqs. intros Q' HQ'. rewrite HQ in HQ'. injection HQ' as <-. exact Hjobs.
      - intros i w Hw. rewrite (Hw1 i w Hw). split; [reflexivity|exact I]. }
    exists (run_schedule (concat segs) s1). split; [|split; [|split; [|split]]].
    + unfold numaLoop. fold s1. unfold launch_end.
      rewrite (all_done_team_done q _ Hd).
      assert (is_Some (queues (run_schedule (concat segs) s1) !! q)) as [Q' HQ'].
      { apply lookup_lt_is_Some. rewrite run_length_queues, Hqs.
        eapply lookup_lt_Some, HQ. }
      rewrite HQ', (Hempty Q' HQ'). reflexivity.
    + rewrite (run_length_workers (HG:=NoAssistGroup_inert G HG)). exact Hlen.
    + intros i w Hw.
      destruct (run_static (HG:=NoAssistGroup_inert G HG) (concat segs) s1 i w Hw)
        as (w0 & Hw0 & Eq & Et & Enode).
      rewrite (Hw1 i w0 Hw0) in Eq, Et, Enode. cbn in Eq, Et, Enode.
      split; [symmetry; exact Eq|]. split; [symmetry; exact Enode|].
      split; [exact (Hd i w Hw)|].
      destruct (run_exit_inv (HG:=NoAssistGroup_inert G HG) (concat segs) s1
                  (launched_exit_inv s1 (launch_state_launched env s s1 HL)))
        as (_ & _ & Htr).
      specialize (Htr i w Hw). unfold trace_ok in Htr. rewrite (Hd i w Hw) in Htr.
      replace (Z.of_nat n) with (team_N w); [exact Htr|].
      unfold team_N. rewrite <- Et. apply to_unsigned_small. lia.
    + exact Hruns.
    + exact Hdel.
  - (* lock step *)
    unfold numaLoop. rewrite Hbegin.
    destruct Q as [jobs nt0 idle id0]. cbn in Hjobs, Hidle. subst jobs idle.
    rewrite (empty_team_returns (queues s) q numaNode n (runs s) (deleted s) id0
               (lookup_lt_Some _ _ _ HQ) Hn nt0 _ (numa_worker q numaNode n PStart [])).
    eexists. split; [|split; [|split]].
    + unfold launch_end, team_done, team_state. cbn [workers queues].
      rewrite Nat.sub_diag, app_nil_r.
      rewrite (list_lookup_insert_eq _ _ _ (lookup_lt_Some _ _ _ HQ)).
      replace (forallb _ (replicate n _)) with true; [reflexivity|].
      symmetry. apply forallb_forall. intros w Hin.
      apply list_elem_of_In, elem_of_replicate in Hin. destruct Hin as [-> _].
      cbn. apply orb_true_r.
    + reflexivity.
    + reflexivity.
    + reflexivity.
  - intros numberOfThreads sched E. unfold numaLoop, numaLoop_begin.
    rewrite E, En. reflexivity.
Qed.

Lemma numaLoop_zero_threads_unchecked_witness :
  let segs := replicate 20 [1; 0; 0]%nat in
  workers idle_system = [] /\
  Z.of_nat (omp_team_size (runtime 2 1) (Some 0)) < 2 ^ 32 /\
  Forall (covers (omp_team_size (runtime 2 1) (Some 0%Z))) segs /\
  (2 * (list_sum (map queue_cost (queues idle_system))
        + 5 * omp_team_size (runtime 2 1) (Some 0%Z)) <= length segs)%nat /\
  exists s',
    numaLoop (G:=NumaGroup) (runtime 2 1) 0 7 0 (concat segs) idle_system = Returned s' /\
    length (workers s') = 2%nat /\
    (forall i w, workers s' !! i = Some w ->
       w_queue w = 0%nat /\ w_node w = Some 7 /\
       w_pc w = PDone /\ exit_path 2 (w_trace w)) /\
    runs s' = [] /\ deleted s' = [].
Proof.
  intros segs.
  assert (Z.of_nat (omp_team_size (runtime 2 1) (Some 0)) < 2 ^ 32) as Hn
    by (vm_compute; reflexivity).
  assert (Forall (covers (omp_team_size (runtime 2 1) (Some 0%Z))) segs) as Hcov.
  { apply Forall_replicate. intros i Hi.
    change (omp_team_size (runtime 2 1) (Some 0%Z)) with 2%nat in Hi.
    destruct i as [|[|i]]; [| |lia].
    - apply elem_of_cons. right. apply elem_of_cons. left. reflexivity.
    - apply elem_of_cons. left. reflexivity. }
  assert (2 * (list_sum (map queue_cost (queues idle_system))
               + 5 * omp_team_size (runtime 2 1) (Some 0%Z)) <= length segs)%nat as Hm
    by (vm_compute; lia).
  split; [reflexivity|]. split; [exact Hn|]. split; [exact Hcov|]. split; [exact Hm|].
  exact (proj1 (proj2 (numaLoop_zero_threads_unchecked (G:=NumaGroup) (runtime 2 1)
                         0 7 idle_system JobQueueT_new
                         eq_refl eq_refl eq_refl eq_refl Hn)) segs Hcov Hm).
Defined.

(** C3.  A worker leaves [executeThreadWork] one way only.  Whatever the
    schedule, the record of a worker that has returned ends with: a try_pop of
    the retry loop that failed, the check that found the idle counter equal to
    [m_numthrs], both being the number of workers of its queue, calls of the
    group's [assist] that said true, one that said false, and the return. *)
Theorem exit_only_after_assist {G : JobQueueGroupType} {HG : InertGroup G}
    (env : environment) (s0 s1 : system) (sched : list nat) (i : nat) (w : worker) :
  launch_state env s0 s1 ->
  Z.of_nat (length (workers s1)) < 2 ^ 32 ->
  workers (run_schedule sched s1) !! i = Some w ->
  w_pc w = PDone ->
  exit_path (Z.of_nat (count_team (w_queue w) (workers s1))) (w_trace w).
Proof.
  intros Hlaunch Hlen Hw Hpc.
  pose proof (launch_state_launched env s0 s1 Hlaunch) as Hl.
  destruct (run_exit_inv sched s1 (launched_exit_inv s1 Hl)) as (_ & _ & Htr).
  specialize (Htr i w Hw). unfold trace_ok in Htr. rewrite Hpc in Htr.
  destruct (run_static sched s1 i w Hw) as (w0 & Hw0 & Eq & Et & _).
  destruct (Hl i w0 Hw0) as (_ & _ & Hteam).
  replace (Z.of_nat (count_team (w_queue w) (workers s1))) with (team_N w);
    [exact Htr|].
  unfold team_N. rewrite <- Et, Hteam, Eq.
  apply to_unsigned_small.
  pose proof (count_if_length (on_queue (w_queue w)) (workers s1)).
  unfold count_team. lia.
Qed.

Lemma exit_only_after_assist_witness :
  let s1 := loop_begin (runtime 4 1) 0 fan_out in
  launch_state (runtime 4 1) fan_out s1 /\
  Z.of_nat (length (workers s1)) < 2 ^ 32 /\
  exists w,
    workers (run_schedule (G:=DefaultGroup) (turns 4 20) s1) !! 1%nat = Some w /\
    w_pc w = PDone /\
    exit_path 4 (w_trace w).
Proof.
  assert (launch_state (runtime 4 1) fan_out (loop_begin (runtime 4 1) 0 fan_out)) as HL.
  { split; [reflexivity|]. left. exists 0%nat. reflexivity. }
  assert (Z.of_nat (length (workers (loop_begin (runtime 4 1) 0 fan_out))) < 2 ^ 32)
    as Hlen by (vm_compute; reflexivity).
  split; [exact HL|]. split; [exact Hlen|].
  eexists. split; [vm_compute; reflexivity|]. split; [reflexivity|].
  refine (exit_only_after_assist (G:=DefaultGroup) (runtime 4 1) fan_out _
            (turns 4 20) 1 _ HL Hlen _ _).
  - vm_compute. reflexivity.
  - reflexivity.
Defined.

(** When only the workers of queue [q] enqueue on [q], the queue is empty
    once all of them have returned: the assertion at the end of [loop] and
    [numaLoop] holds. *)
Lemma drained_when_isolated {G : JobQueueGroupType} {HG : InertGroup G}
    (env : environment) (s0 s1 : system) (sched : list nat) (q : nat) :
  launch_state env s0 s1 ->
  isolated q s1 ->
  (1 <= count_team q (workers s1))%nat ->
  team_done q (run_schedule sched s1) = true ->
  forall Q, queues (run_schedule sched s1) !! q = Some Q -> m_queue Q = [].
Proof.
  intros Hlaunch Hiso Hteam Hdone.
  pose proof (launch_state_launched env s0 s1 Hlaunch) as Hl.
  apply (run_drain_inv q sched s1).
  - apply launched_jobs_confined; assumption.
  - apply launched_drain_inv; assumption.
  - apply team_done_finishing. exact Hdone.
Qed.

Lemma assertion_holds_when_isolated {G : JobQueueGroupType} {HG : InertGroup G}
    (env : environment) (s0 s1 : system) (sched : list nat) (q : nat) :
  launch_state env s0 s1 ->
  isolated q s1 ->
  (1 <= count_team q (workers s1))%nat ->
  forall s', launch_end q (run_schedule sched s1) <> AssertionFailed s'.
Proof.
  intros Hlaunch Hiso Hteam s'. unfold launch_end.
  destruct (team_done q (run_schedule sched s1)) eqn:Hdone; [|discriminate].
  destruct (queues (run_schedule sched s1) !! q) as [Q|] eqn:HQ; [|discriminate].
  rewrite (drained_when_isolated env s0 s1 sched q Hlaunch Hiso Hteam Hdone Q HQ).
  discriminate.
Qed.

(** The standard [JobQueue]: one queue, the default group, jobs that enqueue
    on the queue that runs them.  The assertion at the end of [loop] holds
    along every schedule. *)
Lemma loop_assertion_holds (env : environment) (Q : JobQueueT) (sched : list nat) :
  (1 <= omp_team_size env None)%nat ->
  (forall j, j ∈ m_queue Q -> confined 0 0 j = true) ->
  forall s', loop (G:=DefaultGroup) env 0 sched (system_of [Q]) <> AssertionFailed s'.
Proof.
  intros Hteam Hjobs. unfold loop.
  apply (assertion_holds_when_isolated env (system_of [Q])).
  - split; [reflexivity|]. left. exists 0%nat. reflexivity.
  - intros q' Q' j HQ' Hj. destruct q' as [|q']; cbn in HQ'; [|destruct q'; discriminate].
    injection HQ' as <-. cbn in Hj. apply Hjobs, Hj.
  - cbn. unfold count_team. rewrite count_if_replicate. cbn. exact Hteam.
Qed.

(** C4 (the queue is empty when a launch ends).  Specified, and asserted at
    the end of [loop] and [numaLoop]: no job is pending when the workers have
    returned.  In a group of two queues a job of the second queue enqueues on
    the first after the worker of the first has seen its queue empty for the
    last time: that worker returns, [numaLoop] of the first queue ends with
    the job pending, its assertion fails, and the job is never run although
    every worker of the group has returned. *)
Theorem numaLaunch_leaves_job_pending :
  exists s',
    numaLaunch (G:=NumaGroup) (runtime 2 2) late_enqueue two_queues
    = Some [AssertionFailed s'; Returned s'] /\
    Forall (fun w => w_pc w = PDone) (workers s') /\
    m_queue <$> queues s' !! 0%nat = Some [leaf 2] /\
    runs s' = [(Job 1 [(0%nat, leaf 2)] true, true)].
Proof.
  eexists. split; [vm_compute; reflexivity|].
  split; [repeat constructor|]. split; reflexivity.
Qed.

(** C5.  With T = omp_get_max_threads() threads and K queues, 1 <= K <= T,
    [calcThreadNum(k, K)] is floor(T/K), plus one for the queues
    k < T mod K, and the counts of the K queues add up to T. *)
Theorem calcThreadNum_balanced (env : environment) (K : Z) :
  1 <= K <= omp_get_max_threads env ->
  omp_get_max_threads env < 2 ^ 31 ->
  (forall k, 0 <= k < K ->
     calcThreadNum env k K =
       Some (omp_get_max_threads env / K
             + (if k <? omp_get_max_threads env mod K then 1 else 0))) /\
  calcThreadNum_total env K = Some (omp_get_max_threads env).
Proof.
  intros HK HT. split.
  - intros k _. apply calcThreadNum_value; assumption.
  - unfold calcThreadNum_total.
    rewrite (calcThreadNum_partial_sum env K (Z.to_nat K) 0 HK HT).
    f_equal. rewrite Z2Nat.id by lia.
    pose proof (Z.mod_pos_bound (omp_get_max_threads env) K).
    pose proof (Z.div_mod (omp_get_max_threads env) K).
    lia.
Qed.

Lemma calcThreadNum_balanced_witness :
  (1 <= 3 <= omp_get_max_threads (runtime 8 2)) /\
  calcThreadNum (runtime 8 2) 0 3 = Some 3 /\
  calcThreadNum (runtime 8 2) 1 3 = Some 3 /\
  calcThreadNum (runtime 8 2) 2 3 = Some 2 /\
  calcThreadNum_total (runtime 8 2) 3 = Some 8.
Proof.
  assert (1 <= 3 <= omp_get_max_threads (runtime 8 2)) as HK by (cbn; lia).
  assert (omp_get_max_threads (runtime 8 2) < 2 ^ 31) as HT by (cbn; lia).
  pose proof (calcThreadNum_balanced (runtime 8 2) 3 HK HT) as [Hk Hsum].
  split; [exact HK|].
  split; [exact (Hk 0 ltac:(lia))|].
  split; [exact (Hk 1 ltac:(lia))|].
  split; [exact (Hk 2 ltac:(lia))|exact Hsum].
Defined.

(** C6.  [numaLaunch], for K registered queues and R >= 1 configured NUMA
    nodes: the call for the k-th queue, every k < K, is
    [m_queues[k]->numaLoop(k mod R, nodeThreads)]; it starts on that queue the
    team the runtime forms for that request, and the workers of the queue are
    these and no others, each tied to node k mod R and at the start of
    [executeThreadWork]; also when R < K. *)
Theorem numaLaunch_node_mapping (env : environment) (s0 s1 : system) (k : nat) :
  1 <= numa_num_configured_nodes env ->
  workers s0 = [] ->
  numaLaunch_begin env s0 = Some s1 ->
  (k < length (queues s0))%nat ->
  exists nodeThreads,
    numaLaunch_calls env (Z.of_nat (length (queues s0))) !! k
    = Some (k, Z.of_nat k mod numa_num_configured_nodes env, nodeThreads) /\
    count_team k (workers s1) = omp_team_size env (Some nodeThreads) /\
    (forall w, w ∈ workers s1 -> w_queue w = k ->
       w = numa_worker k (Z.of_nat k mod numa_num_configured_nodes env)
             (omp_team_size env (Some nodeThreads)) PStart []).
Proof.
  intros HR Hws Hbegin Hk.
  set (K := Z.of_nat (length (queues s0))) in *.
  assert (forall k' : nat,
             (numaLaunch_call env K k').1.2
             = Z.of_nat k' mod numa_num_configured_nodes env) as Hnode.
  { intros k'. cbn. unfold realNumaNodes.
    destruct (numa_num_configured_nodes env <? 1) eqn:E; [lia|].
    apply Z.rem_mod_nonneg; lia. }
  assert (Z.to_nat K = length (queues s0)) as EK by (unfold K; apply Nat2Z.id).
  unfold numaLaunch_begin in Hbegin. fold K in Hbegin.
  destruct (K =? 0); [discriminate|]. injection Hbegin as <-.
  exists (numaLaunch_call env K k).2. split; [|split].
  - rewrite numaLaunch_calls_lookup by (rewrite EK; exact Hk).
    rewrite <- Hnode. reflexivity.
  - unfold numaLaunch_calls. rewrite numaLaunch_teams_count, Hws.
    case_decide; [reflexivity|lia].
  - intros w Hin Hq.
    apply numaLaunch_teams_workers in Hin.
    destruct Hin as [Hin|(k' & _ & ->)].
    + rewrite Hws in Hin. apply elem_of_nil in Hin. contradiction.
    + cbn in Hq. subst k'. unfold numa_worker. rewrite Hnode. reflexivity.
Qed.

Lemma numaLaunch_node_mapping_witness :
  exists s1,
    numaLaunch_begin (runtime 4 2) three_queues = Some s1 /\
    exists nodeThreads,
      numaLaunch_calls (runtime 4 2) 3 !! 2%nat = Some (2%nat, 0, nodeThreads) /\
      count_team 2 (workers s1) = omp_team_size (runtime 4 2) (Some nodeThreads) /\
      (forall w, w ∈ workers s1 -> w_queue w = 2%nat ->
         w = numa_worker 2 0 (omp_team_size (runtime 4 2) (Some nodeThreads)) PStart []).
Proof.
  eexists. split; [reflexivity|].
  refine (numaLaunch_node_mapping (runtime 4 2) three_queues _ 2 _ _ _ _).
  - cbn. lia.
  - reflexivity.
  - reflexivity.
  - cbn. lia.
Defined.




(** C8.  The engine deletes a job exactly when its run returned true: along
    every schedule the deletes are, in order, the runs that returned true (a
    run that returned false deletes nothing), and so for [try_run]. *)
Theorem delete_iff_destroy {G : JobQueueGroupType} {HG : InertGroup G} :
  (forall (env : environment) (s0 s1 : system) (sched : list nat),
      launch_state env s0 s1 -> runs s0 = [] -> deleted s0 = [] ->
      deleted (run_schedule sched s1) = destroyed (runs (run_schedule sched s1))) /\
  (forall i s,
      (runs (executeThreadWork_step i s) = runs s /\ deleted (executeThreadWork_step i s) = deleted s) \/
      (exists j, runs (executeThreadWork_step i s) = (j, job_destroy j) :: runs s /\
                 deleted (executeThreadWork_step i s)
                 = if job_destroy j then j :: deleted s else deleted s)) /\
  (forall q s b s',
      try_run q s = Some (b, s') ->
      (s' = s /\ m_queue <$> queues s !! q = Some []) \/
      (exists j, runs s' = (j, job_destroy j) :: runs s /\
                 deleted s' = if job_destroy j then j :: deleted s else deleted s)).
Proof.
  split; [|split].
  - intros env s0 s1 sched Hlaunch Hr Hd. apply run_deleted.
    assert (runs s1 = runs s0 /\ deleted s1 = deleted s0) as [-> ->].
    { destruct Hlaunch as [_ [[q ->]|[(q & node & n & ->)|H]]]; try (split; reflexivity).
      unfold numaLaunch_begin in H.
      destruct (Z.of_nat (length (queues s0)) =? 0); [discriminate|].
      injection H as <-.
      generalize (numaLaunch_calls env (Z.of_nat (length (queues s0)))).
      intros cs. revert s0 Hr Hd.
      induction cs as [|c cs IH]; intros s0 Hr Hd; cbn [foldl]; [split; reflexivity|].
      destruct (IH (numaLoop_begin env c.1.1 c.1.2 c.2 s0) Hr Hd) as [-> ->].
      split; reflexivity. }
    rewrite Hr, Hd. reflexivity.
  - intros i s.
    open_step i s w Q Hw HQ Hpc; cbn; try (left; split; reflexivity).
    right. eexists. split; reflexivity.
  - intros q s b s' H. unfold try_run in H.
    destruct (queues s !! q) as [Q|] eqn:HQ; [|discriminate].
    unfold try_pop in H. destruct (m_queue Q) as [|j rest] eqn:Hq; inversion H; subst.
    + left. split; [reflexivity|]. cbn. rewrite Hq. reflexivity.
    + right. exists j. cbn.
      destruct (foldl_enqueue_logs (job_spawns j)
                  (upd_queue q (fun _ => set_queue rest Q) s)) as [-> ->].
      split; reflexivity.
Qed.

Lemma delete_iff_destroy_witness :
  let s1 := loop_begin (runtime 4 1) 0 fan_out in
  launch_state (runtime 4 1) fan_out s1 /\
  deleted (run_schedule (G:=DefaultGroup) (turns 4 20) s1)
  = destroyed (runs (run_schedule (G:=DefaultGroup) (turns 4 20) s1)) /\
  length (deleted (run_schedule (G:=DefaultGroup) (turns 4 20) s1)) = 10%nat.
Proof.
  assert (launch_state (runtime 4 1) fan_out (loop_begin (runtime 4 1) 0 fan_out)) as HL.
  { split; [reflexivity|]. left. exists 0%nat. reflexivity. }
  split; [exact HL|]. split.
  - exact (proj1 (delete_iff_destroy (G:=DefaultGroup)) (runtime 4 1) fan_out _
             (turns 4 20) HL eq_refl eq_refl).
  - vm_compute. reflexivity.
Defined.

(** C9.  [DefaultJobQueueGroup::assist] says false for every queue id and
    leaves every queue as it is; a worker of such a queue that asks its group
    returns, and its step changes no queue and nothing of the logs. *)
Theorem default_assist_no_help :
  (forall qid s, DefaultJobQueueGroup.assist qid s = (false, s)) /\
  (forall i s w Q,
      workers s !! i = Some w -> queues s !! w_queue w = Some Q ->
      w_pc w = PAssist ->
      let s' := executeThreadWork_step (G:=DefaultGroup) i s in
      queues s' = queues s /\ runs s' = runs s /\ deleted s' = deleted s /\
      workers s' = <[i:=at_pc PDone [OReturn; OAssist false] w]> (workers s)).
Proof.
  split; [reflexivity|].
  intros i s w Q Hw HQ Hpc. unfold executeThreadWork_step. rewrite Hw, HQ, Hpc. cbn.
  repeat split; reflexivity.
Qed.

Lemma default_assist_no_help_witness :
  let s := run_schedule (G:=DefaultGroup) [0; 0; 0; 0; 0]%nat
             (loop_begin (runtime 1 1) 0 idle_system) in
  exists w Q,
    workers s !! 0%nat = Some w /\ queues s !! w_queue w = Some Q /\
    w_pc w = PAssist /\
    queues (executeThreadWork_step (G:=DefaultGroup) 0 s) = queues s.
Proof.
  eexists. eexists.
  split; [reflexivity|]. split; [reflexivity|]. split; [reflexivity|].
  refine (proj1 (proj2 default_assist_no_help 0%nat _ _ _ _ _ _));
    reflexivity.
Defined.

(** C10.  [numaLaunch] asks for at least one thread for every registered
    queue: the call for queue k < K is [numaLoop(_, nodeThreads)] with
    nodeThreads >= 1, and when there are fewer threads than queues (so that
    floor(T/K) is zero) every queue is launched with exactly one thread, the
    queues without a share of their own included; the workers started on
    queue k are the team the runtime forms for that request. *)
Theorem numaLaunch_at_least_one_thread (env : environment) (s0 s1 : system) (k : nat) :
  0 <= omp_get_max_threads env ->
  workers s0 = [] ->
  numaLaunch_begin env s0 = Some s1 ->
  (k < length (queues s0))%nat ->
  exists numaNode nodeThreads,
    numaLaunch_calls env (Z.of_nat (length (queues s0))) !! k
    = Some (k, numaNode, nodeThreads) /\
    1 <= nodeThreads /\
    (omp_get_max_threads env < Z.of_nat (length (queues s0)) -> nodeThreads = 1) /\
    count_team k (workers s1) = omp_team_size env (Some nodeThreads).
Proof.
  intros HT Hws Hbegin Hk.
  set (K := Z.of_nat (length (queues s0))) in *.
  exists (numaLaunch_call env K k).1.2, (numaLaunch_call env K k).2.
  split; [rewrite numaLaunch_calls_lookup by (unfold K; rewrite Nat2Z.id; exact Hk);
          reflexivity|].
  assert (0 < K) as HK by (unfold K; lia).
  split; [|split].
  - cbn. rewrite Z.quot_div_nonneg, Z.rem_mod_nonneg by lia.
    pose proof (Z.div_pos (omp_get_max_threads env) K HT HK) as Hq.
    destruct (Z.of_nat k <? _); destruct (_ =? 0) eqn:E; lia.
  - intros Hlt. cbn. rewrite Z.quot_div_nonneg, Z.rem_mod_nonneg by lia.
    rewrite Z.div_small by lia.
    destruct (Z.of_nat k <? _); reflexivity.
  - unfold numaLaunch_begin in Hbegin. fold K in Hbegin.
    destruct (K =? 0); [discriminate|]. injection Hbegin as <-.
    unfold numaLaunch_calls. rewrite numaLaunch_teams_count, Hws.
    assert (Z.to_nat K = length (queues s0)) as EK by (unfold K; apply Nat2Z.id).
    case_decide; [reflexivity|lia].
Qed.

Lemma numaLaunch_at_least_one_thread_witness :
  0 <= omp_get_max_threads (runtime 2 1) /\
  exists s1,
    numaLaunch_begin (runtime 2 1) three_queues = Some s1 /\
    exists numaNode nodeThreads,
      numaLaunch_calls (runtime 2 1) 3 !! 2%nat = Some (2%nat, numaNode, nodeThreads) /\
      1 <= nodeThreads /\
      (omp_get_max_threads (runtime 2 1) < 3 -> nodeThreads = 1) /\
      count_team 2 (workers s1) = omp_team_size (runtime 2 1) (Some nodeThreads).
Proof.
  assert (0 <= omp_get_max_threads (runtime 2 1)) as HT by (cbn; lia).
  split; [exact HT|]. eexists. split; [reflexivity|].
  refine (numaLaunch_at_least_one_thread (runtime 2 1) three_queues _ 2 HT eq_refl eq_refl _).
  cbn. lia.
Defined.

(** * More of the code *)

(** ** Registering queues *)

Lemma group_of_snoc jqs jq :
  group_of (jqs ++ [jq]) = NumaJobQueueGroup.add_jobqueue jq (group_of jqs).
Proof. unfold group_of. rewrite foldl_app. reflexivity. Qed.

Lemma group_of_length jqs : length (group_of jqs) = length jqs.
Proof.
  induction jqs as [|jq jqs IH] using rev_ind; [reflexivity|].
  rewrite group_of_snoc. unfold NumaJobQueueGroup.add_jobqueue.
  rewrite !length_app, IH. reflexivity.
Qed.

Lemma group_of_lookup jqs : forall k jq,
  jqs !! k = Some jq -> group_of jqs !! k = Some (set_id (Z.of_nat k) jq).
Proof.
  induction jqs as [|jq0 jqs IH] using rev_ind; intros k jq Hk; [discriminate|].
  rewrite group_of_snoc. unfold NumaJobQueueGroup.add_jobqueue.
  apply lookup_app_Some in Hk. destruct Hk as [Hk|[Hlen Hk]].
  - apply lookup_app_l_Some. apply IH, Hk.
  - destruct (k - length jqs)%nat as [|m] eqn:E; [|destruct m; discriminate].
    injection Hk as <-.
    assert (k = length jqs) as -> by lia.
    rewrite lookup_app_r by (rewrite group_of_length; lia).
    rewrite group_of_length, Nat.sub_diag. reflexivity.
Qed.

(** X1.  [add_jobqueue] hands out dense ids: in a group filled from empty
    with at most 2^32 queues, each a different object, the k-th registered
    queue sits at index k of [m_queues], carries [m_id] = k, and is otherwise
    as it was handed in; the group has as many entries as were registered. *)
Theorem add_jobqueue_dense_ids (jqs : list JobQueueT) (k : nat) (jq : JobQueueT) :
  Z.of_nat (length jqs) <= 2 ^ 32 ->
  jqs !! k = Some jq ->
  length (group_of jqs) = length jqs /\
  exists Q, group_of jqs !! k = Some Q /\
    m_id Q = Z.of_nat k /\
    m_queue Q = m_queue jq /\ m_numthrs Q = m_numthrs jq /\
    m_idle_count Q = m_idle_count jq.
Proof.
  intros Hlen Hk. split; [apply group_of_length|].
  exists (set_id (Z.of_nat k) jq). split; [apply group_of_lookup, Hk|].
  split; [|repeat split].
  cbn. apply to_unsigned_small. apply lookup_lt_Some in Hk. lia.
Qed.

Lemma add_jobqueue_dense_ids_witness :
  let jqs := [JobQueueT_new; enqueue (leaf 7) JobQueueT_new; JobQueueT_new] in
  Z.of_nat (length jqs) <= 2 ^ 32 /\
  exists Q, group_of jqs !! 1%nat = Some Q /\
    m_id Q = 1 /\ m_queue Q = [leaf 7] /\ m_numthrs Q = 0 /\ m_idle_count Q = 0.
Proof.
  assert (Z.of_nat (length [JobQueueT_new; enqueue (leaf 7) JobQueueT_new; JobQueueT_new])
          <= 2 ^ 32) as Hlen by (vm_compute; discriminate).
  split; [exact Hlen|].
  exact (proj2 (add_jobqueue_dense_ids _ 1 (enqueue (leaf 7) JobQueueT_new) Hlen eq_refl)).
Defined.

(** ** The round of assist *)

Lemma assist_next size id :
  0 <= id < size -> size < 2 ^ 32 ->
  (if size <=? to_unsigned (id + 1) then 0 else to_unsigned (id + 1))
  = (id + 1) mod size.
Proof.
  intros Hid Hsize. rewrite to_unsigned_small by lia.
  destruct (size <=? id + 1) eqn:E.
  - assert (id + 1 = size) as -> by lia. symmetry. apply Z.mod_same. lia.
  - symmetry. apply Z.mod_small. lia.
Qed.

Lemma assist_loop_closed n : forall size id,
  0 <= id < size -> size < 2 ^ 32 ->
  NumaJobQueueGroup.assist_loop n size id = (id + Z.of_nat n) mod size.
Proof.
  induction n as [|n IH]; intros size id Hid Hsize.
  - cbn. rewrite Z.add_0_r. symmetry. apply Z.mod_small. exact Hid.
  - cbn [NumaJobQueueGroup.assist_loop]. rewrite assist_next by assumption.
    rewrite IH by (try apply Z.mod_pos_bound; lia).
    rewrite Zplus_mod_idemp_l. f_equal. lia.
Qed.

Lemma assist_ids_closed n : forall size id,
  0 <= id < size -> size < 2 ^ 32 ->
  assist_ids n size id = map (fun i => (id + Z.of_nat i) mod size) (seq 1 n).
Proof.
  induction n as [|n IH]; intros size id Hid Hsize; [reflexivity|].
  cbn [assist_ids seq map]. rewrite assist_next by assumption.
  f_equal. rewrite IH by (try apply Z.mod_pos_bound; lia).
  rewrite <- (seq_shift n 1), map_map. apply map_ext. intros i.
  rewrite Zplus_mod_idemp_l. f_equal. lia.
Qed.

(** X2.  The loop of [NumaJobQueueGroup::assist], for a registered queue
    [qid] of a group of [size] queues: [id] goes through qid+1, qid+2, ...
    modulo [size]; it takes the id of every sibling exactly once, never that
    of the caller, and ends at the queue before the caller. *)
Theorem assist_round_robin (size qid : Z) :
  0 <= qid < size -> size < 2 ^ 32 ->
  let ids := assist_ids (Z.to_nat (size - 1)) size qid in
  ids = map (fun i => (qid + Z.of_nat i) mod size) (seq 1 (Z.to_nat (size - 1))) /\
  (forall id, id ∈ ids <-> 0 <= id < size /\ id <> qid) /\
  NoDup ids /\
  NumaJobQueueGroup.assist_loop (Z.to_nat (size - 1)) size qid
  = (qid + size - 1) mod size.
Proof.
  intros Hqid Hsize ids.
  assert (ids = map (fun i => (qid + Z.of_nat i) mod size) (seq 1 (Z.to_nat (size - 1))))
    as Hids by (apply assist_ids_closed; assumption).
  assert (forall i : nat, (1 <= i < 1 + Z.to_nat (size - 1))%nat ->
            (qid + Z.of_nat i) mod size
            = if qid + Z.of_nat i <? size then qid + Z.of_nat i
              else qid + Z.of_nat i - size) as Hwrap.
  { intros i Hi. destruct (qid + Z.of_nat i <? size) eqn:E.
    - apply Z.mod_small. lia.
    - rewrite <- (Z_mod_plus_full _ (-1)). apply Z.mod_small. lia. }
  split; [exact Hids|]. split; [|split].
  - intros id. rewrite Hids. change (map ?f ?l) with (f <$> l).
    rewrite list_elem_of_fmap. split.
    + intros (i & -> & Hi). apply elem_of_seq in Hi. rewrite (Hwrap i Hi).
      destruct (qid + Z.of_nat i <? size) eqn:E; lia.
    + intros [Hid Hne].
      set (d := if qid <? id then id - qid else id - qid + size).
      assert (1 <= d < size) as Hd by (unfold d; destruct (qid <? id) eqn:E; lia).
      exists (Z.to_nat d).
      assert (1 <= Z.to_nat d < 1 + Z.to_nat (size - 1))%nat as Hi by lia.
      split; [|apply elem_of_seq; exact Hi].
      rewrite (Hwrap _ Hi). rewrite Z2Nat.id by lia. unfold d.
      destruct (qid <? id) eqn:E; destruct (_ <? size) eqn:E'; lia.
  - rewrite Hids. change (map ?f ?l) with (f <$> l).
    apply NoDup_fmap_2_strong; [|apply NoDup_seq].
    intros i i' Hi Hi' Heq. apply elem_of_seq in Hi, Hi'.
    rewrite (Hwrap i Hi), (Hwrap i' Hi') in Heq.
    destruct (qid + Z.of_nat i <? size) eqn:E;
      destruct (qid + Z.of_nat i' <? size) eqn:E'; lia.
  - rewrite assist_loop_closed by assumption. f_equal. lia.
Qed.

Lemma assist_round_robin_witness :
  0 <= 2 < 4 /\ 4 < 2 ^ 32 /\
  assist_ids 3 4 2 = [3; 0; 1] /\
  NumaJobQueueGroup.assist_loop 3 4 2 = 1.
Proof.
  assert (0 <= 2 < 4) as H1 by lia.
  assert (4 < 2 ^ 32) as H2 by lia.
  destruct (assist_round_robin 4 2 H1 H2) as (Hids & _ & _ & Hlast).
  split; [exact H1|]. split; [exact H2|]. split; [exact Hids|exact Hlast].
Defined.

(** ** The threads of the queues, in general *)

Lemma calcThreadNum_value_any env k K :
  1 <= K -> 0 <= omp_get_max_threads env < 2 ^ 31 ->
  calcThreadNum env k K =
    Some (omp_get_max_threads env / K
          + (if k <? omp_get_max_threads env mod K then 1 else 0)).
Proof.
  intros HK HT. unfold calcThreadNum.
  destruct (K =? 0) eqn:E; [lia|].
  rewrite Z.quot_div_nonneg, Z.rem_mod_nonneg by lia.
  assert (0 <= omp_get_max_threads env / K <= omp_get_max_threads env).
  { split; [apply Z.div_pos; lia|]. apply Z.div_le_upper_bound; nia. }
  destruct (k <? omp_get_max_threads env mod K); rewrite to_unsigned_small; try lia;
    f_equal; lia.
Qed.

Lemma calcThreadNum_partial_sum_any env K (n : nat) acc :
  1 <= K -> 0 <= omp_get_max_threads env < 2 ^ 31 ->
  foldr (fun k acc =>
           match calcThreadNum env (Z.of_nat k) K, acc with
           | Some c, Some a => Some (c + a)
           | _, _ => None
           end)
        (Some acc) (seq 0 n)
  = Some (acc + Z.of_nat n * (omp_get_max_threads env / K)
          + Z.min (Z.of_nat n) (omp_get_max_threads env mod K)).
Proof.
  intros HK HT. revert acc. induction n as [|n IH]; intros acc.
  - cbn. pose proof (Z.mod_pos_bound (omp_get_max_threads env) K). f_equal. lia.
  - rewrite seq_S, foldr_app. cbn [foldr plus].
    rewrite (calcThreadNum_value_any env (Z.of_nat n) K HK HT), IH. f_equal.
    destruct (Z.of_nat n <? omp_get_max_threads env mod K) eqn:E; lia.
Qed.

(** X3.  [calcThreadNum] for any number of queues K >= 1 and threads
    T >= 0: the counts of the K queues add up to T, they never grow with k
    and differ by at most one; with fewer threads than queues the first T
    queues get one thread and the others none. *)
Theorem calcThreadNum_any_queues (env : environment) (K : Z) :
  1 <= K -> 0 <= omp_get_max_threads env < 2 ^ 31 ->
  calcThreadNum_total env K = Some (omp_get_max_threads env) /\
  (forall k k', 0 <= k <= k' ->
     exists c c', calcThreadNum env k K = Some c /\ calcThreadNum env k' K = Some c' /\
                  c' <= c <= c' + 1) /\
  (omp_get_max_threads env < K ->
   forall k, 0 <= k ->
     calcThreadNum env k K = Some (if k <? omp_get_max_threads env then 1 else 0)).
Proof.
  intros HK HT. split; [|split].
  - unfold calcThreadNum_total.
    rewrite (calcThreadNum_partial_sum_any env K (Z.to_nat K) 0 HK HT).
    f_equal. rewrite Z2Nat.id by lia.
    pose proof (Z.mod_pos_bound (omp_get_max_threads env) K).
    pose proof (Z.div_mod (omp_get_max_threads env) K).
    lia.
  - intros k k' Hk. eexists. eexists.
    split; [apply calcThreadNum_value_any; assumption|].
    split; [apply calcThreadNum_value_any; assumption|].
    destruct (k <? _) eqn:E; destruct (k' <? _) eqn:E'; lia.
  - intros Hlt k Hk. rewrite calcThreadNum_value_any by assumption.
    rewrite Z.div_small, Z.mod_small by lia. reflexivity.
Qed.

Lemma calcThreadNum_any_queues_witness :
  1 <= 5 /\ 0 <= omp_get_max_threads (runtime 3 1) < 2 ^ 31 /\
  calcThreadNum_total (runtime 3 1) 5 = Some 3 /\
  calcThreadNum (runtime 3 1) 2 5 = Some 1 /\
  calcThreadNum (runtime 3 1) 3 5 = Some 0.
Proof.
  assert (1 <= 5) as HK by lia.
  assert (0 <= omp_get_max_threads (runtime 3 1) < 2 ^ 31) as HT by (cbn; lia).
  destruct (calcThreadNum_any_queues (runtime 3 1) 5 HK HT) as (Hsum & _ & Hfew).
  assert (omp_get_max_threads (runtime 3 1) < 5) as Hlt by (cbn; lia).
  split; [exact HK|]. split; [exact HT|]. split; [exact Hsum|].
  split; [exact (Hfew Hlt 2 ltac:(lia))|exact (Hfew Hlt 3 ltac:(lia))].
Defined.

(** ** numaLaunch against calcThreadNum *)

Lemma numaLaunch_call_threads env K (k : nat) :
  1 <= K -> 0 <= omp_get_max_threads env ->
  (numaLaunch_call env K k).2 =
    if omp_get_max_threads env <? K then 1
    else omp_get_max_threads env / K
         + (if Z.of_nat k <? omp_get_max_threads env mod K then 1 else 0).
Proof.
  intros HK HT. cbn. rewrite Z.quot_div_nonneg, Z.rem_mod_nonneg by lia.
  destruct (omp_get_max_threads env <? K) eqn:E.
  - rewrite Z.div_small by lia. destruct (Z.of_nat k <? _); reflexivity.
  - assert (1 <= omp_get_max_threads env / K)
      by (apply Z.div_le_lower_bound; lia).
    destruct (Z.of_nat k <? _); destruct (_ =? 0) eqn:E'; lia.
Qed.

Lemma numaLaunch_partial_total env K (n : nat) :
  1 <= K -> 0 <= omp_get_max_threads env ->
  foldr (fun (c : nat * Z * Z) acc => c.2 + acc) 0
        (map (numaLaunch_call env K) (seq 0 n))
  = if omp_get_max_threads env <? K then Z.of_nat n
    else Z.of_nat n * (omp_get_max_threads env / K)
         + Z.min (Z.of_nat n) (omp_get_max_threads env mod K).
Proof.
  intros HK HT.
  assert (forall acc,
             foldr (fun (c : nat * Z * Z) acc => c.2 + acc) acc
                   (map (numaLaunch_call env K) (seq 0 n))
             = acc + if omp_get_max_threads env <? K then Z.of_nat n
                     else Z.of_nat n * (omp_get_max_threads env / K)
                          + Z.min (Z.of_nat n) (omp_get_max_threads env mod K)) as H.
  { induction n as [|n IH]; intros acc.
    - cbn. pose proof (Z.mod_pos_bound (omp_get_max_threads env) K).
      destruct (_ <? K); lia.
    - rewrite seq_S, map_app, foldr_app. cbn [foldr map plus]. rewrite IH.
      rewrite (numaLaunch_call_threads env K n HK HT).
      destruct (omp_get_max_threads env <? K); [lia|].
      destruct (Z.of_nat n <? omp_get_max_threads env mod K) eqn:E; lia. }
  rewrite H. lia.
Qed.

(** X4.  [numaLaunch] follows [calcThreadNum] except where that gives zero:
    the call for queue k asks for [calcThreadNum(k, K)] threads, or for one
    thread if that is zero; in total it asks for max(T, K) threads, more than
    the T there are when the queues outnumber them. *)
Theorem numaLaunch_follows_calcThreadNum (env : environment) (K : Z) :
  1 <= K -> 0 <= omp_get_max_threads env < 2 ^ 31 ->
  (forall k : nat,
     exists c, calcThreadNum env (Z.of_nat k) K = Some c /\
               (numaLaunch_call env K k).2 = if c =? 0 then 1 else c) /\
  numaLaunch_total env K = Z.max (omp_get_max_threads env) K.
Proof.
  intros HK HT. split.
  - intros k. eexists. split; [apply calcThreadNum_value_any; assumption|].
    rewrite numaLaunch_call_threads by lia.
    destruct (omp_get_max_threads env <? K) eqn:E.
    + rewrite Z.div_small, Z.mod_small by lia.
      destruct (Z.of_nat k <? _); reflexivity.
    + assert (1 <= omp_get_max_threads env / K)
        by (apply Z.div_le_lower_bound; lia).
      destruct (Z.of_nat k <? _); destruct (_ =? 0) eqn:E'; lia.
  - unfold numaLaunch_total, numaLaunch_calls.
    rewrite numaLaunch_partial_total by lia. rewrite Z2Nat.id by lia.
    pose proof (Z.mod_pos_bound (omp_get_max_threads env) K).
    pose proof (Z.div_mod (omp_get_max_threads env) K).
    destruct (omp_get_max_threads env <? K) eqn:E; lia.
Qed.

Lemma numaLaunch_follows_calcThreadNum_witness :
  1 <= 5 /\ 0 <= omp_get_max_threads (runtime 3 1) < 2 ^ 31 /\
  numaLaunch_total (runtime 3 1) 5 = 5.
Proof.
  assert (1 <= 5) as HK by lia.
  assert (0 <= omp_get_max_threads (runtime 3 1) < 2 ^ 31) as HT by (cbn; lia).
  split; [exact HK|]. split; [exact HT|].
  exact (proj2 (numaLaunch_follows_calcThreadNum (runtime 3 1) 5 HK HT)).
Defined.

(** ** What the counters tell during a launch *)

(** When a launch starts, the counter of a queue it has reset, or that was
    zero before, is the number of its idle workers: zero. *)
Lemma launch_idle_inv env s0 s1 q :
  launch_state env s0 s1 ->
  (s1 = loop_begin env q s0 \/
   forall Q, queues s0 !! q = Some Q -> m_idle_count Q = 0) ->
  idle_inv q s1.
Proof.
  intros Hlaunch Hzero.
  apply launched_idle_inv; [exact (launch_state_launched env s0 s1 Hlaunch)|].
  destruct Hzero as [->|Hz0].
  - cbn. intros Q HQ. rewrite list_lookup_alter_eq in HQ.
    destruct (queues s0 !! q); [|discriminate]. injection HQ as <-. reflexivity.
  - destruct Hlaunch as [_ [[q' ->]|[(q' & node & n & ->)|H]]].
    + cbn. intros Q HQ. apply lookup_alter_Some in HQ.
      destruct HQ as (Q0 & HQ0 & ->). case_decide; [reflexivity|exact (Hz0 Q0 HQ0)].
    + exact Hz0.
    + unfold numaLaunch_begin in H.
      destruct (Z.of_nat (length (queues s0)) =? 0); [discriminate|].
      injection H as <-.
      assert (forall (cs : list (nat * Z * Z)) s,
                 queues (foldl (fun s c => numaLoop_begin env c.1.1 c.1.2 c.2 s) s cs)
                 = queues s) as Hq.
      { induction cs as [|c cs IH]; intros s; cbn [foldl]; [reflexivity|].
        rewrite IH. reflexivity. }
      rewrite Hq. exact Hz0.
Qed.

(** X5.  During a launch [has_idle()] says whether some worker of the queue
    is idle: between its [++m_idle_count] and its [--m_idle_count], or
    returned.  (For [numaLoop] and [numaLaunch]: on a queue whose counter was
    zero.) *)
Theorem has_idle_iff_idle_worker {G : JobQueueGroupType} {HG : InertGroup G}
    (env : environment) (s0 s1 : system) (sched : list nat) (q : nat) (Q : JobQueueT) :
  launch_state env s0 s1 ->
  (s1 = loop_begin env q s0 \/
   forall Q, queues s0 !! q = Some Q -> m_idle_count Q = 0) ->
  Z.of_nat (length (workers s1)) < 2 ^ 32 ->
  queues (run_schedule sched s1) !! q = Some Q ->
  (has_idle Q = true <->
   exists i w, workers (run_schedule sched s1) !! i = Some w /\
               w_queue w = q /\ is_idle (w_pc w) = true).
Proof.
  intros Hlaunch Hzero Hlen HQ.
  pose proof (run_idle_inv q sched s1 Hlen (launch_idle_inv env s0 s1 q Hlaunch Hzero) Q HQ)
    as Hinv.
  unfold has_idle. rewrite Hinv. unfold count_idle. split.
  - intros H. apply negb_true_iff, Z.eqb_neq in H.
    destruct (count_if_witness (fun w => on_queue q w && is_idle (w_pc w))
                (workers (run_schedule sched s1))) as (i & w & Hw & Hp); [lia|].
    apply andb_true_iff in Hp. destruct Hp as [Hq Hi].
    exists i, w. split; [exact Hw|]. split; [apply on_queue_true, Hq|exact Hi].
  - intros (i & w & Hw & Hq & Hi).
    apply negb_true_iff, Z.eqb_neq.
    pose proof (count_if_lookup (fun w => on_queue q w && is_idle (w_pc w))
                  _ i w Hw) as H.
    cbn beta in H.
    rewrite (proj2 (on_queue_true q w) Hq), Hi in H. specialize (H eq_refl). lia.
Qed.

Lemma has_idle_iff_idle_worker_witness :
  let s1 := loop_begin (runtime 4 1) 0 fan_out in
  launch_state (runtime 4 1) fan_out s1 /\
  Z.of_nat (length (workers s1)) < 2 ^ 32 /\
  exists Q,
    queues (run_schedule (G:=DefaultGroup) (turns 4 4) s1) !! 0%nat = Some Q /\
    has_idle Q = true /\
    exists i w, workers (run_schedule (G:=DefaultGroup) (turns 4 4) s1) !! i = Some w /\
                w_queue w = 0%nat /\ is_idle (w_pc w) = true.
Proof.
  assert (launch_state (runtime 4 1) fan_out (loop_begin (runtime 4 1) 0 fan_out)) as HL.
  { split; [reflexivity|]. left. exists 0%nat. reflexivity. }
  assert (Z.of_nat (length (workers (loop_begin (runtime 4 1) 0 fan_out))) < 2 ^ 32)
    as Hlen by (vm_compute; reflexivity).
  split; [exact HL|]. split; [exact Hlen|].
  eexists. split; [vm_compute; reflexivity|]. split; [reflexivity|].
  refine (proj1 (has_idle_iff_idle_worker (G:=DefaultGroup) (runtime 4 1) fan_out _
                   (turns 4 4) 0 _ HL (or_introl eq_refl) Hlen _) _).
  - vm_compute. reflexivity.
  - reflexivity.
Defined.

(** X6.  What [try_run] tells of a queue during a launch, once a worker of
    the queue has set [m_numthrs]: on an empty queue it returns false exactly
    when every worker of the queue is idle (the queue is finished) and then
    changes nothing; on a queue with a job it returns true.  (For [numaLoop]
    and [numaLaunch]: on a queue whose counter was zero when the launch
    began.) *)
Theorem try_run_false_iff_finished {G : JobQueueGroupType} {HG : InertGroup G}
    (env : environment) (s0 s1 : system) (sched : list nat) (q : nat) (Q : JobQueueT)
    (i : nat) (w : worker) :
  launch_state env s0 s1 ->
  (s1 = loop_begin env q s0 \/
   forall Q, queues s0 !! q = Some Q -> m_idle_count Q = 0) ->
  Z.of_nat (length (workers s1)) < 2 ^ 32 ->
  let s := run_schedule sched s1 in
  queues s !! q = Some Q ->
  workers s !! i = Some w -> w_queue w = q -> w_pc w <> PStart ->
  (try_run q s = Some (false, s) <->
   m_queue Q = [] /\ count_idle q (workers s) = count_team q (workers s)) /\
  (m_queue Q <> [] -> exists s', try_run q s = Some (true, s')).
Proof.
  intros Hlaunch Hzero Hlen s HQ Hw Hq Hpc.
  pose proof (launch_state_launched env s0 s1 Hlaunch) as Hl.
  pose proof (run_idle_inv q sched s1 Hlen (launch_idle_inv env s0 s1 q Hlaunch Hzero) Q HQ)
    as Hidle.
  destruct (run_exit_inv sched s1 (launched_exit_inv s1 Hl)) as (_ & Hnum & _).
  assert (m_numthrs Q = Z.of_nat (count_team q (workers s))) as Hn.
  { subst q. rewrite (Hnum i w Q Hw HQ Hpc).
    destruct (run_static sched s1 i w Hw) as (w0 & Hw0 & Eq & Et & _).
    destruct (Hl i w0 Hw0) as (_ & _ & Hteam).
    unfold team_N. rewrite <- Et, Hteam, Eq.
    unfold s. rewrite run_count_team.
    apply to_unsigned_small.
    pose proof (count_if_length (on_queue (w_queue w)) (workers s1)).
    unfold count_team. lia. }
  fold s in Hidle. unfold try_run, try_pop. rewrite HQ.
  destruct (m_queue Q) as [|j rest] eqn:Hjobs.
  - split; [|intros H; contradiction].
    rewrite Hidle, Hn. split.
    + intros H. injection H as H. apply negb_false_iff, Z.eqb_eq in H.
      split; [reflexivity|lia].
    + intros [_ E]. rewrite E, Z.eqb_refl. reflexivity.
  - split.
    + split; [discriminate|]. intros [H _]. discriminate H.
    + intros _. eexists. reflexivity.
Qed.

Lemma try_run_false_iff_finished_witness :
  let s1 := loop_begin (runtime 4 1) 0 fan_out in
  launch_state (runtime 4 1) fan_out s1 /\
  Z.of_nat (length (workers s1)) < 2 ^ 32 /\
  let s := run_schedule (G:=DefaultGroup) (turns 4 20) s1 in
  exists Q, queues s !! 0%nat = Some Q /\
    (try_run 0 s = Some (false, s) <->
     m_queue Q = [] /\ count_idle 0 (workers s) = count_team 0 (workers s)).
Proof.
  assert (launch_state (runtime 4 1) fan_out (loop_begin (runtime 4 1) 0 fan_out)) as HL.
  { split; [reflexivity|]. left. exists 0%nat. reflexivity. }
  assert (Z.of_nat (length (workers (loop_begin (runtime 4 1) 0 fan_out))) < 2 ^ 32)
    as Hlen by (vm_compute; reflexivity).
  split; [exact HL|]. split; [exact Hlen|].
  eexists. split; [vm_compute; reflexivity|].
  refine (proj1 (try_run_false_iff_finished (G:=DefaultGroup) (runtime 4 1) fan_out _
                   (turns 4 20) 0 _ 0 _ HL (or_introl eq_refl) Hlen _ _ _ _)).
  - vm_compute. reflexivity.
  - vm_compute. reflexivity.
  - reflexivity.
  - discriminate.
Defined.

(** ** Whose jobs a worker takes *)

Section OwnQueue.
Context {G : JobQueueGroupType} {HG : InertGroup G}.

Lemma step_other_queue i s q Q :
  (forall w, workers s !! i = Some w -> w_queue w <> q) ->
  queues s !! q = Some Q ->
  exists Q' l, queues (executeThreadWork_step i s) !! q = Some Q' /\
    m_queue Q' = m_queue Q ++ l /\ m_idle_count Q' = m_idle_count Q /\
    m_numthrs Q' = m_numthrs Q /\ m_id Q' = m_id Q.
Proof.
  intros Hother HQq.
  assert (exists Q' l, queues s !! q = Some Q' /\
            m_queue Q' = m_queue Q ++ l /\ m_idle_count Q' = m_idle_count Q /\
            m_numthrs Q' = m_numthrs Q /\ m_id Q' = m_id Q) as Hsame.
  { exists Q, []. rewrite app_nil_r. auto. }
  open_step i s w Q0 Hw HQ Hpc; try exact Hsame; cbn [queues upd_worker upd_queue
    with_workers with_queues finish_run];
    try (rewrite list_lookup_alter_ne by exact (Hother w eq_refl); exact Hsame).
  (* run enqueues, maybe on [q] *)
  rewrite list_lookup_alter. case_decide as E; [|exact Hsame].
  subst t. rewrite HQq. cbn. exists (enqueue c Q), [c]. auto.
Qed.

Lemma step_worker_queue i k s w' :
  workers (executeThreadWork_step i s) !! k = Some w' ->
  exists w, workers s !! k = Some w /\ w_queue w = w_queue w'.
Proof.
  intros H. destruct (step_static i k s w' H) as (w & Hw & Eq & _). eauto.
Qed.
End OwnQueue.

(** X7.  A queue is left alone by the workers of the other queues, whatever
    the group: while only such workers step, its pending jobs stay in place
    (at most, jobs are enqueued behind them) and its counters and its id do
    not change.  No worker pops a job of a queue that is not its own. *)
Theorem only_own_workers_pop {G : JobQueueGroupType} {HG : InertGroup G}
    (sched : list nat) (s : system) (q : nat) (Q : JobQueueT) :
  (forall i w, i ∈ sched -> workers s !! i = Some w -> w_queue w <> q) ->
  queues s !! q = Some Q ->
  exists Q' l, queues (run_schedule sched s) !! q = Some Q' /\
    m_queue Q' = m_queue Q ++ l /\ m_idle_count Q' = m_idle_count Q /\
    m_numthrs Q' = m_numthrs Q /\ m_id Q' = m_id Q.
Proof.
  revert s Q. induction sched as [|i sched IH]; intros s Q Hother HQ.
  - exists Q, []. rewrite app_nil_r. auto.
  - rewrite run_schedule_cons.
    destruct (step_other_queue i s q Q) as (Q1 & l1 & HQ1 & Hj1 & Hc1 & Hn1 & Hi1);
      [intros w Hw; apply (Hother i w); [apply elem_of_cons; left; reflexivity|exact Hw]
      |exact HQ|].
    destruct (IH (executeThreadWork_step i s) Q1) as (Q2 & l2 & HQ2 & Hj2 & Hc2 & Hn2 & Hi2);
      [|exact HQ1|].
    + intros k w' Hk Hw'. destruct (step_worker_queue i k s w' Hw') as (w & Hw & <-).
      apply (Hother k w); [apply elem_of_cons; right; exact Hk|exact Hw].
    + exists Q2, (l1 ++ l2). split; [exact HQ2|].
      rewrite Hj2, Hj1, app_assoc. repeat split; congruence.
Qed.

Lemma only_own_workers_pop_witness :
  let s := run_schedule (G:=NumaGroup) [0; 0; 0; 0]%nat
             (default (system_of []) (numaLaunch_begin (runtime 2 2) two_queues)) in
  exists Q, queues s !! 0%nat = Some Q /\
  exists Q' l, queues (run_schedule (G:=NumaGroup) [1; 1; 1; 1]%nat s) !! 0%nat = Some Q' /\
    m_queue Q' = m_queue Q ++ l /\ m_idle_count Q' = m_idle_count Q /\
    m_numthrs Q' = m_numthrs Q /\ m_id Q' = m_id Q.
Proof.
  eexists. split; [vm_compute; reflexivity|].
  refine (only_own_workers_pop (G:=NumaGroup) [1; 1; 1; 1]%nat _ 0 _ _ _).
  - intros i w Hi Hw.
    assert (i = 1%nat) as ->.
    { repeat (apply elem_of_cons in Hi; destruct Hi as [Hi|Hi]; [exact Hi|]).
      apply elem_of_nil in Hi. contradiction. }
    vm_compute in Hw. injection Hw as <-. discriminate.
  - vm_compute. reflexivity.
Defined.

(** ** Every job once *)

Lemma flatten_unfold j : flatten j = j :: flatten_spawns (job_spawns j).
Proof.
  destruct j as [p spawns b]. cbn [flatten job_spawns]. f_equal.
  unfold flatten_spawns. apply flat_map_ext. intros [t c]. reflexivity.
Qed.

Lemma reachable_spawns nq j t c :
  reachable nq j = true -> (t, c) ∈ job_spawns j ->
  (t < nq)%nat /\ reachable nq c = true.
Proof.
  destruct j as [p spawns b]. cbn [reachable job_spawns]. intros H Hin.
  rewrite forallb_forall in H. apply list_elem_of_In in Hin.
  specialize (H _ Hin). cbn in H. apply andb_true_iff in H. destruct H as [H1 H2].
  split; [apply Nat.ltb_lt, H1|exact H2].
Qed.

Lemma flat_map_insert {A B} (f : A -> list B) (l : list A) (i : nat) (x y : A) :
  l !! i = Some x -> flat_map f (<[i:=y]> l) ++ f x ≡ₚ flat_map f l ++ f y.
Proof.
  revert i. induction l as [|a l IH]; intros [|i] H; cbn in H; try discriminate.
  - injection H as ->. change (<[O:=y]> (x :: l)) with (y :: l). cbn [flat_map].
    solve_Permutation.
  - change (<[S i:=y]> (a :: l)) with (a :: <[i:=y]> l). cbn [flat_map].
    rewrite <- !app_assoc, (IH i H). reflexivity.
Qed.

Lemma flat_map_alter_same {A B} (g : A -> list B) (h : A -> A) (l : list A) (t : nat) :
  (forall x, g (h x) = g x) -> flat_map g (alter h t l) = flat_map g l.
Proof.
  intros Hg. revert t. induction l as [|a l IH]; intros [|t]; cbn; try reflexivity.
  - rewrite Hg. reflexivity.
  - rewrite IH. reflexivity.
Qed.

(** One step keeps the jobs: the queues change by [oq] going and [nq]
    coming, the worker that steps changes what it holds, and what went is
    what came. *)
Lemma conserve_step all s s' i w w' (oq nq : list job) :
  workers s !! i = Some w ->
  workers s' = <[i:=w']> (workers s) ->
  flat_map queued (queues s') ++ oq ≡ₚ flat_map queued (queues s) ++ nq ->
  map fst (runs s') ++ nq ++ held w' ≡ₚ map fst (runs s) ++ oq ++ held w ->
  conserved all s -> conserved all s'.
Proof.
  unfold conserved, outstanding. intros Hw Hws Hq Hlocal Hall.
  rewrite Hws. rewrite <- Hall.
  apply (Permutation_app_inv_r (oq ++ held w)).
  pose proof (flat_map_insert held (workers s) i w w' Hw) as Hh.
  transitivity (map fst (runs s') ++ (flat_map queued (queues s') ++ oq)
                ++ (flat_map held (<[i:=w']> (workers s)) ++ held w));
    [solve_Permutation|].
  rewrite Hq, Hh.
  transitivity ((map fst (runs s') ++ nq ++ held w')
                ++ flat_map queued (queues s) ++ flat_map held (workers s));
    [solve_Permutation|].
  rewrite Hlocal. solve_Permutation.
Qed.

Lemma queued_same (qs qs' : list JobQueueT) :
  flat_map queued qs' = flat_map queued qs ->
  flat_map queued qs' ++ [] ≡ₚ flat_map queued qs ++ [].
Proof. intros ->. reflexivity. Qed.

Lemma queued_pop (qs : list JobQueueT) (t : nat) Q j rest :
  qs !! t = Some Q -> m_queue Q = j :: rest ->
  flat_map queued (alter (fun _ => set_queue rest Q) t qs) ++ flatten j
  ≡ₚ flat_map queued qs ++ [].
Proof.
  intros Ht Hq. rewrite (alter_as_insert _ _ _ _ Ht).
  pose proof (flat_map_insert queued qs t Q (set_queue rest Q) Ht) as H.
  unfold queued at 2 4 in H. rewrite Hq in H. cbn [m_queue set_queue flat_map] in H.
  rewrite app_nil_r.
  apply (Permutation_app_inv_r (flat_map flatten rest)).
  rewrite <- H. solve_Permutation.
Qed.

Lemma queued_enqueue (qs : list JobQueueT) (t : nat) c :
  (t < length qs)%nat ->
  flat_map queued (alter (enqueue c) t qs) ++ [] ≡ₚ flat_map queued qs ++ flatten c.
Proof.
  intros Ht. destruct (lookup_lt_is_Some_2 qs t Ht) as [Q HQ].
  rewrite (alter_as_insert _ _ _ _ HQ).
  pose proof (flat_map_insert queued qs t Q (enqueue c Q) HQ) as H.
  assert (queued (enqueue c Q) = queued Q ++ flatten c) as E.
  { unfold queued, enqueue. cbn [m_queue]. rewrite flat_map_app. cbn.
    rewrite app_nil_r. reflexivity. }
  rewrite E in H. rewrite app_nil_r.
  apply (Permutation_app_inv_r (queued Q)). rewrite H. solve_Permutation.
Qed.

Lemma jobs_reachable_step s s' i w w' :
  workers s !! i = Some w ->
  workers s' = <[i:=w']> (workers s) ->
  length (queues s') = length (queues s) ->
  worker_reachable (length (queues s)) w' ->
  (forall q Q' j, queues s' !! q = Some Q' -> j ∈ m_queue Q' ->
     (exists Q, queues s !! q = Some Q /\ j ∈ m_queue Q) \/
     reachable (length (queues s)) j = true) ->
  jobs_reachable s -> jobs_reachable s'.
Proof.
  intros Hw Hws Hlen Hok Hqs [Hq Hwk]. unfold jobs_reachable. rewrite Hlen. split.
  - intros q Q' j HQ' Hj. destruct (Hqs q Q' j HQ' Hj) as [(Q & HQ & HjQ)|H]; eauto.
  - intros k wk Hk. rewrite Hws in Hk. apply insert_lookup_cases in Hk.
    destruct Hk as [(-> & ->)|(_ & Hk)]; eauto.
Qed.

Lemma alter_jobs_from (f : JobQueueT -> JobQueueT) (t : nat) (qs : list JobQueueT)
    (P : job -> Prop) (q : nat) (Q' : JobQueueT) (j : job) :
  (forall Q j, j ∈ m_queue (f Q) -> j ∈ m_queue Q \/ P j) ->
  alter f t qs !! q = Some Q' -> j ∈ m_queue Q' ->
  (exists Q, qs !! q = Some Q /\ j ∈ m_queue Q) \/ P j.
Proof.
  intros Hf H Hj. apply lookup_alter_Some in H. destruct H as (Q0 & HQ0 & ->).
  case_decide as E.
  - destruct (Hf _ _ Hj) as [H|H]; [left; eauto|right; exact H].
  - left. eauto.
Qed.

Lemma pop_jobs_from (t : nat) (qs : list JobQueueT) Q j0 rest (q : nat) Q' (j : job) :
  qs !! t = Some Q -> m_queue Q = j0 :: rest ->
  alter (fun _ => set_queue rest Q) t qs !! q = Some Q' -> j ∈ m_queue Q' ->
  exists Q0, qs !! q = Some Q0 /\ j ∈ m_queue Q0.
Proof.
  intros Ht Hq H Hj. apply lookup_alter_Some in H. destruct H as (Q0 & HQ0 & ->).
  exists Q0. split; [exact HQ0|].
  case_decide as E; [|exact Hj]. subst q. rewrite Ht in HQ0. injection HQ0 as <-.
  cbn in Hj. rewrite Hq. apply elem_of_cons. right. exact Hj.
Qed.

Section EveryJobOnce.
Context {G : JobQueueGroupType} {HG : InertGroup G}.

Lemma step_jobs_reachable i s :
  jobs_reachable s -> jobs_reachable (executeThreadWork_step i s).
Proof.
  intros Hc. pose proof Hc as [Hqc Hwc].
  open_step i s w Q Hw HQ Hpc; try exact Hc;
    pose proof (Hwc i w Hw) as Hok; unfold worker_reachable in Hok; rewrite Hpc in Hok;
    (eapply (jobs_reachable_step s _ i w _ Hw);
       [reflexivity|cbn; rewrite ?length_alter; reflexivity| | |exact Hc]);
    try exact I.
  all: try (cbn; intros q' Q' j' HQ' Hj'; left; eauto; fail).
  all: try (cbn; intros q' Q' j' HQ' Hj';
            apply (alter_jobs_from _ _ _ (fun j => reachable (length (queues s)) j = true)
                     _ _ _) with (3:=Hj') in HQ'; [exact HQ'|];
            cbn; intros Q0 j0 Hj0; left; exact Hj0).
  - (* a job popped in the drain loop *)
    unfold worker_reachable. cbn. intros t c Hin.
    apply (reachable_spawns _ j t c); [|exact Hin].
    apply (Hqc _ Q j HQ). rewrite Hjobs. apply elem_of_cons. left. reflexivity.
  - cbn. intros q' Q' j' HQ' Hj'. left. eapply pop_jobs_from; eauto.
  - (* run enqueues *)
    unfold worker_reachable. cbn. intros t' c' Hin. apply Hok.
    apply elem_of_cons. right. exact Hin.
  - cbn. intros q' Q' j' HQ' Hj'.
    apply (alter_jobs_from _ _ _ (fun j => reachable (length (queues s)) j = true)
             _ _ _) with (3:=Hj') in HQ'; [exact HQ'|].
    cbn. intros Q0 j0 Hj0. apply elem_of_app in Hj0.
    destruct Hj0 as [Hj0|Hj0]; [left; exact Hj0|right].
    apply list_elem_of_singleton in Hj0. subst j0.
    apply (Hok t c). apply elem_of_cons. left. reflexivity.
  - (* a job popped in the retry loop *)
    unfold worker_reachable. cbn.
    apply (Hqc _ Q j HQ). rewrite Hjobs. apply elem_of_cons. left. reflexivity.
  - cbn. intros q' Q' j' HQ' Hj'. left. eapply pop_jobs_from; eauto.
  - (* the popped job starts to run *)
    unfold worker_reachable. cbn. intros t c Hin.
    apply (reachable_spawns _ j t c); assumption.
Qed.

Lemma step_conserved all i s :
  jobs_reachable s -> conserved all s -> conserved all (executeThreadWork_step i s).
Proof.
  intros [Hqc Hwc] Hc.
  open_step i s w Q Hw HQ Hpc; try exact Hc;
    pose proof (Hwc i w Hw) as Hok; unfold worker_reachable in Hok; rewrite Hpc in Hok.
  all: try (eapply (conserve_step all s _ i w _ [] [] Hw);
            [ reflexivity
            | apply queued_same; cbn;
              first [reflexivity | apply flat_map_alter_same; reflexivity]
            | unfold held; rewrite Hpc; cbn; rewrite ?flatten_unfold; reflexivity
            | exact Hc ]; fail).
  - (* a job popped in the drain loop *)
    eapply (conserve_step all s _ i w _ (flatten j) [] Hw);
      [reflexivity|cbn; apply (queued_pop _ _ _ _ _ HQ Hjobs)| |exact Hc].
    unfold held. rewrite Hpc. cbn. rewrite flatten_unfold, !app_nil_r. reflexivity.
  - (* run returns *)
    eapply (conserve_step all s _ i w _ [] [] Hw);
      [reflexivity|apply queued_same; reflexivity| |exact Hc].
    unfold held. rewrite Hpc. cbn. solve_Permutation.
  - (* run enqueues *)
    destruct (Hok t c) as [Ht _]; [apply elem_of_cons; left; reflexivity|].
    eapply (conserve_step all s _ i w _ [] (flatten c) Hw);
      [reflexivity|cbn; apply (queued_enqueue _ _ _ Ht)| |exact Hc].
    unfold held. rewrite Hpc. cbn. solve_Permutation.
  - (* a job popped in the retry loop *)
    eapply (conserve_step all s _ i w _ (flatten j) [] Hw);
      [reflexivity|cbn; apply (queued_pop _ _ _ _ _ HQ Hjobs)| |exact Hc].
    unfold held. rewrite Hpc. cbn. rewrite !app_nil_r. reflexivity.
Qed.

Lemma run_conserved all sched s :
  jobs_reachable s -> conserved all s ->
  jobs_reachable (run_schedule sched s) /\ conserved all (run_schedule sched s).
Proof.
  intros H1 H2.
  apply (run_schedule_ind (fun s => jobs_reachable s /\ conserved all s)); [|tauto].
  intros i s0 [Hr Hc]. split; [apply step_jobs_reachable, Hr|apply step_conserved; assumption].
Qed.

End EveryJobOnce.

Lemma flat_map_all_nil {A B} (f : A -> list B) (l : list A) :
  (forall i x, l !! i = Some x -> f x = []) -> flat_map f l = [].
Proof.
  induction l as [|a l IH]; intros H; [reflexivity|]. cbn.
  rewrite (H O a eq_refl), IH; [reflexivity|]. intros i x Hi. exact (H (S i) x Hi).
Qed.

Lemma all_done_forallb (s : system) :
  forallb (fun w => is_done (w_pc w)) (workers s) = true ->
  forall i w, workers s !! i = Some w -> is_done (w_pc w) = true.
Proof.
  rewrite forallb_forall. intros H i w Hw. apply H, list_elem_of_In.
  exact (list_elem_of_lookup_2 _ _ _ Hw).
Qed.

Lemma all_empty_forallb (s : system) :
  forallb (fun Q => (length (m_queue Q) =? 0)%nat) (queues s) = true ->
  forall q Q, queues s !! q = Some Q -> m_queue Q = [].
Proof.
  rewrite forallb_forall. intros H q Q HQ.
  assert ((length (m_queue Q) =? 0)%nat = true) as E
    by (apply H, list_elem_of_In; exact (list_elem_of_lookup_2 _ _ _ HQ)).
  apply Nat.eqb_eq in E. destruct (m_queue Q); [reflexivity|discriminate E].
Qed.

(** X8.  No job is lost and none is run twice.  Take any state in which
    every enqueue to come names a queue of the system.  After any schedule
    the jobs whose run has returned, together with the jobs outstanding
    (pending on a queue, in the hands of a worker, or still to be enqueued by
    one of these), are, counted with multiplicity, the jobs that had been run
    and were outstanding at the start.  So once every worker has returned and
    every queue is empty, the jobs run are exactly those: each as often as it
    occurs. *)
Theorem every_job_runs_once {G : JobQueueGroupType} {HG : InertGroup G}
    (s : system) (sched : list nat) :
  jobs_reachable s ->
  map fst (runs (run_schedule sched s)) ++ outstanding (run_schedule sched s)
    ≡ₚ map fst (runs s) ++ outstanding s /\
  ((forall i w, workers (run_schedule sched s) !! i = Some w -> is_done (w_pc w) = true) ->
   (forall q Q, queues (run_schedule sched s) !! q = Some Q -> m_queue Q = []) ->
   map fst (runs (run_schedule sched s)) ≡ₚ map fst (runs s) ++ outstanding s).
Proof.
  intros Hr.
  destruct (run_conserved (map fst (runs s) ++ outstanding s) sched s Hr) as [_ Hc];
    [unfold conserved; reflexivity|].
  split; [exact Hc|]. intros Hdone Hempty.
  unfold conserved in Hc. rewrite <- Hc. unfold outstanding.
  rewrite (flat_map_all_nil queued), (flat_map_all_nil held), !app_nil_r; [reflexivity| |].
  - intros i w Hw. specialize (Hdone i w Hw). unfold held.
    destruct (w_pc w); try discriminate Hdone; reflexivity.
  - intros q Q HQ. unfold queued. rewrite (Hempty q Q HQ). reflexivity.
Qed.

Lemma every_job_runs_once_witness :
  let s1 := loop_begin (runtime 2 1) 0 fan_out in
  jobs_reachable s1 /\
  map fst (runs (run_schedule (G:=DefaultGroup) (turns 2 40) s1))
    ≡ₚ map fst (runs s1) ++ outstanding s1.
Proof.
  assert (jobs_reachable (loop_begin (runtime 2 1) 0 fan_out)) as Hr.
  { split.
    - intros q Q j HQ Hj. vm_compute in HQ. destruct q as [|q]; [|discriminate HQ].
      injection HQ as <-. apply list_elem_of_singleton in Hj. subst j.
      vm_compute. reflexivity.
    - intros i w Hw. vm_compute in Hw.
      destruct i as [|[|i]]; try discriminate Hw; injection Hw as <-; exact I. }
  split; [exact Hr|].
  refine (proj2 (every_job_runs_once (G:=DefaultGroup) _ (turns 2 40) Hr) _ _).
  - apply all_done_forallb. vm_compute. reflexivity.
  - apply all_empty_forallb. vm_compute. reflexivity.
Defined.

(** ** The idle counter at the end of a launch, and a queue launched again *)

Lemma count_if_same P P' ws :
  (forall i w, ws !! i = Some w -> P w = P' w) -> count_if P ws = count_if P' ws.
Proof.
  induction ws as [|w0 ws IH]; intros H; cbn; [reflexivity|].
  rewrite (H O w0 eq_refl), IH; [reflexivity|].
  intros i w Hi. exact (H (S i) w Hi).
Qed.

(** X9.  The idle counter is not taken back at the end.  When the parallel
    region of [loop], [numaLoop] or [numaLaunch] has ended for queue [q] (every
    worker of its team has returned), [m_idle_count] of the queue is the size
    of that team: each worker left with its increment standing.  So [has_idle]
    says true after a launch with at least one worker. *)
Theorem idle_count_stays_at_end {G : JobQueueGroupType} {HG : InertGroup G}
    (env : environment) (s0 s1 : system) (sched : list nat) (q : nat) (Q : JobQueueT) :
  launch_state env s0 s1 ->
  (s1 = loop_begin env q s0 \/
   forall Q, queues s0 !! q = Some Q -> m_idle_count Q = 0) ->
  Z.of_nat (length (workers s1)) < 2 ^ 32 ->
  team_done q (run_schedule sched s1) = true ->
  queues (run_schedule sched s1) !! q = Some Q ->
  m_idle_count Q = Z.of_nat (count_team q (workers s1)) /\
  has_idle Q = negb (count_team q (workers s1) =? 0)%nat.
Proof.
  intros Hlaunch Hzero Hlen Hdone HQ.
  pose proof (run_idle_inv q sched s1 Hlen (launch_idle_inv env s0 s1 q Hlaunch Hzero)) as Hinv.
  assert (m_idle_count Q = Z.of_nat (count_team q (workers s1))) as E.
  { rewrite (Hinv Q HQ), <- (run_count_team q sched s1). f_equal.
    unfold count_idle, count_team. apply count_if_same. intros i w Hw.
    destruct (on_queue q w) eqn:Eq; [|reflexivity].
    apply on_queue_true in Eq. rewrite (team_done_all q _ Hdone i w Hw Eq). reflexivity. }
  split; [exact E|]. unfold has_idle. rewrite E. f_equal.
  destruct (count_team q (workers s1)); reflexivity.
Qed.

Lemma idle_count_stays_at_end_witness :
  let s1 := numaLoop_begin (runtime 2 1) 0 0 2 idle_system in
  launch_state (runtime 2 1) idle_system s1 /\
  Z.of_nat (length (workers s1)) < 2 ^ 32 /\
  team_done 0 (run_schedule (G:=NumaGroup) (turns 2 6) s1) = true /\
  exists Q, queues (run_schedule (G:=NumaGroup) (turns 2 6) s1) !! 0%nat = Some Q /\
            m_idle_count Q = 2 /\ has_idle Q = true.
Proof.
  assert (launch_state (runtime 2 1) idle_system
            (numaLoop_begin (runtime 2 1) 0 0 2 idle_system)) as HL.
  { split; [reflexivity|]. right. left. exists 0%nat, 0, 2. reflexivity. }
  assert (Z.of_nat (length (workers (numaLoop_begin (runtime 2 1) 0 0 2 idle_system)))
          < 2 ^ 32) as Hlen by (vm_compute; reflexivity).
  assert (team_done 0 (run_schedule (G:=NumaGroup) (turns 2 6)
                         (numaLoop_begin (runtime 2 1) 0 0 2 idle_system)) = true) as Hd
    by (vm_compute; reflexivity).
  split; [exact HL|]. split; [exact Hlen|]. split; [exact Hd|].
  eexists. split; [vm_compute; reflexivity|].
  refine (idle_count_stays_at_end (G:=NumaGroup) (runtime 2 1) idle_system _
            (turns 2 6) 0 _ HL _ Hlen Hd _).
  - right. intros Q HQ. injection HQ as <-. reflexivity.
  - vm_compute. reflexivity.
Defined.

Lemma idle_offset_step c0 q s s' i w w' (d : Z) :
  workers s !! i = Some w ->
  workers s' = <[i:=w']> (workers s) ->
  w_queue w' = w_queue w ->
  Z.b2z (is_idle (w_pc w')) = Z.b2z (is_idle (w_pc w)) + d ->
  (forall Q', queues s' !! q = Some Q' ->
     exists Q, queues s !! q = Some Q /\
       m_idle_count Q' = m_idle_count Q + (if decide (w_queue w = q) then d else 0)) ->
  idle_offset c0 q s -> idle_offset c0 q s'.
Proof.
  intros Hw Hws Hq Hd Hqs Hinv Q' HQ'.
  destruct (Hqs Q' HQ') as (Q & HQ & ->).
  rewrite (Hinv Q HQ), Hws. unfold count_idle.
  rewrite (count_if_insert _ _ _ _ _ Hw). cbn beta.
  unfold on_queue. rewrite Hq.
  case_decide as E.
  - subst q. rewrite Nat.eqb_refl. cbn [andb]. lia.
  - apply Nat.eqb_neq in E. rewrite E. cbn. lia.
Qed.

Lemma team_spinning_step q s s' i w w' :
  workers s !! i = Some w ->
  workers s' = <[i:=w']> (workers s) ->
  (w_queue w' = q -> w_pc w' <> PAssist /\ w_pc w' <> PDone) ->
  team_spinning q s -> team_spinning q s'.
Proof.
  intros Hw Hws Hok Hinv k wk Hk. rewrite Hws in Hk. apply insert_lookup_cases in Hk.
  destruct Hk as [(-> & ->)|(_ & Hk)]; eauto.
Qed.

Section LaunchedAgain.
Context {G : JobQueueGroupType} {HG : InertGroup G}.

Lemma step_idle_offset c0 q i s :
  0 <= c0 -> c0 + Z.of_nat (length (workers s)) < 2 ^ 32 ->
  idle_offset c0 q s -> idle_offset c0 q (executeThreadWork_step i s).
Proof.
  intros Hc0 Hlen Hinv.
  open_step i s w Q Hw HQ Hpc; try exact Hinv.
  all: try (eapply (idle_offset_step c0 q s _ i w _ 0 Hw);
            [ reflexivity | reflexivity
            | cbn; rewrite Hpc; reflexivity
            | cbn; intros Q' HQ';
              first [ apply alter_keeps_idle in HQ'; [|reflexivity]
                    | apply (alter_const_keeps_idle _ _ _ Q _ _ HQ) in HQ'; [|reflexivity]
                    | apply keeps_idle in HQ' ];
              destruct HQ' as (Q0 & HQ0 & ->); exists Q0;
              split; [exact HQ0|case_decide; reflexivity]
            | exact Hinv ]).
  - (* ++m_idle_count *)
    eapply (idle_offset_step c0 q s _ i w _ 1 Hw);
      [reflexivity|reflexivity|cbn; rewrite Hpc; reflexivity| |exact Hinv].
    cbn. intros Q' HQ'. apply lookup_alter_Some in HQ'.
    destruct HQ' as (Q0 & HQ0 & ->). exists Q0. split; [exact HQ0|].
    case_decide as E; [|lia]. subst q. rewrite HQ in HQ0. injection HQ0 as <-.
    cbn. rewrite (Hinv _ HQ).
    pose proof (count_idle_room _ _ _ Hw) as R. rewrite Hpc in R. specialize (R eq_refl).
    apply to_unsigned_small. lia.
  - (* --m_idle_count *)
    eapply (idle_offset_step c0 q s _ i w _ (-1) Hw);
      [reflexivity|reflexivity|cbn; rewrite Hpc; reflexivity| |exact Hinv].
    cbn. intros Q' HQ'. apply lookup_alter_Some in HQ'.
    destruct HQ' as (Q0 & HQ0 & ->). exists Q0. split; [exact HQ0|].
    case_decide as E; [|lia]. subst q. rewrite HQ in HQ0. injection HQ0 as <-.
    cbn. rewrite (Hinv _ HQ).
    pose proof (count_idle_pos _ _ _ Hw) as R. rewrite Hpc in R. specialize (R eq_refl).
    pose proof (count_if_length (fun w0 => on_queue (w_queue w) w0 && is_idle (w_pc w0))
                  (workers s)) as L.
    unfold count_idle in *.
    rewrite to_unsigned_small; lia.
Qed.

Lemma step_team_within c0 q i s :
  team_within c0 q s -> team_within c0 q (executeThreadWork_step i s).
Proof.
  intros H k w' Hk Hq.
  destruct (step_static i k s w' Hk) as (w & Hw & Eq & Et & _).
  unfold team_N. rewrite <- Et. apply (H k w Hw). congruence.
Qed.

(** With the counter at least the size of the team above the idle workers,
    the check [m_idle_count == m_numthrs] fails. *)
Lemma step_team_spinning c0 q i s :
  numthrs_inv s -> idle_offset c0 q s -> team_within c0 q s ->
  team_spinning q s -> team_spinning q (executeThreadWork_step i s).
Proof.
  intros Hn Hoff Hin Hsp.
  open_step i s w Q Hw HQ Hpc; try exact Hsp;
    (eapply (team_spinning_step q s _ i w _ Hw); [reflexivity| |exact Hsp]);
    cbn; intros Eq; try (split; discriminate).
  - (* the check cannot succeed *)
    exfalso. subst q.
    assert (m_numthrs Q = team_N w) as En
      by (apply (Hn i w Q Hw HQ); rewrite Hpc; discriminate).
    pose proof (Hoff Q HQ) as Ei. pose proof (Hin i w Hw eq_refl) as Hle.
    pose proof (count_idle_pos _ _ _ Hw) as R. rewrite Hpc in R. specialize (R eq_refl).
    lia.
  - destruct (Hsp i w Hw Eq) as [H _]. contradiction.
  - destruct (Hsp i w Hw Eq) as [H _]. contradiction.
Qed.

Lemma run_team_spinning c0 q sched s :
  0 <= c0 -> c0 + Z.of_nat (length (workers s)) < 2 ^ 32 ->
  exit_inv s -> idle_offset c0 q s -> team_within c0 q s ->
  team_spinning q s -> team_spinning q (run_schedule sched s).
Proof.
  intros Hc0 Hlen He Hoff Hin Hsp.
  assert (c0 + Z.of_nat (length (workers (run_schedule sched s))) < 2 ^ 32 /\
          exit_inv (run_schedule sched s) /\ idle_offset c0 q (run_schedule sched s) /\
          team_within c0 q (run_schedule sched s) /\
          team_spinning q (run_schedule sched s)) as H; [|tauto].
  apply (run_schedule_ind
           (fun s => c0 + Z.of_nat (length (workers s)) < 2 ^ 32 /\ exit_inv s /\
                     idle_offset c0 q s /\ team_within c0 q s /\ team_spinning q s));
    [|tauto].
  intros i s' (H1 & H2 & H3 & H4 & H5). split; [|split; [|split; [|split]]].
  - rewrite step_length_workers. exact H1.
  - apply step_exit_inv, H2.
  - apply step_idle_offset; assumption.
  - apply step_team_within, H4.
  - destruct H2 as (_ & Hn & _). eapply step_team_spinning; eassumption.
Qed.
End LaunchedAgain.

(** X10.  A queue cannot be launched a second time without a reset.  Let a
    launch set off a team of at least one worker on a queue whose
    [m_idle_count] is already as large as the team (as a first launch leaves
    it; [numaLoop] and [numaLaunch] do not set it back, [loop] does).  Then,
    whatever the schedule, no worker of the team ever finds
    [m_idle_count == m_numthrs]: none calls [assist], none returns, and the
    parallel region never ends. *)
Theorem launched_again_never_returns {G : JobQueueGroupType} {HG : InertGroup G}
    (env : environment) (s0 s1 : system) (sched : list nat) (q : nat) (Q : JobQueueT) :
  launch_state env s0 s1 ->
  queues s1 !! q = Some Q ->
  (1 <= count_team q (workers s1))%nat ->
  Z.of_nat (count_team q (workers s1)) <= m_idle_count Q ->
  m_idle_count Q + Z.of_nat (length (workers s1)) < 2 ^ 32 ->
  (forall i w, workers (run_schedule sched s1) !! i = Some w -> w_queue w = q ->
     w_pc w <> PAssist /\ w_pc w <> PDone) /\
  launch_end q (run_schedule sched s1) = Running (run_schedule sched s1).
Proof.
  intros Hlaunch HQ Hteam Hc0 Hlen.
  pose proof (launch_state_launched env s0 s1 Hlaunch) as Hl.
  pose proof (count_if_length (on_queue q) (workers s1)) as Hcl. fold (count_team q (workers s1)) in Hcl.
  assert (team_spinning q (run_schedule sched s1)) as Hsp.
  { apply (run_team_spinning (m_idle_count Q)); [lia|exact Hlen| | | |].
    - apply launched_exit_inv, Hl.
    - intros Q' HQ'. rewrite HQ in HQ'. injection HQ' as <-. unfold count_idle.
      rewrite count_if_none; [lia|].
      intros i w Hi. destruct (Hl i w Hi) as (E & _). rewrite E. apply andb_false_r.
    - intros i w Hi Hq. destruct (Hl i w Hi) as (_ & _ & E).
      unfold team_N. rewrite E, Hq, to_unsigned_small; lia.
    - intros i w Hi _. destruct (Hl i w Hi) as (E & _). rewrite E. split; discriminate. }
  split; [exact Hsp|].
  unfold launch_end. destruct (team_done q (run_schedule sched s1)) eqn:Hd; [|reflexivity].
  exfalso.
  rewrite <- (run_count_team q sched s1) in Hteam.
  destruct (count_if_witness _ _ Hteam) as (i & w & Hi & Hw).
  apply on_queue_true in Hw.
  destruct (Hsp i w Hi Hw) as [_ Hne]. apply Hne. exact (team_done_all q _ Hd i w Hi Hw).
Qed.

Lemma launched_again_never_returns_witness :
  let s0 := system_of used_queues in
  let s1 := numaLoop_begin (runtime 2 1) 0 0 2 s0 in
  launch_state (runtime 2 1) s0 s1 /\
  (exists Q, queues s1 !! 0%nat = Some Q /\
     (1 <= count_team 0 (workers s1))%nat /\
     Z.of_nat (count_team 0 (workers s1)) <= m_idle_count Q /\
     m_idle_count Q + Z.of_nat (length (workers s1)) < 2 ^ 32) /\
  numaLoop (G:=NumaGroup) (runtime 2 1) 0 0 2 (turns 2 50) s0
  = Running (run_schedule (G:=NumaGroup) (turns 2 50) s1).
Proof.
  assert (launch_state (runtime 2 1) (system_of used_queues)
            (numaLoop_begin (runtime 2 1) 0 0 2 (system_of used_queues))) as HL.
  { split; [reflexivity|]. right. left. exists 0%nat, 0, 2. reflexivity. }
  assert (queues (numaLoop_begin (runtime 2 1) 0 0 2 (system_of used_queues)) !! 0%nat
          = Some {| m_queue := []; m_numthrs := 2; m_idle_count := 2; m_id := 0 |}) as HQ
    by (vm_compute; reflexivity).
  assert (1 <= count_team 0 (workers (numaLoop_begin (runtime 2 1) 0 0 2
                                        (system_of used_queues))))%nat as H1
    by (vm_compute; lia).
  assert (Z.of_nat (count_team 0 (workers (numaLoop_begin (runtime 2 1) 0 0 2
                                             (system_of used_queues)))) <= 2) as H2
    by (vm_compute; discriminate).
  assert (2 + Z.of_nat (length (workers (numaLoop_begin (runtime 2 1) 0 0 2
                                           (system_of used_queues)))) < 2 ^ 32) as H3
    by (vm_compute; reflexivity).
  split; [exact HL|]. split.
  - eexists. split; [exact HQ|]. split; [exact H1|]. split; [exact H2|exact H3].
  - exact (proj2 (launched_again_never_returns (G:=NumaGroup) (runtime 2 1) _ _
                    (turns 2 50) 0 _ HL HQ H1 H2 H3)).
Defined.

(** ** One thread *)

Lemma run_schedule_replicate_add {G : JobQueueGroupType} (a b i : nat) s :
  run_schedule (replicate (a + b) i) s
  = run_schedule (replicate b i) (run_schedule (replicate a i) s).
Proof. rewrite replicate_add, run_schedule_app. reflexivity. Qed.

Ltac solo_open H :=
  let Q := fresh "Q" in let w := fresh "w" in
  destruct H as (Q & w & Hqs & Hws & Hwq & Hwt & Hpc & Hl & Hnt & Hc);
  destruct Q as [l0 nt0 c0 id0]; destruct w as [wq wn wt wp wtr];
  cbn in Hwq, Hwt, Hpc, Hl, Hnt, Hc; subst.

Ltac solo_step s :=
  destruct s as [qs ws r d]; cbn in *; subst;
  unfold executeThreadWork_step; cbn -[to_unsigned];
  eexists _, _; cbn -[to_unsigned]; repeat split; try reflexivity.

Section OneThread.
Context {G : JobQueueGroupType} {HG : NoAssistGroup G}.

Lemma solo_start l nt c s :
  solo_at PStart l nt c s ->
  solo_at PDrainPop l 1 c (executeThreadWork_step 0 s).
Proof. intros H. solo_open H. solo_step s. Qed.

Lemma solo_pop j l nt c s :
  solo_at PDrainPop (j :: l) nt c s ->
  solo_at (PRun j (job_spawns j)) l nt c (executeThreadWork_step 0 s).
Proof. intros H. solo_open H. solo_step s. Qed.

Lemma solo_enqueue j c' todo l nt c s :
  solo_at (PRun j ((0%nat, c') :: todo)) l nt c s ->
  solo_at (PRun j todo) (l ++ [c']) nt c (executeThreadWork_step 0 s).
Proof. intros H. solo_open H. solo_step s. Qed.

Lemma solo_return j l nt c s :
  solo_at (PRun j []) l nt c s ->
  solo_at PDrainPop l nt c (executeThreadWork_step 0 s).
Proof. intros H. solo_open H. solo_step s. Qed.

Lemma solo_pop_fail nt c s :
  solo_at PDrainPop [] nt c s ->
  solo_at PIncIdle [] nt c (executeThreadWork_step 0 s).
Proof. intros H. solo_open H. solo_step s. Qed.

Lemma solo_idle nt s :
  solo_at PIncIdle [] nt 0 s ->
  solo_at PRetryPop [] nt 1 (executeThreadWork_step 0 s).
Proof. intros H. solo_open H. solo_step s. Qed.

Lemma solo_retry nt c s :
  solo_at PRetryPop [] nt c s ->
  solo_at PCheckTerm [] nt c (executeThreadWork_step 0 s).
Proof. intros H. solo_open H. solo_step s. Qed.

Lemma solo_check s :
  solo_at PCheckTerm [] 1 1 s ->
  solo_at PAssist [] 1 1 (executeThreadWork_step 0 s).
Proof. intros H. solo_open H. solo_step s. Qed.

Lemma solo_assist nt c s :
  solo_at PAssist [] nt c s ->
  solo_at PDone [] nt c (executeThreadWork_step 0 s).
Proof.
  intros H. solo_open H. destruct s as [qs ws r d]. cbn in *. subst.
  unfold executeThreadWork_step. cbn. rewrite assist_none.
  eexists _, _. cbn. repeat split; reflexivity.
Qed.

Lemma solo_exit s :
  solo_at PDrainPop [] 1 0 s ->
  solo_at PDone [] 1 1 (run_schedule (replicate 5 0%nat) s).
Proof.
  intros H. cbn [replicate]. rewrite !run_schedule_cons.
  apply solo_assist, solo_check, solo_retry, solo_idle, solo_pop_fail, H.
Qed.

Lemma solo_done k l nt c s :
  solo_at PDone l nt c s -> run_schedule (replicate k 0%nat) s = s.
Proof.
  intros H. solo_open H. destruct s as [qs ws r d]. cbn in *. subst.
  induction k as [|k IH]; [reflexivity|]. cbn [replicate]. rewrite run_schedule_cons.
  exact IH.
Qed.

(** The rest of a run: every enqueue, then the return. *)
Lemma solo_run j todo : forall l nt c s,
  (forall t c', (t, c') ∈ todo -> t = 0%nat) ->
  solo_at (PRun j todo) l nt c s ->
  solo_at PDrainPop (l ++ map snd todo) nt c
    (run_schedule (replicate (S (length todo)) 0%nat) s).
Proof.
  induction todo as [|[t c'] todo IH]; intros l nt c s Ht H.
  - cbn. rewrite app_nil_r. apply (solo_return j), H.
  - assert (t = 0%nat) as -> by (apply (Ht _ c'), elem_of_cons; left; reflexivity).
    cbn [length replicate]. rewrite run_schedule_cons.
    replace (l ++ map snd ((0%nat, c') :: todo)) with ((l ++ [c']) ++ map snd todo)
      by (rewrite <- app_assoc; reflexivity).
    apply IH.
    + intros t c'' Hin. apply (Ht t c''), elem_of_cons. right. exact Hin.
    + apply solo_enqueue, H.
Qed.

Lemma flatten_map_snd (sp : list (nat * job)) :
  flat_map flatten (map snd sp) = flatten_spawns sp.
Proof.
  unfold flatten_spawns. induction sp as [|[t c] sp IH]; [reflexivity|].
  cbn. rewrite IH. reflexivity.
Qed.

Lemma drain_steps_cons j l :
  drain_steps (j :: l)
  = (2 + length (job_spawns j) + drain_steps (l ++ map snd (job_spawns j)))%nat.
Proof.
  unfold drain_steps. cbn [flat_map]. rewrite flatten_unfold. cbn [app map].
  change (list_sum (?x :: ?k)) with (x + list_sum k)%nat.
  rewrite !flat_map_app, !map_app, !list_sum_app, flatten_map_snd. lia.
Qed.

(** The drain loop of a single worker empties the queue. *)
Lemma solo_drain nt c : forall N l s,
  (length (flat_map flatten l) <= N)%nat ->
  (forall j, j ∈ l -> reachable 1 j = true) ->
  solo_at PDrainPop l nt c s ->
  solo_at PDrainPop [] nt c (run_schedule (replicate (drain_steps l) 0%nat) s).
Proof.
  induction N as [|N IH]; intros l s HN Hr H.
  - destruct l as [|j l]; [exact H|]. cbn in HN. rewrite flatten_unfold in HN.
    cbn in HN. lia.
  - destruct l as [|j l]; [exact H|].
    assert (reachable 1 j = true) as Hj by (apply Hr, elem_of_cons; left; reflexivity).
    rewrite drain_steps_cons.
    change (2 + length (job_spawns j) + drain_steps (l ++ map snd (job_spawns j)))%nat
      with (1 + (S (length (job_spawns j))
                 + drain_steps (l ++ map snd (job_spawns j))))%nat.
    rewrite !run_schedule_replicate_add.
    apply IH.
    + cbn [flat_map] in HN. rewrite flatten_unfold in HN. cbn [length app] in HN.
      rewrite length_app in HN. rewrite flat_map_app, length_app.
      rewrite flatten_map_snd. lia.
    + intros j' Hin. apply elem_of_app in Hin. destruct Hin as [Hin|Hin].
      * apply Hr, elem_of_cons. right. exact Hin.
      * apply list_elem_of_fmap in Hin. destruct Hin as ([t c0] & -> & Hin).
        exact (proj2 (reachable_spawns 1 j t c0 Hj Hin)).
    + apply (solo_run j).
      * intros t c0 Hin. pose proof (proj1 (reachable_spawns 1 j t c0 Hj Hin)). lia.
      * apply solo_pop, H.
Qed.
End OneThread.

(** X11.  [loop] with a single thread is a plain work list, and it ends.
    On a system of one queue whose jobs enqueue on that queue only, a team
    of one worker returns from [executeThreadWork] after six steps of its
    own and, for every job that comes up, its pop, its enqueues and the
    return of its run; further turns change nothing.  [loop] then returns
    with its assertion holding: the queue is empty, the idle counter is 1,
    and the jobs run are exactly the jobs that were pending with all they
    led to, each once. *)
Theorem loop_single_thread_returns {G : JobQueueGroupType} {HG : NoAssistGroup G}
    (env : environment) (s : system) (Q : JobQueueT) (extra : nat) :
  omp_team_size env None = 1%nat ->
  queues s = [Q] -> workers s = [] ->
  (forall j, j ∈ m_queue Q -> reachable 1 j = true) ->
  exists s',
    loop env 0 (replicate (6 + drain_steps (m_queue Q) + extra) 0%nat) s = Returned s' /\
    map fst (runs s') ≡ₚ map fst (runs s) ++ flat_map flatten (m_queue Q) /\
    exists Q', queues s' = [Q'] /\ m_queue Q' = [] /\
               m_idle_count Q' = 1 /\ m_numthrs Q' = 1.
Proof.
  intros Hteam Hqs Hws Hr.
  assert (solo_at PStart (m_queue Q) (m_numthrs Q) 0 (loop_begin env 0 s)) as H0.
  { unfold loop_begin, omp_parallel. rewrite Hteam. destruct s as [qs ws r d].
    cbn in Hqs, Hws. subst. eexists _, _. cbn -[to_unsigned]. repeat split; reflexivity. }
  assert (jobs_reachable (loop_begin env 0 s)) as Hjr.
  { destruct H0 as (Q0 & w0 & E1 & E2 & _ & _ & E3 & E4 & _). split.
    - rewrite E1. intros [|q] Q1 j HQ1 Hj; [|discriminate HQ1]. injection HQ1 as <-.
      rewrite E4 in Hj. apply Hr, Hj.
    - rewrite E2. intros [|i] w Hw; [|discriminate Hw]. injection Hw as <-.
      unfold worker_reachable. rewrite E3. exact I. }
  assert (map fst (runs (loop_begin env 0 s)) ++ outstanding (loop_begin env 0 s)
          = map fst (runs s) ++ flat_map flatten (m_queue Q)) as Hall.
  { destruct H0 as (Q0 & w0 & E1 & E2 & _ & _ & E3 & E4 & _).
    unfold outstanding. rewrite E1, E2. cbn [flat_map]. unfold queued, held.
    rewrite E3, E4, !app_nil_r. reflexivity. }
  unfold loop.
  set (sched := replicate (6 + drain_steps (m_queue Q) + extra) 0%nat).
  destruct (run_conserved (HG:=NoAssistGroup_inert G HG)
              (map fst (runs s) ++ flat_map flatten (m_queue Q)) sched
              (loop_begin env 0 s) Hjr) as [_ Hc];
    [unfold conserved; rewrite Hall; reflexivity|].
  assert (solo_at PDone [] 1 1 (run_schedule sched (loop_begin env 0 s))) as HF.
  { subst sched.
    replace (6 + drain_steps (m_queue Q) + extra)%nat
      with (1 + (drain_steps (m_queue Q) + (5 + extra)))%nat by lia.
    rewrite !run_schedule_replicate_add.
    assert (solo_at PDone [] 1 1
              (run_schedule (replicate 5 0%nat)
                 (run_schedule (replicate (drain_steps (m_queue Q)) 0%nat)
                    (run_schedule (replicate 1 0%nat) (loop_begin env 0 s))))) as H5.
    { apply solo_exit. apply (solo_drain 1 0 (length (flat_map flatten (m_queue Q))));
        [lia|exact Hr|]. apply (solo_start _ _ _ _ H0). }
    rewrite (solo_done extra _ _ _ _ H5). exact H5. }
  exists (run_schedule sched (loop_begin env 0 s)).
  destruct HF as (Q' & w' & E1 & E2 & Ewq & _ & Epc & El & Ent & Ec).
  split; [|split].
  - unfold launch_end, team_done. rewrite E1, E2. cbn. rewrite Ewq, Epc, El. reflexivity.
  - unfold conserved, outstanding in Hc. rewrite E1, E2 in Hc. cbn [flat_map] in Hc.
    unfold queued, held in Hc. rewrite Epc, El, !app_nil_r in Hc. exact Hc.
  - exists Q'. auto.
Qed.

Lemma loop_single_thread_returns_witness :
  let Q := enqueue (Job 0 (map (fun p => (0%nat, leaf p)) (seq 1 9)) true) JobQueueT_new in
  omp_team_size (runtime 1 1) None = 1%nat /\
  (forall j, j ∈ m_queue Q -> reachable 1 j = true) /\
  exists s',
    loop (G:=DefaultGroup) (runtime 1 1) 0
      (replicate (6 + drain_steps (m_queue Q) + 0) 0%nat) fan_out = Returned s' /\
    map fst (runs s') ≡ₚ map fst (runs fan_out) ++ flat_map flatten (m_queue Q) /\
    exists Q', queues s' = [Q'] /\ m_queue Q' = [] /\
               m_idle_count Q' = 1 /\ m_numthrs Q' = 1.
Proof.
  intros Q.
  assert (forall j, j ∈ m_queue Q -> reachable 1 j = true) as Hr.
  { intros j Hj. apply list_elem_of_singleton in Hj. subst j. vm_compute. reflexivity. }
  split; [reflexivity|]. split; [exact Hr|].
  exact (loop_single_thread_returns (G:=DefaultGroup) (runtime 1 1) fan_out Q 0
           eq_refl eq_refl eq_refl Hr).
Defined.

(** ** Teams that step fairly *)

(** X12.  A team that steps fairly returns.  Let [loop], [numaLoop] or
    [numaLaunch] set off its workers, the queues of the teams with their idle
    counters at zero.  Take any execution so far, and let it go on in
    stretches in each of which every worker of queue [q] steps at least once,
    the workers of the other queues stepping as they may or not at all.  After
    one more than twice as many stretches as five per worker and, for every
    job pending at the launch and every job it leads to, five and one per
    enqueue of its run, every worker of [q] has returned from
    [executeThreadWork]: the parallel region of the queue has ended.  (That
    the group's [assist] says false is what lets a worker leave.) *)
Theorem fair_team_returns {G : JobQueueGroupType} {HN : NoAssistGroup G}
    (env : environment) (s0 s1 : system) (pre : list nat) (q : nat)
    (segs : list (list nat)) :
  launch_state env s0 s1 ->
  (forall i w, workers s1 !! i = Some w ->
     exists Q, queues s1 !! w_queue w = Some Q /\ m_idle_count Q = 0) ->
  Z.of_nat (length (workers s1)) < 2 ^ 32 ->
  Forall (covers_team q (workers s1)) segs ->
  (2 * (list_sum (map queue_cost (queues s1)) + 5 * length (workers s1)) + 1
   <= length segs)%nat ->
  team_done q (run_schedule (pre ++ concat segs) s1) = true /\
  forall i w, workers (run_schedule (pre ++ concat segs) s1) !! i = Some w ->
              w_queue w = q -> w_pc w = PDone.
Proof.
  intros Hlaunch Hz Hlen Hcov Hm.
  destruct (launched_fair s1 (launch_state_launched env s0 s1 Hlaunch) Hz Hlen)
    as (Hinv & Hp & _).
  assert (team_done q (run_schedule (pre ++ concat segs) s1) = true) as Hd.
  { rewrite run_schedule_app. apply fair_team_done.
    - apply run_fair_inv, Hinv.
    - eapply Forall_impl; [exact Hcov|]. intros seg. apply covers_team_run.
    - pose proof (run_potential_le pre s1) as Hle. unfold progress_measure.
      destruct (retrying_on q (run_schedule pre s1)); lia. }
  split; [exact Hd|]. exact (team_done_all q _ Hd).
Qed.

Lemma fair_team_returns_witness :
  let segs := replicate 89 [0%nat] in
  launch_state (runtime 2 2) two_busy_queues two_busy_launched /\
  Z.of_nat (length (workers two_busy_launched)) < 2 ^ 32 /\
  Forall (covers_team 0 (workers two_busy_launched)) segs /\
  (2 * (list_sum (map queue_cost (queues two_busy_launched))
        + 5 * length (workers two_busy_launched)) + 1 <= length segs)%nat /\
  team_done 0 (run_schedule (G:=NumaGroup) ([1; 0; 1]%nat ++ concat segs)
                 two_busy_launched) = true /\
  forall i w,
    workers (run_schedule (G:=NumaGroup) ([1; 0; 1]%nat ++ concat segs)
               two_busy_launched) !! i = Some w ->
    w_queue w = 0%nat -> w_pc w = PDone.
Proof.
  intros segs.
  assert (launch_state (runtime 2 2) two_busy_queues two_busy_launched) as HL.
  { split; [reflexivity|]. right. right. reflexivity. }
  assert (forall i w, workers two_busy_launched !! i = Some w ->
            exists Q, queues two_busy_launched !! w_queue w = Some Q /\
                      m_idle_count Q = 0) as Hz.
  { intros i w Hw. vm_compute in Hw.
    destruct i as [|[|i]]; try discriminate Hw; injection Hw as <-;
      eexists; (split; [reflexivity|reflexivity]). }
  assert (Z.of_nat (length (workers two_busy_launched)) < 2 ^ 32) as Hlen
    by (vm_compute; reflexivity).
  assert (Forall (covers_team 0 (workers two_busy_launched)) segs) as Hcov.
  { apply Forall_replicate. intros i w Hw Hq. vm_compute in Hw.
    destruct i as [|[|i]]; try discriminate Hw; injection Hw as <-.
    - apply elem_of_cons. left. reflexivity.
    - discriminate Hq. }
  assert (2 * (list_sum (map queue_cost (queues two_busy_launched))
               + 5 * length (workers two_busy_launched)) + 1 <= length segs)%nat as Hm
    by (vm_compute; lia).
  split; [exact HL|]. split; [exact Hlen|]. split; [exact Hcov|]. split; [exact Hm|].
  exact (fair_team_returns (G:=NumaGroup) (runtime 2 2) two_busy_queues two_busy_launched
           [1; 0; 1]%nat 0 segs HL Hz Hlen Hcov Hm).
Defined.

(** Induction on a job through the jobs its run enqueues. *)
Lemma job_ind_spawns (P : job -> Prop) :
  (forall p spawns b, (forall t c, (t, c) ∈ spawns -> P c) -> P (Job p spawns b)) ->
  forall j, P j.
Proof.
  intros H. fix IH 1. intros [p spawns b]. apply H.
  induction spawns as [|[t c] sp IHsp]; intros t' c' Hin.
  - inversion Hin.
  - apply elem_of_cons in Hin. destruct Hin as [E|Hin].
    + injection E as -> ->. apply IH.
    + exact (IHsp t' c' Hin).
Qed.

(** On a system of one queue, jobs that enqueue on a queue of the system
    enqueue on the queue that runs them. *)
Lemma reachable_confined j : reachable 1 j = true -> confined 0 0 j = true.
Proof.
  induction j as [p spawns b IH] using job_ind_spawns.
  cbn [reachable confined]. rewrite !forallb_forall. intros H [t c] Hin.
  specialize (H (t, c) Hin). cbn in H. apply andb_true_iff in H. destruct H as [Ht Hc].
  apply Nat.leb_le in Ht. assert (t = 0%nat) as -> by lia.
  cbn. apply (IH 0%nat c); [apply list_elem_of_In; exact Hin|exact Hc].
Qed.

(** X13.  The standard [JobQueue] with [loop], any team.  One queue, jobs
    that enqueue on it, a team of at least one worker, a fair schedule of
    enough stretches: [loop] returns, its assertion holds (the queue is
    empty), and the jobs run are exactly the jobs that were pending with all
    they led to, each once.  The counters of the queue may be what an earlier
    launch left: [loop] sets [m_idle_count] back, the workers set
    [m_numthrs]. *)
Theorem loop_returns_when_fair {G : JobQueueGroupType} {HN : NoAssistGroup G}
    (env : environment) (Q : JobQueueT) (segs : list (list nat)) :
  (1 <= omp_team_size env None)%nat ->
  Z.of_nat (omp_team_size env None) < 2 ^ 32 ->
  (forall j, j ∈ m_queue Q -> reachable 1 j = true) ->
  Forall (covers (omp_team_size env None)) segs ->
  (2 * (queue_cost Q + 5 * omp_team_size env None) <= length segs)%nat ->
  exists s',
    loop env 0 (concat segs) (system_of [Q]) = Returned s' /\
    (forall i w, workers s' !! i = Some w -> w_pc w = PDone) /\
    (exists Q', queues s' = [Q'] /\ m_queue Q' = []) /\
    map fst (runs s') ≡ₚ flat_map flatten (m_queue Q).
Proof.
  intros Hteam Hn Hr Hcov Hm.
  set (s1 := loop_begin env 0 (system_of [Q])).
  assert (launch_state env (system_of [Q]) s1) as HL
    by (split; [reflexivity|]; left; exists 0%nat; reflexivity).
  assert (length (workers s1) = omp_team_size env None) as Hws
    by (cbn; apply length_replicate).
  assert (queues s1 = [set_idle_count 0 Q]) as Hqs by reflexivity.
  assert (forall i w, workers s1 !! i = Some w -> w_queue w = 0%nat) as Hwq.
  { cbn. intros i w Hw. apply lookup_replicate in Hw. destruct Hw as [-> _]. reflexivity. }
  assert (forall i w, workers (run_schedule (concat segs) s1) !! i = Some w ->
                      w_pc w = PDone) as Hd.
  { apply (launch_fair_done env (system_of [Q]) s1 segs HL).
    - intros i w Hw. rewrite (Hwq i w Hw), Hqs. eexists. split; reflexivity.
    - rewrite Hws. exact Hn.
    - rewrite Hws. exact Hcov.
    - rewrite Hws, Hqs. cbn [map]. rewrite list_sum_cons.
      change (queue_cost (set_idle_count 0 Q)) with (queue_cost Q).
      change (list_sum []) with O. lia. }
  assert (exists Q', queues (run_schedule (concat segs) s1) = [Q']) as [Q' HQ'].
  { pose proof (run_length_queues (concat segs) s1) as Hlq. rewrite Hqs in Hlq.
    destruct (queues (run_schedule (concat segs) s1)) as [|Q' [|Q'' l]]; try discriminate Hlq.
    eauto. }
  assert (m_queue Q' = []) as Hempty.
  { apply (drained_when_isolated (HG:=NoAssistGroup_inert G HN) env (system_of [Q]) s1
             (concat segs) 0 HL).
    - intros q' Q0 j HQ0 Hj. rewrite Hqs in HQ0.
      destruct q' as [|q']; [|discriminate HQ0]. injection HQ0 as <-.
      apply reachable_confined, Hr, Hj.
    - cbn. unfold count_team. rewrite count_if_replicate. cbn. lia.
    - apply all_done_team_done, Hd.
    - rewrite HQ'. reflexivity. }
  assert (jobs_reachable s1) as Hjr.
  { split.
    - rewrite Hqs. intros [|q] Q1 j HQ1 Hj; [|discriminate HQ1]. injection HQ1 as <-.
      apply Hr, Hj.
    - intros i w Hw. cbn in Hw. apply lookup_replicate in Hw. destruct Hw as [-> _]. exact I. }
  destruct (run_conserved (HG:=NoAssistGroup_inert G HN)
              (flat_map flatten (m_queue Q)) (concat segs) s1 Hjr) as [_ Hc].
  { unfold conserved, outstanding. rewrite Hqs. cbn [flat_map runs map s1 loop_begin].
    rewrite (flat_map_all_nil held); [unfold queued; cbn; rewrite !app_nil_r; reflexivity|].
    intros i w Hw. cbn in Hw. apply lookup_replicate in Hw. destruct Hw as [-> _].
    reflexivity. }
  exists (run_schedule (concat segs) s1). split; [|split; [|split]].
  - unfold loop. fold s1. unfold launch_end.
    rewrite (all_done_team_done 0 _ Hd), HQ'. cbn. rewrite Hempty. reflexivity.
  - exact Hd.
  - exists Q'. split; [exact HQ'|exact Hempty].
  - unfold conserved, outstanding in Hc. rewrite HQ' in Hc. cbn [flat_map] in Hc.
    unfold queued in Hc. rewrite Hempty in Hc.
    rewrite (flat_map_all_nil held) in Hc.
    + cbn in Hc. rewrite !app_nil_r in Hc. exact Hc.
    + intros i w Hw. unfold held. rewrite (Hd i w Hw). reflexivity.
Qed.

Lemma loop_returns_when_fair_witness :
  let Q := enqueue (Job 0 (map (fun p => (0%nat, leaf p)) (seq 1 9)) true) JobQueueT_new in
  let segs := replicate 138 [1; 0]%nat in
  (1 <= omp_team_size (runtime 2 1) None)%nat /\
  Z.of_nat (omp_team_size (runtime 2 1) None) < 2 ^ 32 /\
  (forall j, j ∈ m_queue Q -> reachable 1 j = true) /\
  Forall (covers (omp_team_size (runtime 2 1) None)) segs /\
  (2 * (queue_cost Q + 5 * omp_team_size (runtime 2 1) None) <= length segs)%nat /\
  exists s',
    loop (G:=DefaultGroup) (runtime 2 1) 0 (concat segs) (system_of [Q]) = Returned s' /\
    (forall i w, workers s' !! i = Some w -> w_pc w = PDone) /\
    (exists Q', queues s' = [Q'] /\ m_queue Q' = []) /\
    map fst (runs s') ≡ₚ flat_map flatten (m_queue Q).
Proof.
  intros Q segs.
  assert (1 <= omp_team_size (runtime 2 1) None)%nat as H1 by (vm_compute; lia).
  assert (Z.of_nat (omp_team_size (runtime 2 1) None) < 2 ^ 32) as H2
    by (vm_compute; reflexivity).
  assert (forall j, j ∈ m_queue Q -> reachable 1 j = true) as H3.
  { intros j Hj. apply list_elem_of_singleton in Hj. subst j. vm_compute. reflexivity. }
  assert (Forall (covers (omp_team_size (runtime 2 1) None)) segs) as H4
    by (apply Forall_replicate, covers_two).
  assert (2 * (queue_cost Q + 5 * omp_team_size (runtime 2 1) None) <= length segs)%nat
    as H5 by (vm_compute; lia).
  split; [exact H1|]. split; [exact H2|]. split; [exact H3|]. split; [exact H4|].
  split; [exact H5|].
  exact (loop_returns_when_fair (G:=DefaultGroup) (runtime 2 1) Q segs H1 H2 H3 H4 H5).
Defined.

(** ** Jobs that stay on their queue *)

Lemma stays_confined q' q j : stays q j = true -> confined q' q j = true.
Proof.
  revert q. induction j as [p spawns b IH] using job_ind_spawns. intros q.
  cbn [stays confined]. rewrite !forallb_forall. intros H [t c] Hin.
  specialize (H (t, c) Hin). cbn beta iota in H. apply andb_true_iff in H.
  destruct H as [Ht Hc]. apply Nat.eqb_eq in Ht. subst t.
  cbn beta iota. apply andb_true_iff. split.
  - destruct (q =? q')%nat; reflexivity.
  - apply (IH q c); [apply list_elem_of_In; exact Hin|exact Hc].
Qed.

Lemma stays_reachable nq q j : (q < nq)%nat -> stays q j = true -> reachable nq j = true.
Proof.
  intros Hq. induction j as [p spawns b IH] using job_ind_spawns.
  cbn [stays reachable]. rewrite !forallb_forall. intros H [t c] Hin.
  specialize (H (t, c) Hin). cbn beta iota in H. apply andb_true_iff in H.
  destruct H as [Ht Hc]. apply Nat.eqb_eq in Ht. subst t.
  cbn beta iota. apply andb_true_iff. split.
  - apply Nat.ltb_lt, Hq.
  - apply (IH q c); [apply list_elem_of_In; exact Hin|exact Hc].
Qed.

(** X14.  A launch whose jobs stay on their queues runs every job.  Let
    [loop], [numaLoop] or [numaLaunch] set off its workers with every queue
    of the system having a team, its idle counter at zero, and pending jobs
    that enqueue, they and the jobs they lead to, on the queue that runs them.
    Then after enough stretches of a fair schedule the launch of every queue
    has returned with its assertion holding, and the jobs run are exactly the
    jobs that were pending with all they led to, each once. *)
Theorem launch_runs_every_job {G : JobQueueGroupType} {HN : NoAssistGroup G}
    (env : environment) (s0 s1 : system) (segs : list (list nat)) :
  launch_state env s0 s1 ->
  (forall q Q, queues s1 !! q = Some Q ->
     m_idle_count Q = 0 /\ (1 <= count_team q (workers s1))%nat /\
     forall j, j ∈ m_queue Q -> stays q j = true) ->
  (forall i w, workers s1 !! i = Some w -> (w_queue w < length (queues s1))%nat) ->
  Z.of_nat (length (workers s1)) < 2 ^ 32 ->
  Forall (covers (length (workers s1))) segs ->
  (2 * (list_sum (map queue_cost (queues s1)) + 5 * length (workers s1))
   <= length segs)%nat ->
  (forall q, (q < length (queues s1))%nat ->
     launch_end q (run_schedule (concat segs) s1)
     = Returned (run_schedule (concat segs) s1)) /\
  map fst (runs (run_schedule (concat segs) s1))
    ≡ₚ map fst (runs s1) ++ flat_map queued (queues s1).
Proof.
  intros HL Hqs Hwq Hlen Hcov Hm.
  pose proof (launch_state_launched env s0 s1 HL) as Hl.
  assert (forall i w, workers (run_schedule (concat segs) s1) !! i = Some w ->
                      w_pc w = PDone) as Hd.
  { apply (launch_fair_done env s0 s1 segs HL); try assumption.
    intros i w Hw. destruct (lookup_lt_is_Some_2 _ _ (Hwq i w Hw)) as [Q HQ].
    exists Q. split; [exact HQ|]. apply (Hqs _ Q HQ). }
  assert (forall q Q', queues (run_schedule (concat segs) s1) !! q = Some Q' ->
                       m_queue Q' = []) as Hempty.
  { intros q Q' HQ'.
    assert (is_Some (queues s1 !! q)) as [Q HQ].
    { apply lookup_lt_is_Some. rewrite <- (run_length_queues (concat segs) s1).
      eapply lookup_lt_Some, HQ'. }
    apply (drained_when_isolated (HG:=NoAssistGroup_inert G HN) env s0 s1
             (concat segs) q HL).
    - intros q' Q0 j HQ0 Hj. apply stays_confined. apply (Hqs q' Q0 HQ0), Hj.
    - apply (Hqs q Q HQ).
    - apply all_done_team_done, Hd.
    - exact HQ'. }
  split.
  - intros q Hq. unfold launch_end. rewrite (all_done_team_done q _ Hd).
    assert (is_Some (queues (run_schedule (concat segs) s1) !! q)) as [Q' HQ']
      by (apply lookup_lt_is_Some; rewrite run_length_queues; exact Hq).
    rewrite HQ', (Hempty q Q' HQ'). reflexivity.
  - assert (jobs_reachable s1) as Hjr.
    { split.
      - intros q Q j HQ Hj. apply (stays_reachable _ q).
        + eapply lookup_lt_Some, HQ.
        + apply (Hqs q Q HQ), Hj.
      - intros i w Hw. destruct (Hl i w Hw) as (E & _).
        unfold worker_reachable. rewrite E. exact I. }
    destruct (run_conserved (HG:=NoAssistGroup_inert G HN)
                (map fst (runs s1) ++ flat_map queued (queues s1)) (concat segs) s1 Hjr)
      as [_ Hc].
    { unfold conserved, outstanding. rewrite (flat_map_all_nil held), app_nil_r;
        [reflexivity|].
      intros i w Hw. destruct (Hl i w Hw) as (E & _). unfold held. rewrite E. reflexivity. }
    unfold conserved, outstanding in Hc.
    rewrite (flat_map_all_nil queued), (flat_map_all_nil held), !app_nil_r in Hc;
      [exact Hc| |].
    + intros i w Hw. unfold held. rewrite (Hd i w Hw). reflexivity.
    + intros q Q' HQ'. unfold queued. rewrite (Hempty q Q' HQ'). reflexivity.
Qed.

Lemma launch_runs_every_job_witness :
  exists s1,
    numaLaunch_begin (runtime 2 2) two_busy_queues = Some s1 /\
    length (workers s1) = 2%nat /\
    let segs := replicate 88 [0; 1]%nat in
    (forall q, (q < length (queues s1))%nat ->
       launch_end q (run_schedule (G:=NumaGroup) (concat segs) s1)
       = Returned (run_schedule (G:=NumaGroup) (concat segs) s1)) /\
    map fst (runs (run_schedule (G:=NumaGroup) (concat segs) s1))
      ≡ₚ map fst (runs s1) ++ flat_map queued (queues s1).
Proof.
  eexists. split; [vm_compute; reflexivity|]. split; [reflexivity|].
  apply (launch_runs_every_job (G:=NumaGroup) (runtime 2 2) two_busy_queues).
  - split; [reflexivity|]. right. right. vm_compute. reflexivity.
  - intros q Q HQ. vm_compute in HQ.
    destruct q as [|[|q]]; try discriminate HQ; injection HQ as <-;
      (split; [reflexivity|]); (split; [vm_compute; lia|]);
      intros j Hj; apply list_elem_of_singleton in Hj; subst j; reflexivity.
  - intros i w Hw. vm_compute in Hw.
    destruct i as [|[|i]]; try discriminate Hw; injection Hw as <-; vm_compute; lia.
  - vm_compute. reflexivity.
  - apply Forall_replicate. intros i Hi. cbn in Hi.
    destruct i as [|[|i]]; [| |lia].
    + apply elem_of_cons. left. reflexivity.
    + apply elem_of_cons. right. apply elem_of_cons. left. reflexivity.
  - vm_compute. lia.
Defined.

(** * Contest registration *)

Lemma alter_last {A} (f : A -> A) (l : list A) (x : A) :
  alter f (length l) (l ++ [x]) = l ++ [f x].
Proof. induction l as [|a l IH]; cbn; [reflexivity|]. f_equal. exact IH. Qed.

Lemma register_objects (st : Contest.store) (r : Contest.registration) :
  Contest.objects (Contest.register st r)
  = Contest.objects st ++ [Contest.contestant_of r] /\
  Contest.m_list (Contest.register st r)
  = Contest.m_list st ++ [length (Contest.objects st)].
Proof.
  destruct r as [func desc|func desc]; unfold Contest.register, Contest.allocate,
    Contest.Contestant_UCArray_Parallel_ctor, Contest.Contestant_UCArray_ctor,
    Contest.Contestant_ctor, Contest.register_contestant, Contest.with_object;
    cbn [Contest.objects Contest.m_list]; rewrite !alter_last; split; reflexivity.
Qed.

(** X15.  Start-up registration.  After the registrations of the
    CONTESTANT_REGISTER macros, in the order in which they were carried out,
    [m_list] of the contest holds every contestant exactly once and in that
    order, and each entry is the address of a complete object: its function
    is set, its [m_funcname] is the name of that function, its description is
    the one given, and it is of the class its macro makes.  (The address goes
    into the list from the constructor of the base class, before [m_func] is
    set; the list holds addresses, so it sees the finished object.) *)
Theorem registration_in_order (rs : list Contest.registration) :
  Contest.m_list (Contest.startup rs) = seq 0 (length rs) /\
  Contest.objects (Contest.startup rs) = map Contest.contestant_of rs /\
  forall k r, rs !! k = Some r ->
    exists c, Contest.m_list (Contest.startup rs) !! k = Some c /\
      Contest.objects (Contest.startup rs) !! c = Some (Contest.contestant_of r) /\
      Contest.m_func (Contest.contestant_of r)
      = Some (Contest.m_funcname (Contest.contestant_of r)).
Proof.
  assert (Contest.m_list (Contest.startup rs) = seq 0 (length rs) /\
          Contest.objects (Contest.startup rs) = map Contest.contestant_of rs) as [H1 H2].
  { induction rs as [|r rs IH] using rev_ind; [split; reflexivity|].
    unfold Contest.startup. rewrite foldl_app. cbn [foldl].
    fold (Contest.startup rs). destruct IH as [IH1 IH2].
    destruct (register_objects (Contest.startup rs) r) as [E1 E2].
    rewrite E1, E2, IH1, IH2, length_app, map_app, length_map.
    cbn [length map]. rewrite Nat.add_1_r, seq_S. split; reflexivity. }
  split; [exact H1|]. split; [exact H2|].
  intros k r Hk. exists k. rewrite H1, H2. split; [|split].
  - apply lookup_seq_lt. eapply lookup_lt_Some, Hk.
  - change (map Contest.contestant_of rs) with (Contest.contestant_of <$> rs).
    rewrite list_lookup_fmap, Hk. reflexivity.
  - destruct r; reflexivity.
Qed.
